(** * Voxel sandbox: world store, inventory, camera, projection and edit resolver

    A shallow embedding of the page components of the voxel sandbox
    (the pointer-lock first-person page, its four-slot predecessor, the
    earlier page without pointer lock and the side-view page) and of the
    crafting overlay: the handlers of the canvas, the keyboard and the
    chat, the intervals, the generators and the drawing passes.

    React.  State set in a handler is read by the next event; a listener
    installed by an effect keeps the values of the render the effect last
    ran in, and the effect runs again when one of its dependencies has
    changed.  Strings the code compares or trims are lists of UTF-16 code
    units; key names are ASCII strings.

    Numbers.  The source computes on JavaScript numbers.  Block coordinates
    and inventory counts only ever hold integers (loop counters, results of
    [Math.round], sums and differences of integers), so they are [Z].
    Camera coordinates, angles, distances and screen coordinates are
    modelled as real numbers [R]: [Math.sin], [Math.cos] and [Math.sqrt]
    are the real functions, and the rounding error, the infinities and NaN
    of IEEE doubles are not represented.  Random draws are rationals and
    their products are exact.  A double computed by the code differs from
    the number of the model by its rounding error, which can decide a
    comparison or a [Math.floor] the other way when the exact number lies
    on the threshold or within that error of it; the statements that turn
    on such a comparison leave the band [tolerance] around the threshold
    undecided. *)

From Stdlib Require Import Reals ZArith QArith Qround List Bool Ascii String Lia Lra.
From Stdlib Require Import Permutation Sorted Qreals.
Import ListNotations.

Local Open Scope R_scope.

(** ** JavaScript built-ins used by the pages *)

Module JS.

(** [Math.round]: the nearest integer, a tie going to the larger one. *)
Definition Math_round (r : R) : Z := Zfloor (r + / 2).

Definition Math_floor (r : R) : Z := Zfloor r.

Definition Math_max (a b : R) : R := Rmax a b.

Definition Math_min (a b : R) : R := Rmin a b.

Section Arrays.
Context {A : Type}.

(** [Array.prototype.findIndex]; [None] stands for the result [-1]. *)
Fixpoint findIndex (p : A -> bool) (l : list A) : option nat :=
  match l with
  | [] => None
  | a :: l' =>
      if p a then Some O
      else match findIndex p l' with
           | Some i => Some (S i)
           | None => None
           end
  end.

(** [l.filter((_, i) => i !== n)] *)
Fixpoint filterIndexNot (n : nat) (l : list A) : list A :=
  match l, n with
  | [], _ => []
  | _ :: l', O => l'
  | a :: l', S n' => a :: filterIndexNot n' l'
  end.

(** [l[n] = v] on a copy of [l], for [n] inside the array. *)
Fixpoint assign (n : nat) (v : A) (l : list A) : list A :=
  match l, n with
  | [], _ => []
  | _ :: l', O => v :: l'
  | a :: l', S n' => a :: assign n' v l'
  end.

Definition some (p : A -> bool) (l : list A) : bool := existsb p l.

Definition every (p : A -> bool) (l : list A) : bool := forallb p l.
End Arrays.

End JS.

(** ** Data model *)

Inductive BlockType : Set :=
  grass | dirt | stone | wood | air | planks | cobblestone.

Definition BlockType_eqb (a b : BlockType) : bool :=
  match a, b with
  | grass, grass | dirt, dirt | stone, stone | wood, wood
  | air, air | planks, planks | cobblestone, cobblestone => true
  | _, _ => false
  end.

Record Block : Set := mkBlock {
  block_type : BlockType;
  block_x : Z;
  block_y : Z;
  block_z : Z
}.

Record InventoryItem : Set := mkItem {
  item_type : BlockType;
  count : Z
}.

Record Camera : Type := mkCamera {
  cam_x : R;
  cam_y : R;
  cam_z : R;
  pitch : R;
  yaw : R
}.

Record Ingredient : Set := mkIngredient {
  ing_type : BlockType;
  ing_count : Z
}.

Record Recipe : Set := mkRecipe {
  result : BlockType;
  resultCount : Z;
  ingredients : list Ingredient
}.

Record Canvas : Set := mkCanvas {
  width : Z;
  height : Z
}.

Record ProjectedPoint : Type := mkPoint {
  pt_x : R;
  pt_y : R;
  distance : R
}.

(** The transient notifications ([toast.success] / [toast.error]); the
    constructor records which message is shown and the value spliced in. *)
Inductive Toast : Set :=
  | BlockPlaced (t : BlockType)     (* success: block placed, with its label *)
  | BlockRemoved (t : BlockType)    (* success: block removed, with its label *)
  | NotEnoughBlocks                 (* error: not enough blocks *)
  | Crafted (r : Recipe).           (* success: recipe name and result count *)

Inductive Effect : Set :=
  | Notify (t : Toast)
  | RequestPointerLock
  | PreventDefault.

Definition notifications (es : list Effect) : list Toast :=
  flat_map (fun e => match e with Notify t => [t] | _ => [] end) es.

Definition WORLD_SIZE : Z := 30.
Definition RENDER_DISTANCE : Z := 15.

(** The React state of the page that the handlers below read and set. *)
Record GameState : Type := mkState {
  world : list Block;
  inventory : list InventoryItem;
  selectedBlock : BlockType;
  camera : Camera;
  handAnimation : R;
  isSwinging : bool;
  pointerLocked : bool;
  showInventory : bool;
  showChat : bool
}.

Definition setWorld (w : list Block) (s : GameState) : GameState :=
  mkState w (inventory s) (selectedBlock s) (camera s) (handAnimation s)
          (isSwinging s) (pointerLocked s) (showInventory s) (showChat s).

Definition setInventory (i : list InventoryItem) (s : GameState) : GameState :=
  mkState (world s) i (selectedBlock s) (camera s) (handAnimation s)
          (isSwinging s) (pointerLocked s) (showInventory s) (showChat s).

Definition setSelectedBlock (t : BlockType) (s : GameState) : GameState :=
  mkState (world s) (inventory s) t (camera s) (handAnimation s)
          (isSwinging s) (pointerLocked s) (showInventory s) (showChat s).

Definition setCamera (c : Camera) (s : GameState) : GameState :=
  mkState (world s) (inventory s) (selectedBlock s) c (handAnimation s)
          (isSwinging s) (pointerLocked s) (showInventory s) (showChat s).

Definition setHandAnimation (a : R) (s : GameState) : GameState :=
  mkState (world s) (inventory s) (selectedBlock s) (camera s) a
          (isSwinging s) (pointerLocked s) (showInventory s) (showChat s).

Definition setIsSwinging (b : bool) (s : GameState) : GameState :=
  mkState (world s) (inventory s) (selectedBlock s) (camera s) (handAnimation s)
          b (pointerLocked s) (showInventory s) (showChat s).

Definition setPointerLocked (b : bool) (s : GameState) : GameState :=
  mkState (world s) (inventory s) (selectedBlock s) (camera s) (handAnimation s)
          (isSwinging s) b (showInventory s) (showChat s).

Definition setShowInventory (b : bool) (s : GameState) : GameState :=
  mkState (world s) (inventory s) (selectedBlock s) (camera s) (handAnimation s)
          (isSwinging s) (pointerLocked s) b (showChat s).

Definition setShowChat (b : bool) (s : GameState) : GameState :=
  mkState (world s) (inventory s) (selectedBlock s) (camera s) (handAnimation s)
          (isSwinging s) (pointerLocked s) (showInventory s) b.

(** The initial inventory of the pointer-lock page with crafting. *)
Definition initialInventory : list InventoryItem :=
  [ mkItem grass 64; mkItem dirt 64; mkItem stone 64; mkItem wood 64;
    mkItem planks 0; mkItem cobblestone 10 ].

(** The initial inventory of its predecessor, which has the village but
    no crafting: four slots only. *)
Definition initialInventory4 : list InventoryItem :=
  [ mkItem grass 64; mkItem dirt 64; mkItem stone 64; mkItem wood 64 ].

Definition initialCamera : Camera := mkCamera 15 5 15 0 0.

(** ** Targeting / edit resolver *)

(** [b.x === cx && b.y === cy && b.z === cz] *)
Definition atCell (cx cy cz : Z) (b : Block) : bool :=
  (block_x b =? cx)%Z && (block_y b =? cy)%Z && (block_z b =? cz)%Z.

(** The look vector [forward] both handlers derive from yaw and pitch. *)
Definition forwardVector (c : Camera) : R * R * R :=
  (sin (yaw c) * cos (pitch c), - sin (pitch c), cos (yaw c) * cos (pitch c)).

(** The lattice cell at distance [dist] along the look vector. *)
Definition targetCell (c : Camera) (dist : R) : Z * Z * Z :=
  let '(fx, fy, fz) := forwardVector c in
  (JS.Math_round (cam_x c + fx * dist),
   JS.Math_round (cam_y c + fy * dist),
   JS.Math_round (cam_z c + fz * dist)).

(** [inventory.map(i => i.type === t ? { ...i, count: i.count + d } : i)] *)
Definition adjustCount (t : BlockType) (d : Z) (inv : list InventoryItem)
  : list InventoryItem :=
  map (fun i => if BlockType_eqb (item_type i) t
                then mkItem (item_type i) (count i + d) else i) inv.

(** [inventory.find(i => i.type === t)] *)
Definition findItem (t : BlockType) (inv : list InventoryItem)
  : option InventoryItem :=
  find (fun i => BlockType_eqb (item_type i) t) inv.

(** [handleCanvasClick] of the pointer-lock page. *)
Definition handleCanvasClick (button : Z) (s : GameState)
  : GameState * list Effect :=
  if negb (pointerLocked s) then (s, [RequestPointerLock])
  else
    let s1 := setHandAnimation 0 (setIsSwinging true s) in
    if (button =? 0)%Z then
      if match findItem (selectedBlock s) (inventory s) with
         | Some item => (count item >? 0)%Z
         | None => false
         end
      then
        let '(placeX, placeY, placeZ) := targetCell (camera s) 3 in
        let exists_ := JS.some (atCell placeX placeY placeZ) (world s) in
        if negb exists_ then
          (setInventory (adjustCount (selectedBlock s) (-1) (inventory s))
             (setWorld (world s ++ [mkBlock (selectedBlock s) placeX placeY placeZ]) s1),
           [Notify (BlockPlaced (selectedBlock s))])
        else (s1, [])
      else (s1, [Notify NotEnoughBlocks])
    else (s1, []).

(** The body of the [for (let dist = 1; dist <= 5; dist += 0.5)] loop of
    [handleContextMenu]; [fuel] bounds the number of iterations. *)
Fixpoint removeLoop (fuel : nat) (dist : R) (s : GameState)
  : GameState * list Effect :=
  match fuel with
  | O => (s, [])
  | S fuel' =>
      if Rle_dec dist 5 then
        let '(targetX, targetY, targetZ) := targetCell (camera s) dist in
        match JS.findIndex (atCell targetX targetY targetZ) (world s) with
        | Some blockIndex =>
            match nth_error (world s) blockIndex with
            | Some removedBlock =>
                (setHandAnimation 0 (setIsSwinging true
                   (setInventory (adjustCount (block_type removedBlock) 1 (inventory s))
                      (setWorld (JS.filterIndexNot blockIndex (world s)) s))),
                 [Notify (BlockRemoved (block_type removedBlock))])
            | None => (s, [])      (* not reached: the index comes from findIndex *)
            end
        | None => removeLoop fuel' (dist + / 2) s
        end
      else (s, [])
  end.

(** [handleContextMenu] of the pointer-lock pages.  Ten iterations are
    enough for the guard [dist <= 5] to fail (see [samples_10]). *)
Definition handleContextMenu (s : GameState) : GameState * list Effect :=
  if negb (pointerLocked s) then (s, [PreventDefault])
  else
    let '(s', es) := removeLoop 10 1 s in (s', PreventDefault :: es).

(** [handleCanvasClick] of the earlier page without pointer lock: the
    block goes two cells ahead at camera height. *)
Module Legacy.

Definition handleCanvasClick (button : Z) (s : GameState)
  : GameState * list Effect :=
  let s1 := setHandAnimation 0 (setIsSwinging true s) in
  if (button =? 0)%Z then
    if match findItem (selectedBlock s) (inventory s) with
       | Some item => (count item >? 0)%Z
       | None => false
       end
    then
      let forward_x := sin (yaw (camera s)) in
      let forward_z := cos (yaw (camera s)) in
      let placeX := JS.Math_round (cam_x (camera s) + forward_x * 2) in
      let placeY := JS.Math_round (cam_y (camera s)) in
      let placeZ := JS.Math_round (cam_z (camera s) + forward_z * 2) in
      (setInventory (adjustCount (selectedBlock s) (-1) (inventory s))
         (setWorld (world s ++ [mkBlock (selectedBlock s) placeX placeY placeZ]) s1),
       [Notify (BlockPlaced (selectedBlock s))])
    else (s1, [])
  else (s1, []).

End Legacy.

(** ** Crafting *)

(** The recipes of the inventory overlay. *)
Definition recipes : list Recipe :=
  [ mkRecipe planks 4 [mkIngredient wood 1];
    mkRecipe stone 1 [mkIngredient cobblestone 1] ].

(** [canCraft]: every ingredient has a slot holding at least its count. *)
Definition canCraft (inv : list InventoryItem) (recipe : Recipe) : bool :=
  JS.every (fun ingredient =>
              match findItem (ing_type ingredient) inv with
              | Some item => (count item >=? ing_count ingredient)%Z
              | None => false
              end) (ingredients recipe).

(** One assignment [newInventory[i] = { ...newInventory[i], count: count + d }]
    at the first slot of type [t], guarded by [i !== -1]. *)
Definition bumpFirst (t : BlockType) (d : Z) (newInventory : list InventoryItem)
  : list InventoryItem :=
  match JS.findIndex (fun i => BlockType_eqb (item_type i) t) newInventory with
  | Some itemIndex =>
      match nth_error newInventory itemIndex with
      | Some it => JS.assign itemIndex (mkItem (item_type it) (count it + d)) newInventory
      | None => newInventory
      end
  | None => newInventory
  end.

(** The updater passed to [setInventory] by [handleCraft]. *)
Definition craftUpdate (recipe : Recipe) (prev : list InventoryItem)
  : list InventoryItem :=
  let newInventory :=
    fold_left (fun acc ingredient =>
                 bumpFirst (ing_type ingredient) (- ing_count ingredient) acc)
              (ingredients recipe) prev in
  bumpFirst (result recipe) (resultCount recipe) newInventory.

Definition handleCraft (recipe : Recipe) (s : GameState)
  : GameState * list Effect :=
  if canCraft (inventory s) recipe
  then (setInventory (craftUpdate recipe (inventory s)) s, [Notify (Crafted recipe)])
  else (s, []).

(** ** Camera and motion model *)

(** [keysPressed.current.has(k)] on the set of lower-cased key names. *)
Definition has (keysPressed : list string) (k : string) : bool :=
  existsb (String.eqb k) keysPressed.

(** The updater passed to [setCamera] by the 16 ms motion tick.  The sums
    and differences are exact here; in the code each is rounded, so a step
    added and then subtracted may leave the coordinate one rounding error
    away from where it was.  The clamps are not affected. *)
Definition moveCamera (keysPressed : list string) (prev : Camera) : Camera :=
  let newX := cam_x prev in
  let newZ := cam_z prev in
  let newY := cam_y prev in
  let speed := 2 / 10 in
  let forward := cos (yaw prev) in
  let side := sin (yaw prev) in
  let '(newX, newZ) :=
    if has keysPressed "w" then (newX + side * speed, newZ - forward * speed)
    else (newX, newZ) in
  let '(newX, newZ) :=
    if has keysPressed "s" then (newX - side * speed, newZ + forward * speed)
    else (newX, newZ) in
  let '(newX, newZ) :=
    if has keysPressed "a" then (newX - forward * speed, newZ - side * speed)
    else (newX, newZ) in
  let '(newX, newZ) :=
    if has keysPressed "d" then (newX + forward * speed, newZ + side * speed)
    else (newX, newZ) in
  let newY := if has keysPressed " " then newY + speed else newY in
  let newY := if has keysPressed "shift" then newY - speed else newY in
  let newX := JS.Math_max 0 (JS.Math_min (IZR (WORLD_SIZE - 1)) newX) in
  let newZ := JS.Math_max 0 (JS.Math_min (IZR (WORLD_SIZE - 1)) newZ) in
  let newY := JS.Math_max 2 (JS.Math_min 20 newY) in
  mkCamera newX newY newZ (pitch prev) (yaw prev).

(** The motion tick: suspended while the chat or the inventory is open. *)
Definition moveInterval (keysPressed : list string) (s : GameState) : GameState :=
  if showChat s || showInventory s then s
  else setCamera (moveCamera keysPressed (camera s)) s.

Definition sensitivity : R := 2 / 1000.

(** The updater passed to [setCamera] by [handleMouseMove]. *)
Definition lookCamera (movementX movementY : R) (prev : Camera) : Camera :=
  mkCamera (cam_x prev) (cam_y prev) (cam_z prev)
    (JS.Math_max (- PI / 2) (JS.Math_min (PI / 2) (pitch prev + movementY * sensitivity)))
    (yaw prev + movementX * sensitivity).

Definition handleMouseMove (movementX movementY : R) (s : GameState) : GameState :=
  if pointerLocked s && negb (showInventory s)
  then setCamera (lookCamera movementX movementY (camera s)) s
  else s.

(** ** Projection engine and cube rasterizer *)

Definition Rltb (a b : R) : bool := if Rlt_dec a b then true else false.

Definition Rleb (a b : R) : bool := if Rle_dec a b then true else false.

(** [project3DTo2D] of the pointer-lock pages; [canvas] is
    [canvasRef.current], [None] while the canvas is not mounted. *)
Definition project3DTo2D (canvas : option Canvas) (camera : Camera) (x y z : R)
  : ProjectedPoint :=
  match canvas with
  | None => mkPoint 0 0 0
  | Some canvas =>
      let dx := x - cam_x camera in
      let dy := y - cam_y camera in
      let dz := z - cam_z camera in
      let cosPitch := cos (pitch camera) in
      let sinPitch := sin (pitch camera) in
      let cosYaw := cos (yaw camera) in
      let sinYaw := sin (yaw camera) in
      let rotatedX := dx * cosYaw - dz * sinYaw in
      let rotatedZ := dx * sinYaw + dz * cosYaw in
      let rotatedY := dy * cosPitch + rotatedZ * sinPitch in
      let finalZ := - dy * sinPitch + rotatedZ * cosPitch in
      if Rleb finalZ (1 / 10) then mkPoint 0 0 (-1)
      else
        let fov := 500 in
        let screenX := (rotatedX * fov) / finalZ + IZR (width canvas) / 2 in
        let screenY := (- rotatedY * fov) / finalZ + IZR (height canvas) / 2 in
        mkPoint screenX screenY finalZ
  end.

(** The forward-axis depth [finalZ] of a world point: its camera-relative
    position rotated by the yaw, then by the pitch. *)
Definition forwardDepth (camera : Camera) (x y z : R) : R :=
  let dx := x - cam_x camera in
  let dy := y - cam_y camera in
  let dz := z - cam_z camera in
  let rotatedZ := dx * sin (yaw camera) + dz * cos (yaw camera) in
  - dy * sin (pitch camera) + rotatedZ * cos (pitch camera).

(** Fill styles: a [#rrggbb] string as its three channels. *)
Inductive Color : Set :=
  | Hex (r g b : Z)
  | Transparent
  | NotAColor.

Definition blockColors (t : BlockType) : Color :=
  match t with
  | grass => Hex 34 139 34
  | dirt => Hex 139 69 19
  | stone => Hex 112 128 144
  | wood => Hex 101 67 33
  | planks => Hex 222 184 135
  | cobblestone => Hex 128 128 128
  | air => Transparent
  end.

Definition adjustBrightness (color : Color) (factor : R) : Color :=
  match color with
  | Hex r g b => Hex (JS.Math_floor (IZR r * factor))
                     (JS.Math_floor (IZR g * factor))
                     (JS.Math_floor (IZR b * factor))
  | _ => NotAColor
  end.

(** What reaches the 2D context: a filled rectangle, or a closed path that
    is filled and then stroked. *)
Inductive DrawOp : Type :=
  | FillRect (fillStyle : Color) (x y w h : R)
  | FillStrokePath (fillStyle strokeStyle : Color) (lineWidth : R)
                   (path : list (R * R)).

Definition corners (x y z : R) : list (R * R * R) :=
  [ (x, y, z); (x + 1, y, z); (x + 1, y + 1, z); (x, y + 1, z);
    (x, y, z + 1); (x + 1, y, z + 1); (x + 1, y + 1, z + 1); (x, y + 1, z + 1) ].

Definition faces : list (list nat) :=
  [ [0; 1; 2; 3]; [4; 5; 6; 7]; [0; 1; 5; 4];
    [2; 3; 7; 6]; [0; 3; 7; 4]; [1; 2; 6; 5] ]%nat.

Definition faceColors (color : Color) : list Color :=
  [ color;
    adjustBrightness color (8 / 10);
    adjustBrightness color (9 / 10);
    adjustBrightness color (7 / 10);
    adjustBrightness color (85 / 100);
    adjustBrightness color (95 / 100) ].

(** The eight corner projections of the unit cube at [(x, y, z)]. *)
Definition projectCorners (canvas : option Canvas) (camera : Camera) (x y z : R)
  : list ProjectedPoint :=
  map (fun '(cx, cy, cz) => project3DTo2D canvas camera cx cy cz) (corners x y z).

Definition drawCube (canvas : option Canvas) (camera : Camera)
    (x y z : R) (color : Color) : list DrawOp :=
  let projected := projectCorners canvas camera x y z in
  if JS.some (fun p => Rltb (distance p) 0) projected then []
  else
    map (fun '(face, fillStyle) =>
           FillStrokePath fillStyle (Hex 0 0 0) 1
             (map (fun i => let p := nth i projected (mkPoint 0 0 0) in
                            (pt_x p, pt_y p)) face))
        (combine faces (faceColors color)).

(** ** Scene compositor *)

(** [Array.prototype.sort(cmp)]: a stable sort, written as insertion of
    each element before the first later one it does not have to follow. *)
Section Sort.
Context {A : Type} (cmp : A -> A -> R).

Fixpoint insertSorted (a : A) (l : list A) : list A :=
  match l with
  | [] => [a]
  | b :: l' => if Rleb (cmp a b) 0 then a :: l else b :: insertSorted a l'
  end.

Fixpoint sort (l : list A) : list A :=
  match l with
  | [] => []
  | a :: l' => insertSorted a (sort l')
  end.
End Sort.

(** The distance tested by the filter of [drawWorld].  It is the exact
    distance; the code tests its double, which may fall on the other side
    of the threshold when the exact distance is within a rounding error of
    it (a camera at z = 2^-60 and a block at z = 15 in its column: the
    exact distance is below 15, its double is 15). *)
Definition filterDistance (camera : Camera) (block : Block) : R :=
  let dx := IZR (block_x block) - cam_x camera in
  let dz := IZR (block_z block) - cam_z camera in
  sqrt (dx * dx + dz * dz).

(** The distance compared by the sort of [drawWorld]. *)
Definition horizontalDistance (camera : Camera) (a : Block) : R :=
  sqrt ((IZR (block_x a) - cam_x camera) ^ 2 + (IZR (block_z a) - cam_z camera) ^ 2).

Definition sortedBlocks (camera : Camera) (world : list Block) : list Block :=
  sort (fun a b => horizontalDistance camera b - horizontalDistance camera a)
       (filter (fun block => Rltb (filterDistance camera block) (IZR RENDER_DISTANCE))
               world).

(** The blocks handed to [drawCube], in call order. *)
Definition cubeCalls (camera : Camera) (world : list Block) : list Block :=
  filter (fun block => negb (BlockType_eqb (block_type block) air))
         (sortedBlocks camera world).

(** The block pass of [drawWorld]: the sky, then one cube per call.  The
    companions and the hand overlay, painted afterwards, are left out. *)
Definition drawWorld (canvas : option Canvas) (camera : Camera)
    (world : list Block) : list DrawOp :=
  match canvas with
  | None => []
  | Some cv =>
      FillRect (Hex 135 206 235) 0 0 (IZR (width cv)) (IZR (height cv))
      :: flat_map (fun block =>
                     drawCube canvas camera (IZR (block_x block)) (IZR (block_y block))
                              (IZR (block_z block)) (blockColors (block_type block)))
                  (cubeCalls camera world)
  end.

(** ** World generators *)

(** The ambient random source: [Math.random()] hands out the next draw.
    Generators are computations that may consume it. *)
Record RandomSource : Set := mkRandom {
  draws : nat -> Q;
  position : nat
}.

Definition Rand (A : Type) : Type := RandomSource -> A * RandomSource.

Definition ret {A : Type} (a : A) : Rand A := fun rs => (a, rs).

Definition bind {A B : Type} (m : Rand A) (k : A -> Rand B) : Rand B :=
  fun rs => let '(a, rs') := m rs in k a rs'.

Notation "x <- m ;; k" := (bind m (fun x => k))
  (at level 61, m at next level, right associativity).

Definition Math_random : Rand Q :=
  fun rs => (draws rs (position rs), mkRandom (draws rs) (S (position rs))).

(** [for (let i = lo; i < lo + n; i++)]: the values the counter takes. *)
Definition range (lo n : Z) : list Z :=
  map (fun i => (lo + Z.of_nat i)%Z) (seq 0 (Z.to_nat n)).

(** A loop whose body pushes blocks and may draw random numbers. *)
Fixpoint forRand {A : Type} (l : list A) (body : A -> Rand (list Block))
  : Rand (list Block) :=
  match l with
  | [] => ret []
  | a :: l' => bs <- body a ;; rest <- forRand l' body ;; ret (bs ++ rest)
  end.

(** The flat base shared by [generateFlatWorld] and [generateVillage]. *)
Definition flatBase : list Block :=
  flat_map (fun x =>
    flat_map (fun z =>
      [ mkBlock grass x 0 z; mkBlock dirt x (-1) z; mkBlock dirt x (-2) z ])
      (range 0 WORLD_SIZE))
    (range 0 WORLD_SIZE).

Definition buildHouse (startX startZ width depth height : Z) : list Block :=
  flat_map (fun y =>
    flat_map (fun x =>
      [ mkBlock planks x y startZ; mkBlock planks x y (startZ + depth - 1) ])
      (range startX width)
    ++
    flat_map (fun z =>
      [ mkBlock planks startX y z; mkBlock planks (startX + width - 1) y z ])
      (range startZ depth))
    (range 1 height)
  ++
  flat_map (fun x =>
    flat_map (fun z => [ mkBlock wood x (height + 1) z ]) (range startZ depth))
    (range startX width)
  ++
  [ mkBlock air (startX + width / 2) 1 startZ;
    mkBlock air (startX + width / 2) 2 startZ ]%Z.

Definition houses : list Block :=
  buildHouse 5 5 6 6 3 ++ buildHouse 13 5 5 5 3 ++
  buildHouse 5 13 7 6 3 ++ buildHouse 14 14 6 6 4.

Definition plaza : list Block :=
  flat_map (fun x => flat_map (fun z => [ mkBlock cobblestone x 1 z ]) (range 10 3))
           (range 10 3).

Definition generateFlatWorld (s : GameState) : Rand GameState :=
  ret (setWorld flatBase s).

(** The blocks [generateVillage] pushes, in order. *)
Definition villageBlocks : list Block := flatBase ++ houses ++ plaza.

Definition generateVillage (s : GameState) : Rand GameState :=
  ret (setCamera (mkCamera 15 5 20 0 0) (setWorld villageBlocks s)).

Module LegacyTerrain.

Definition WORLD_SIZE : Z := 16.

(** One column of the layered terrain of the earlier page: a random
    height, then a random tree.  The product of the draw by 3 is exact
    here; the code floors its double, which is the next integer when the
    exact product is within a rounding error below it (the draw
    0.3333333333333333 gives the height 5 in the code and 4 here). *)
Definition column (x z : Z) : Rand (list Block) :=
  r1 <- Math_random ;;
  let height := (Qfloor (r1 * 3) + 4)%Z in
  let blocks :=
    map (fun y =>
           if (y =? height - 1)%Z then mkBlock grass x y z
           else if (y >? height - 4)%Z then mkBlock dirt x y z
           else mkBlock stone x y z)
        (range 0 height) in
  r2 <- Math_random ;;
  if negb (Qle_bool r2 (85 # 100)) && (height >=? 4)%Z
  then ret (blocks ++ map (fun t => mkBlock wood x (height + t) z) (range 0 4))
  else ret blocks.

Definition generateWorld (s : GameState) : Rand GameState :=
  blocks <- forRand (range 0 WORLD_SIZE) (fun x =>
              forRand (range 0 WORLD_SIZE) (fun z => column x z)) ;;
  ret (setWorld blocks s).

End LegacyTerrain.

(** ** The page as a state machine *)

Inductive Event : Type :=
  | Click (button : Z)                       (* onClick on the canvas *)
  | ContextMenu                              (* onContextMenu on the canvas *)
  | MouseMove (movementX movementY : R)      (* mousemove *)
  | Tick (keysPressed : list string)         (* the 16 ms motion interval *)
  | Craft (recipe : Recipe)                  (* onCraft of the overlay *)
  | SelectBlock (t : BlockType)              (* onSelectBlock / digit keys *)
  | PointerLockChange (locked : bool)        (* pointerlockchange *)
  | ShowInventory (b : bool)
  | ShowChat (b : bool).

Definition step (e : Event) (s : GameState) : GameState * list Effect :=
  match e with
  | Click button => handleCanvasClick button s
  | ContextMenu => handleContextMenu s
  | MouseMove mx my => (handleMouseMove mx my s, [])
  | Tick keys => (moveInterval keys s, [])
  | Craft recipe => handleCraft recipe s
  | SelectBlock t => (setSelectedBlock t s, [])
  | PointerLockChange b => (setPointerLocked b s, [])
  | ShowInventory b => (setShowInventory b s, [])
  | ShowChat b => (setShowChat b s, [])
  end.

Fixpoint run (es : list Event) (s : GameState) : GameState :=
  match es with
  | [] => s
  | e :: es' => run es' (fst (step e s))
  end.

(** ** Measures used by the invariants *)

(** [sum(inventory counts)] *)
Definition totalCount (inv : list InventoryItem) : Z :=
  fold_right (fun i acc => (count i + acc)%Z) 0%Z inv.

(** A type is trackable when the inventory has a slot for it. *)
Definition trackable (inv : list InventoryItem) (t : BlockType) : bool :=
  existsb (fun i => BlockType_eqb (item_type i) t) inv.

(** [count(blocks of trackable types in world)] *)
Definition trackedBlocks (inv : list InventoryItem) (w : list Block) : Z :=
  Z.of_nat (List.length (filter (fun b => trackable inv (block_type b)) w)).

Definition conserved (s : GameState) : Z :=
  (totalCount (inventory s) + trackedBlocks (inventory s) (world s))%Z.

(** The count held for a type: that of its first slot, if it has one. *)
Definition countOf (inv : list InventoryItem) (t : BlockType) : option Z :=
  option_map count (findItem t inv).

Definition inBounds (c : Camera) : Prop :=
  0 <= cam_x c <= IZR (WORLD_SIZE - 1) /\
  0 <= cam_z c <= IZR (WORLD_SIZE - 1) /\
  2 <= cam_y c <= 20.

Definition pitchInBounds (c : Camera) : Prop :=
  - PI / 2 <= pitch c <= PI / 2.

(** The distances at which the loop of [handleContextMenu] samples the
    look vector: those its guard lets through, in order. *)
Fixpoint samples (fuel : nat) (dist : R) : list R :=
  match fuel with
  | O => []
  | S fuel' =>
      if Rle_dec dist 5 then dist :: samples fuel' (dist + / 2) else []
  end.

(** No block of the world sits in the cell sampled at distance [d]. *)
Definition emptyAt (s : GameState) (d : R) : Prop :=
  let '(cx, cy, cz) := targetCell (camera s) d in
  JS.some (atCell cx cy cz) (world s) = false.

(** [i] is the index of the first block of [w] in the cell, [b] that block. *)
Definition firstAt (w : list Block) (cell : Z * Z * Z) (i : nat) (b : Block) : Prop :=
  let '(cx, cy, cz) := cell in
  nth_error w i = Some b /\ atCell cx cy cz b = true /\
  forall j b', (j < i)%nat -> nth_error w j = Some b' -> atCell cx cy cz b' = false.

(** What a recipe asks of a type: the counts of its ingredients of that
    type, added up. *)
Definition required (t : BlockType) (ings : list Ingredient) : Z :=
  fold_right (fun ing acc =>
                if BlockType_eqb (ing_type ing) t then (ing_count ing + acc)%Z else acc)
             0%Z ings.

(** What a recipe yields of a type. *)
Definition yielded (t : BlockType) (recipe : Recipe) : Z :=
  if BlockType_eqb (result recipe) t then resultCount recipe else 0%Z.

Definition nonNegative (inv : list InventoryItem) : Prop :=
  Forall (fun i => (0 <= count i)%Z) inv.

(** The state after the swing animation is (re)started. *)
Definition swung (s : GameState) : GameState :=
  setHandAnimation 0 (setIsSwinging true s).

(** The state after block [b], found at index [i], has been removed. *)
Definition removed (s : GameState) (i : nat) (b : Block) : GameState :=
  setHandAnimation 0 (setIsSwinging true
    (setInventory (adjustCount (block_type b) 1 (inventory s))
       (setWorld (JS.filterIndexNot i (world s)) s))).

(** The distances of the remove march, written out. *)
Definition reach : list R := [1; 3 / 2; 2; 5 / 2; 3; 7 / 2; 4; 9 / 2; 5].

(** The inventory holds one slot per type. *)
Definition distinctSlots (inv : list InventoryItem) : Prop :=
  NoDup (map item_type inv).

(** A state of play with the pointer captured: the given world and
    inventory, grass selected, the camera at its initial place. *)
Definition playing (w : list Block) (inv : list InventoryItem) : GameState :=
  mkState w inv grass initialCamera 0 false true false false.

(** The same for the earlier page, whose camera starts at (8, 5, 8) and
    which has no pointer capture. *)
Definition legacyPlaying (w : list Block) (inv : list InventoryItem) : GameState :=
  mkState w inv grass (mkCamera 8 5 8 0 0) 0 false false false false.

(** Two random sources: one that always draws 0, one that always draws 0.9. *)
Definition zeros : RandomSource := mkRandom (fun _ => 0%Q) 0.

Definition nines : RandomSource := mkRandom (fun _ => (9 # 10)%Q) 0.

(** A recipe the check of [canCraft] is sound for: no type is asked for
    twice and the result count is not negative. *)
Definition wellFormed (recipe : Recipe) : Prop :=
  NoDup (map ing_type (ingredients recipe)) /\ (0 <= resultCount recipe)%Z.

(** A state whose camera is far outside the world and looks past the
    vertical, with the pointer captured and no overlay open. *)
Definition astray : GameState :=
  mkState [] initialInventory grass (mkCamera 1000 (-50) (-7) 3 0)
          0 false true false false.

(** In the village, two cells in front of the north wall of the fourth
    house, looking at it, with the pointer captured. *)
Definition atTheWall (inv : list InventoryItem) : GameState :=
  mkState villageBlocks inv grass (mkCamera 15 3 12 0 0) 0 false true false false.

(** ** Further measures and handlers *)

(** The lattice cell a block sits in. *)
Definition cellOf (b : Block) : Z * Z * Z := (block_x b, block_y b, block_z b).

(** No two blocks of the world share a cell. *)
Definition uniqueCells (w : list Block) : Prop := NoDup (map cellOf w).

(** The callback of the 16 ms swing interval: past PI the swing ends and
    the hand returns to rest, otherwise the phase advances by 0.3. *)
Definition animate (s : GameState) : GameState :=
  if Rleb PI (handAnimation s)
  then setHandAnimation 0 (setIsSwinging false s)
  else setHandAnimation (handAnimation s + 3 / 10) s.

(** The swing interval exists only while [isSwinging] holds. *)
Definition swingInterval (s : GameState) : GameState :=
  if isSwinging s then animate s else s.

(** A test for distinct cells, to settle generated worlds by computation. *)
Definition cellEqb (a b : Z * Z * Z) : bool :=
  let '(ax, ay, az) := a in
  let '(bx, by_, bz) := b in
  (ax =? bx)%Z && (ay =? by_)%Z && (az =? bz)%Z.

Fixpoint distinctb (l : list (Z * Z * Z)) : bool :=
  match l with
  | [] => true
  | c :: l' => negb (existsb (cellEqb c) l') && distinctb l'
  end.

(** A random source all of whose draws lie in [0, 1), as [Math.random]
    promises. *)
Definition fair (rs : RandomSource) : Prop :=
  forall n, (0 <= draws rs n)%Q /\ (draws rs n < 1)%Q.

(** ** Modes, hunger and health *)

Inductive GameMode : Set :=
  menu | creative | survival | hardcore | adventure | pvp | servers.

Inductive ServerName : Set := funtime | hypixel | mineplex.

(** The part of the React state the mode and survival logic reads and sets. *)
Record Vitals : Type := mkVitals {
  gameMode : GameMode;
  selectedServer : option ServerName;
  health : R;
  hunger : R
}.

Inductive VitalsToast : Set :=
  | ModeStarted (mode : GameMode)       (* success: mode started, with its label *)
  | Connecting (server : ServerName)    (* success: connecting to the server *)
  | GameOver.                           (* error: hardcore forgives nothing *)

Definition Reqb (a b : R) : bool := if Req_dec_T a b then true else false.

(** [startGame] *)
Definition startGame (mode : GameMode) (v : Vitals) : Vitals * list VitalsToast :=
  (mkVitals mode (selectedServer v) 100 100, [ModeStarted mode]).

(** [joinServer] *)
Definition joinServer (server : ServerName) (v : Vitals) : Vitals * list VitalsToast :=
  (mkVitals creative (Some server) (health v) (hunger v), [Connecting server]).

(** The updater of the 3000 ms hunger interval, with the health updater
    it calls when the new hunger is 0. *)
Definition hungerUpdate (prevHunger prevHealth : R) : R * R :=
  let newHunger := JS.Math_max 0 (prevHunger - 1 / 2) in
  if Reqb newHunger 0
  then (newHunger, JS.Math_max 0 (prevHealth - 1))
  else (newHunger, prevHealth).

(** The interval exists in the survival, hardcore and adventure modes. *)
Definition hungerInterval (v : Vitals) : Vitals :=
  match gameMode v with
  | survival | hardcore | adventure =>
      let '(newHunger, newHealth) := hungerUpdate (hunger v) (health v) in
      mkVitals (gameMode v) (selectedServer v) newHealth newHunger
  | _ => v
  end.

(** The effect on [health] and [gameMode]: hardcore ends at health 0. *)
Definition deathEffect (v : Vitals) : Vitals * list VitalsToast :=
  if Reqb (health v) 0 &&
     match gameMode v with hardcore => true | _ => false end
  then (mkVitals menu (selectedServer v) (health v) (hunger v), [GameOver])
  else (v, []).

(** One period of the hunger interval followed by the effect it triggers. *)
Definition hungerTick (v : Vitals) : Vitals := fst (deathEffect (hungerInterval v)).

(** ** Companions *)

Record Bot : Type := mkBot {
  bot_id : string;
  bot_name : string;
  bot_x : R;
  bot_y : R;
  bot_z : R;
  targetX : R;
  targetZ : R;
  bot_color : string
}.

(** The function mapped over [prevBots] by the 50 ms companion interval. *)
Definition botUpdate (bot : Bot) : Rand Bot :=
  let dx := targetX bot - bot_x bot in
  let dz := targetZ bot - bot_z bot in
  let distance := sqrt (dx * dx + dz * dz) in
  if Rltb distance (1 / 2) then
    r1 <- Math_random ;;
    r2 <- Math_random ;;
    ret (mkBot (bot_id bot) (bot_name bot) (bot_x bot) (bot_y bot) (bot_z bot)
               (Q2R r1 * (IZR WORLD_SIZE - 5) + 25 / 10)
               (Q2R r2 * (IZR WORLD_SIZE - 5) + 25 / 10)
               (bot_color bot))
  else
    let speed := 5 / 100 in
    ret (mkBot (bot_id bot) (bot_name bot)
               (bot_x bot + (dx / distance) * speed) (bot_y bot)
               (bot_z bot + (dz / distance) * speed)
               (targetX bot) (targetZ bot) (bot_color bot)).

(** [prevBots.map(...)], the draws being taken bot by bot. *)
Fixpoint botMoveInterval (prevBots : list Bot) : Rand (list Bot) :=
  match prevBots with
  | [] => ret []
  | bot :: rest =>
      bot' <- botUpdate bot ;;
      rest' <- botMoveInterval rest ;;
      ret (bot' :: rest')
  end.

(** The four companions [initializeBots] puts on the server. *)
Definition botList : list Bot :=
  [ mkBot "1" "Steve123" 10 2 10 12 8 "#3B82F6";
    mkBot "2" "Alex_Pro" 12 2 8 18 15 "#EF4444";
    mkBot "3" "Creeper99" 18 2 15 8 12 "#10B981";
    mkBot "4" "Diamond_Miner" 8 2 12 15 10 "#8B5CF6" ].

(** Position and target lie in the square the random targets are drawn
    from. *)
Definition inSquare (bot : Bot) : Prop :=
  25 / 10 <= bot_x bot <= 275 / 10 /\ 25 / 10 <= bot_z bot <= 275 / 10 /\
  25 / 10 <= targetX bot <= 275 / 10 /\ 25 / 10 <= targetZ bot <= 275 / 10.

(** The distance of a companion to its target. *)
Definition toTarget (bot : Bot) : R :=
  sqrt ((targetX bot - bot_x bot) * (targetX bot - bot_x bot) +
        (targetZ bot - bot_z bot) * (targetZ bot - bot_z bot)).

(** [n] periods of the companion interval, one after the other. *)
Fixpoint botTicks (n : nat) (prevBots : list Bot) : Rand (list Bot) :=
  match n with
  | O => ret prevBots
  | S n' => nextBots <- botMoveInterval prevBots ;; botTicks n' nextBots
  end.

(** ** Chat *)

(** A JavaScript string as its UTF-16 code units. *)
Definition JSString : Set := list N.

Definition codeUnits (s : string) : JSString :=
  map N_of_ascii (list_ascii_of_string s).

(** The white space and line terminators [String.prototype.trim] strips:
    TAB, LF, VT, FF, CR, SP, NBSP, U+1680, U+2000 to U+200A, LS, PS,
    U+202F, U+205F, U+3000 and the byte order mark. *)
Definition isWhiteSpace (c : N) : bool :=
  (existsb (N.eqb c)
     [9; 10; 11; 12; 13; 32; 160; 5760; 8232; 8233; 8239; 8287; 12288; 65279]
   || ((8192 <=? c) && (c <=? 8202)))%N.

Fixpoint trimStart (s : JSString) : JSString :=
  match s with
  | [] => []
  | c :: rest => if isWhiteSpace c then trimStart rest else s
  end.

(** [String.prototype.trim] *)
Definition trim (s : JSString) : JSString := rev (trimStart (rev (trimStart s))).

(** A string in a condition: the empty string is the only false one. *)
Definition truthy (s : JSString) : bool :=
  match s with [] => false | _ => true end.

(** [array.slice(-n)]: the last [n] elements, all of them if there are fewer. *)
Definition sliceLast {A : Type} (n : nat) (l : list A) : list A :=
  skipn (List.length l - n) l.

(** [array[i]] for a number [i] that holds an integer; [None] is [undefined]. *)
Definition at_ {A : Type} (l : list A) (i : Z) : option A :=
  if (i <? 0)%Z then None else nth_error l (Z.to_nat i).

(** [Math.floor(Math.random() * n)] for the draw [r]. *)
Definition randomIndex (r : Q) (n : nat) : Z :=
  Qfloor (r * inject_Z (Z.of_nat n)).

(** The [id] is the concatenation of a clock reading and a draw; the pair
    is kept. *)
Record ChatMessage : Set := mkMessage {
  msg_id : Z * Q;
  author : JSString;
  text : JSString;
  timestamp : Z
}.

(** The author name of the player's own messages. *)
Definition You : JSString := [1042; 1099]%N.

Definition BOT_MESSAGES : list JSString :=
  [ [1055; 1088; 1080; 1074; 1077; 1090; 33; 32; 1050; 1072; 1082; 32; 1076;
     1077; 1083; 1072; 63];
    [1050; 1088; 1091; 1090; 1072; 1103; 32; 1087; 1086; 1089; 1090; 1088;
     1086; 1081; 1082; 1072; 33];
    [1050; 1090; 1086; 45; 1085; 1080; 1073; 1091; 1076; 1100; 32; 1093;
     1086; 1095; 1077; 1090; 32; 1087; 1086; 1080; 1075; 1088; 1072; 1090;
     1100; 63];
    [1071; 32; 1085; 1072; 1096; 1077; 1083; 32; 1072; 1083; 1084; 1072;
     1079; 1099; 33];
    [1044; 1072; 1074; 1072; 1081; 1090; 1077; 32; 1087; 1086; 1089; 1090;
     1088; 1086; 1080; 1084; 32; 1079; 1072; 1084; 1086; 1082];
    [1050; 1090; 1086; 32; 1089; 1086; 32; 1084; 1085; 1086; 1081; 32; 1085;
     1072; 32; 80; 118; 80; 63];
    [1057; 1084; 1086; 1090; 1088; 1080; 1090; 1077; 32; 1095; 1090; 1086;
     32; 1103; 32; 1087; 1086; 1089; 1090; 1088; 1086; 1080; 1083; 33];
    [1053; 1091; 1078; 1085; 1072; 32; 1087; 1086; 1084; 1086; 1097; 1100;
     32; 1089; 32; 1092; 1077; 1088; 1084; 1086; 1081];
    [1042; 1072; 1091; 44; 32; 1101; 1090; 1086; 32; 1082; 1088; 1091; 1090;
     1086; 33];
    [1055; 1086; 1081; 1076; 1077; 1084; 32; 1074; 32; 1096; 1072; 1093;
     1090; 1091; 63] ]%N.

(** The replies a companion may give to a message of the player. *)
Definition responses : list JSString :=
  [ [1057; 1086; 1075; 1083; 1072; 1089; 1077; 1085; 33];
    [1050; 1088; 1091; 1090; 1086; 33];
    [1044; 1072; 44; 32; 1090; 1086; 1095; 1085; 1086];
    [1048; 1085; 1090; 1077; 1088; 1077; 1089; 1085; 1086];
    [1061; 1086; 1088; 1086; 1096; 1072; 1103; 32; 1080; 1076; 1077; 1103;
     33];
    [55357; 56397] ]%N.

(** [addChatMessage]; [clock] holds the two readings of [Date.now()], the
    first for the id and the second for the time stamp. *)
Definition addChatMessage (clock : Z * Z) (who what : JSString)
    (prev : list ChatMessage) : Rand (list ChatMessage) :=
  r <- Math_random ;;
  ret (sliceLast 20 prev ++ [mkMessage (fst clock, r) who what (snd clock)]).

(** A line said by a random companion: [lines] is [responses] or
    [BOT_MESSAGES].  [None] stands for a run that does not add a
    well-formed message: [randomBot] undefined (reading its [name] throws)
    or a line that is undefined. *)
Definition speak (clock : Z * Z) (lines : list JSString) (companions : list Bot)
    (prev : list ChatMessage) : Rand (option (list ChatMessage)) :=
  r1 <- Math_random ;;
  r2 <- Math_random ;;
  match at_ companions (randomIndex r1 (List.length companions)),
        at_ lines (randomIndex r2 (List.length lines)) with
  | Some randomBot, Some line =>
      next <- addChatMessage clock (codeUnits (bot_name randomBot)) line prev ;;
      ret (Some next)
  | _, _ => ret None
  end.

(** The callback [sendChatMessage] schedules 1500 ms after a message of
    the player; [companions] is the list its closure holds. *)
Definition reply (clock : Z * Z) (companions : list Bot)
    (prev : list ChatMessage) : Rand (option (list ChatMessage)) :=
  r <- Math_random ;;
  if negb (Qle_bool r (1 # 2)) && (0 <? List.length companions)%nat
  then speak clock responses companions prev
  else ret (Some prev).

(** The callback of the 8000 ms interval, which exists when there are
    companions. *)
Definition botChatInterval (clock : Z * Z) (companions : list Bot)
    (prev : list ChatMessage) : Rand (option (list ChatMessage)) :=
  if (0 <? List.length companions)%nat then
    r <- Math_random ;;
    if negb (Qle_bool r (7 # 10))
    then speak clock BOT_MESSAGES companions prev
    else ret (Some prev)
  else ret (Some prev).

(** ** Keyboard *)

(** [toLowerCase] on key names, which are ASCII. *)
Definition lowerAscii (c : ascii) : ascii :=
  let n := nat_of_ascii c in
  if ((65 <=? n) && (n <=? 90))%nat then ascii_of_nat (n + 32) else c.

Fixpoint toLowerCase (s : string) : string :=
  match s with
  | EmptyString => EmptyString
  | String c rest => String (lowerAscii c) (toLowerCase rest)
  end.

Definition digitOf (c : ascii) : option Z :=
  let n := Z.of_nat (nat_of_ascii c) in
  if ((48 <=? n) && (n <=? 57))%Z then Some (n - 48)%Z else None.

Fixpoint leadingDigits (acc : Z) (s : string) : Z :=
  match s with
  | EmptyString => acc
  | String c rest =>
      match digitOf c with
      | Some d => leadingDigits (10 * acc + d) rest
      | None => acc
      end
  end.

(** [parseInt] on a string that starts with a decimal digit (the value of
    its leading digits); [None] otherwise.  White space, signs and the hex
    prefix are left out: the one call is guarded by a comparison that only
    lets strings starting with 1, 2, 3 or 4 through. *)
Definition parseInt (s : string) : option Z :=
  match s with
  | EmptyString => None
  | String c _ =>
      match digitOf c with
      | Some _ => Some (leadingDigits 0 s)
      | None => None
      end
  end.

(** [Set.prototype.add] and [delete] on the set of held keys. *)
Definition addKey (k : string) (keys : list string) : list string :=
  if has keys k then keys else keys ++ [k].

Definition deleteKey (k : string) (keys : list string) : list string :=
  filter (fun k' => negb (String.eqb k k')) keys.

(** The page in play: the state the handlers of the canvas work on, the
    mode and vitals, the ref with the held keys, the chat, the companions,
    and what the installed key listener sees.  The key listener is created
    by an effect whose dependencies are [gameMode], [pointerLocked],
    [inventory], [showChat] and [showInventory]; its [sendChatMessage]
    reads the [chatInput] and the [bots] of the render the effect last ran
    in - [heardInput] and [heardBots]. *)
Record Page : Type := mkPage {
  game : GameState;
  vitals : Vitals;
  keysPressed : list string;
  chatInput : JSString;
  chatMessages : list ChatMessage;
  bots : list Bot;
  heardInput : JSString;
  heardBots : list Bot
}.

Definition setGame (g : GameState) (p : Page) : Page :=
  mkPage g (vitals p) (keysPressed p) (chatInput p) (chatMessages p) (bots p)
         (heardInput p) (heardBots p).

Definition setKeysPressed (keys : list string) (p : Page) : Page :=
  mkPage (game p) (vitals p) keys (chatInput p) (chatMessages p) (bots p)
         (heardInput p) (heardBots p).

Definition setChatInput (input : JSString) (p : Page) : Page :=
  mkPage (game p) (vitals p) (keysPressed p) input (chatMessages p) (bots p)
         (heardInput p) (heardBots p).

Definition setChatMessages (messages : list ChatMessage) (p : Page) : Page :=
  mkPage (game p) (vitals p) (keysPressed p) (chatInput p) messages (bots p)
         (heardInput p) (heardBots p).

Inductive PageEffect : Type :=
  | Prevent                          (* e.preventDefault() *)
  | ExitPointerLock                  (* document.exitPointerLock() *)
  | FocusChatInput                   (* after 100 ms *)
  | NotifySelected (t : BlockType)   (* success: selected, with the label *)
  | ReplyLater (companions : list Bot).  (* [reply] after 1500 ms *)

(** [sendChatMessage] of a render in which [chatInput] is [input] and
    [bots] is [companions]. *)
Definition sendChatMessage (clock : Z * Z) (input : JSString)
    (companions : list Bot) (p : Page) : Rand (Page * list PageEffect) :=
  if truthy (trim input) then
    messages <- addChatMessage clock You input (chatMessages p) ;;
    ret (setGame (setShowChat false (game p))
           (setChatInput [] (setChatMessages messages p)),
         [ReplyLater companions])
  else ret (p, []).

(** [handleKeyDown] *)
Definition handleKeyDown (clock : Z * Z) (key : string) (p : Page)
    : Rand (Page * list PageEffect) :=
  let chatting := showChat (game p) in
  if String.eqb (toLowerCase key) "t" && negb chatting then
    ret (setGame (setShowChat true (game p)) p,
         [Prevent; ExitPointerLock; FocusChatInput])
  else if chatting && String.eqb key "Enter" then
    sent <- sendChatMessage clock (heardInput p) (heardBots p) p ;;
    ret (fst sent, Prevent :: snd sent)
  else if chatting && String.eqb key "Escape" then
    ret (setChatInput [] (setGame (setShowChat false (game p)) p), [Prevent])
  else if chatting then ret (p, [])
  else
    let p1 := setKeysPressed (addKey (toLowerCase key) (keysPressed p)) p in
    let '(p2, e2) :=
      if String.eqb (toLowerCase key) "e" then
        (setGame (setShowInventory (negb (showInventory (game p1))) (game p1)) p1,
         Prevent :: (if negb (showInventory (game p)) then [ExitPointerLock] else []))
      else (p1, []) in
    let '(p3, e3) :=
      if String.leb "1" key && String.leb key "4" then
        match parseInt key with
        | Some n =>
            match at_ (inventory (game p)) (n - 1) with
            | Some item =>
                (setGame (setSelectedBlock (item_type item) (game p2)) p2,
                 [NotifySelected (item_type item)])
            | None => (p2, [])
            end
        | None => (p2, [])
        end
      else (p2, []) in
    let '(p4, e4) :=
      if String.eqb (toLowerCase key) "escape" then
        if showInventory (game p)
        then (setGame (setShowInventory false (game p3)) p3, [])
        else (p3, [ExitPointerLock])
      else (p3, []) in
    ret (p4, e2 ++ e3 ++ e4).

(** [handleKeyUp] *)
Definition handleKeyUp (key : string) (p : Page) : Page :=
  setKeysPressed (deleteKey (toLowerCase key) (keysPressed p)) p.

(** The game view is rendered in every mode but the two menus; the key,
    pointer lock and mouse listeners and the motion interval exist while,
    in addition, the inventory overlay is closed. *)
Definition inGame (p : Page) : bool :=
  match gameMode (vitals p) with menu | servers => false | _ => true end.

Definition listening (p : Page) : bool :=
  inGame p && negb (showInventory (game p)).

Definition GameMode_eqb (a b : GameMode) : bool :=
  match a, b with
  | menu, menu | creative, creative | survival, survival
  | hardcore, hardcore | adventure, adventure | pvp, pvp
  | servers, servers => true
  | _, _ => false
  end.

Definition InventoryItem_eqb (a b : InventoryItem) : bool :=
  BlockType_eqb (item_type a) (item_type b) && (count a =? count b)%Z.

Fixpoint inventory_eqb (a b : list InventoryItem) : bool :=
  match a, b with
  | [], [] => true
  | i :: a', j :: b' => InventoryItem_eqb i j && inventory_eqb a' b'
  | _, _ => false
  end.

(** Whether the dependencies of the listener effect are the same in two
    renders.  (The events below never replace the inventory, so comparing
    its contents is comparing its identity.) *)
Definition sameDeps (p q : Page) : bool :=
  GameMode_eqb (gameMode (vitals p)) (gameMode (vitals q)) &&
  Bool.eqb (pointerLocked (game p)) (pointerLocked (game q)) &&
  inventory_eqb (inventory (game p)) (inventory (game q)) &&
  Bool.eqb (showChat (game p)) (showChat (game q)) &&
  Bool.eqb (showInventory (game p)) (showInventory (game q)).

(** The render after an event: when a dependency has changed the effect
    runs again and the new listener sees the current input and companions. *)
Definition commit (before after : Page) : Page :=
  if sameDeps before after then after
  else mkPage (game after) (vitals after) (keysPressed after) (chatInput after)
              (chatMessages after) (bots after) (chatInput after) (bots after).

Inductive PageEvent : Type :=
  | KeyDown (key : string) (clock : Z * Z)   (* keydown on the window *)
  | KeyUp (key : string)                     (* keyup on the window *)
  | ChatChange (input : JSString)            (* onChange of the chat input *)
  | ClickSend (clock : Z * Z)                (* onClick of the send button *)
  | CloseInventory                           (* onClose of the overlay *)
  | LockChange (locked : bool)               (* pointerlockchange *)
  | Motion.                                  (* the 16 ms motion interval *)

Definition handle (e : PageEvent) (p : Page) : Rand (Page * list PageEffect) :=
  match e with
  | KeyDown key clock =>
      if listening p then handleKeyDown clock key p else ret (p, [])
  | KeyUp key =>
      if listening p then ret (handleKeyUp key p, []) else ret (p, [])
  | ChatChange input =>
      if inGame p && showChat (game p)
      then ret (setChatInput input p, []) else ret (p, [])
  | ClickSend clock =>
      if inGame p && showChat (game p)
      then sendChatMessage clock (chatInput p) (bots p) p else ret (p, [])
  | CloseInventory =>
      if inGame p && showInventory (game p)
      then ret (setGame (setShowInventory false (game p)) p, []) else ret (p, [])
  | LockChange locked =>
      if listening p
      then ret (setGame (setPointerLocked locked (game p)) p, []) else ret (p, [])
  | Motion =>
      if listening p
      then ret (setGame (moveInterval (keysPressed p) (game p)) p, [])
      else ret (p, [])
  end.

Definition pageStep (e : PageEvent) (p : Page) : Rand (Page * list PageEffect) :=
  handled <- handle e p ;;
  ret (commit p (fst handled), snd handled).

Fixpoint pageRun (es : list PageEvent) (p : Page) : Rand Page :=
  match es with
  | [] => ret p
  | e :: rest => next <- pageStep e p ;; pageRun rest (fst next)
  end.

(** The page right after a game has been started from the menu. *)
Definition startPage (mode : GameMode) (w : list Block) : Page :=
  mkPage (mkState w initialInventory grass initialCamera 0 false false false false)
         (mkVitals mode None 100 100) [] [] [] [] [] [].

(** What a player does while writing a message: changing the input,
    releasing keys, pressing keys other than Escape; the motion interval
    keeps firing. *)
Definition typing (e : PageEvent) : bool :=
  match e with
  | ChatChange _ | KeyUp _ | Motion => true
  | KeyDown key _ => negb (String.eqb key "Escape")
  | _ => false
  end.

(** The input after a series of events, from the input [before] them. *)
Definition typed (es : list PageEvent) (before : JSString) : JSString :=
  fold_left (fun input e => match e with ChatChange i => i | _ => input end)
            es before.

(** The events the listeners on the window and the document and the
    motion interval deliver. *)
Definition fromWindow (e : PageEvent) : bool :=
  match e with
  | KeyDown _ _ | KeyUp _ | LockChange _ | Motion => true
  | _ => false
  end.

(** ** The side-view page *)

Module Flat.

Definition BLOCK_SIZE : Z := 32.
Definition WORLD_WIDTH : Z := 20.
Definition WORLD_HEIGHT : Z := 15.

(** The canvas is [WORLD_WIDTH * BLOCK_SIZE] by [WORLD_HEIGHT * BLOCK_SIZE]. *)
Definition canvas_width : Z := WORLD_WIDTH * BLOCK_SIZE.
Definition canvas_height : Z := WORLD_HEIGHT * BLOCK_SIZE.

(** The React state the canvas handler of the side-view page reads and sets. *)
Record State : Type := mkState {
  world : list Block;
  inventory : list InventoryItem;
  selectedBlock : BlockType
}.

(** One column of [generateWorld]: a random height, then a random tree. *)
Definition column (x : Z) : Rand (list Block) :=
  r1 <- Math_random ;;
  let height := (Qfloor (r1 * 3) + 8)%Z in
  let blocks :=
    map (fun y =>
           if (y =? height - 1)%Z then mkBlock grass x y 0
           else if (y >? height - 4)%Z then mkBlock dirt x y 0
           else mkBlock stone x y 0)
        (range 0 height) in
  r2 <- Math_random ;;
  if negb (Qle_bool r2 (8 # 10))
  then ret (blocks ++ map (fun t => mkBlock wood x (height + t) 0) (range 0 3))
  else ret blocks.

Definition generateWorld (s : State) : Rand State :=
  blocks <- forRand (range 0 WORLD_WIDTH) column ;;
  ret (mkState blocks (inventory s) (selectedBlock s)).

(** The top left corner of the square [drawWorld] fills for a block. *)
Definition screenX (b : Block) : Z := (block_x b * BLOCK_SIZE)%Z.
Definition screenY (b : Block) : Z :=
  (canvas_height - (block_y b + 1) * BLOCK_SIZE)%Z.

(** [drawWorld]: the squares of side [BLOCK_SIZE] filled and outlined, in
    the order of the world; the colours are left out. *)
Definition drawWorld (w : list Block) : list (Z * Z) :=
  map (fun b => (screenX b, screenY b))
      (filter (fun b => negb (BlockType_eqb (block_type b) air)) w).

(** The cell a click addresses; [px] and [py] are [e.clientX - rect.left]
    and [e.clientY - rect.top]. *)
Definition clickCell (px py : R) : Z * Z :=
  (JS.Math_floor (px / IZR BLOCK_SIZE),
   JS.Math_floor ((IZR canvas_height - py) / IZR BLOCK_SIZE)).

(** [b.x === clickX && b.y === clickY] *)
Definition atColumnRow (clickX clickY : Z) (b : Block) : bool :=
  ((block_x b =? clickX) && (block_y b =? clickY))%Z.

(** [handleCanvasClick], with the canvas mounted. *)
Definition handleCanvasClick (button : Z) (px py : R) (s : State)
  : State * list Effect :=
  let '(clickX, clickY) := clickCell px py in
  let existingBlockIndex := JS.findIndex (atColumnRow clickX clickY) (world s) in
  if (button =? 0)%Z then
    match existingBlockIndex with
    | None =>
        if match findItem (selectedBlock s) (inventory s) with
           | Some item => (count item >? 0)%Z
           | None => false
           end
        then
          (mkState (world s ++ [mkBlock (selectedBlock s) clickX clickY 0])
                   (adjustCount (selectedBlock s) (-1) (inventory s))
                   (selectedBlock s),
           [Notify (BlockPlaced (selectedBlock s))])
        else (s, [Notify NotEnoughBlocks])
    | Some _ => (s, [])
    end
  else if (button =? 2)%Z then
    match existingBlockIndex with
    | Some i =>
        match nth_error (world s) i with
        | Some block =>
            (mkState (JS.filterIndexNot i (world s))
                     (adjustCount (block_type block) 1 (inventory s))
                     (selectedBlock s),
             [Notify (BlockRemoved (block_type block))])
        | None => (s, [])      (* not reached: the index comes from findIndex *)
        end
    | None => (s, [])
    end
  else (s, []).

Inductive Event : Type :=
  | Click (button : Z) (px py : R)         (* onClick on the canvas *)
  | ContextMenu (button : Z) (px py : R)   (* onContextMenu on the canvas *)
  | Select (index : nat).                  (* the button of an inventory slot *)

Definition step (e : Event) (s : State) : State * list Effect :=
  match e with
  | Click button px py => handleCanvasClick button px py s
  | ContextMenu button px py =>
      let '(s', es) := handleCanvasClick button px py s in
      (s', PreventDefault :: es)
  | Select index =>
      match nth_error (inventory s) index with
      | Some item => (mkState (world s) (inventory s) (item_type item), [])
      | None => (s, [])
      end
  end.

Fixpoint run (es : list Event) (s : State) : State :=
  match es with
  | [] => s
  | e :: es' => run es' (fst (step e s))
  end.

(** The state the page starts in. *)
Definition initial : State := mkState [] initialInventory4 grass.

(** The canvas carries the class [border-8]: a border of eight pixels on
    each side, inside the rectangle [getBoundingClientRect] returns. *)
Definition BORDER : Z := 8.

(** [e.clientX - rect.left] and [e.clientY - rect.top] for a pointer over
    the point [(u, v)] of the bitmap, the canvas being shown at its own
    size. *)
Definition offsets (u v : R) : R * R := (u + IZR BORDER, v + IZR BORDER).

End Flat.

(** What the blocks of column [x] of the side-view terrain have in common. *)
Definition flatBlock (x : Z) (b : Block) : Prop :=
  block_x b = x /\ block_z b = 0%Z /\ (0 <= block_y b <= 12)%Z /\
  (block_type b = grass \/ block_type b = dirt \/ block_type b = stone \/
   block_type b = wood).

(** The side-view page in play: the cells of the world are unique, every
    block lies in the plane z = 0 and is of a type the inventory has a slot
    for, as is the selected type, and no count is negative. *)
Definition flatInPlay (s : Flat.State) : Prop :=
  uniqueCells (Flat.world s) /\
  Forall (fun b => block_z b = 0%Z /\
                   In (block_type b) (map item_type initialInventory4))
         (Flat.world s) /\
  map item_type (Flat.inventory s) = map item_type initialInventory4 /\
  nonNegative (Flat.inventory s) /\
  In (Flat.selectedBlock s) (map item_type initialInventory4).

(** [sum(inventory counts) + count(blocks in world)] *)
Definition flatConserved (s : Flat.State) : Z :=
  (totalCount (Flat.inventory s) + Z.of_nat (List.length (Flat.world s)))%Z.

(** ** Walking and looking in the earlier pages *)

(** The four-slot predecessor of the pointer-lock page. *)
Module Predecessor.

(** The updater passed to [setCamera] by its 16 ms motion tick. *)
Definition moveCamera (keysPressed : list string) (prev : Camera) : Camera :=
  let newX := cam_x prev in
  let newZ := cam_z prev in
  let newY := cam_y prev in
  let speed := 15 / 100 in
  let forward := (- sin (yaw prev), - cos (yaw prev)) in
  let right := (cos (yaw prev), - sin (yaw prev)) in
  let '(newX, newZ) :=
    if has keysPressed "w" then (newX + fst forward * speed, newZ + snd forward * speed)
    else (newX, newZ) in
  let '(newX, newZ) :=
    if has keysPressed "s" then (newX - fst forward * speed, newZ - snd forward * speed)
    else (newX, newZ) in
  let '(newX, newZ) :=
    if has keysPressed "a" then (newX - fst right * speed, newZ - snd right * speed)
    else (newX, newZ) in
  let '(newX, newZ) :=
    if has keysPressed "d" then (newX + fst right * speed, newZ + snd right * speed)
    else (newX, newZ) in
  let newY := if has keysPressed " " then newY + speed else newY in
  let newY := if has keysPressed "shift" then newY - speed else newY in
  let newX := JS.Math_max 0 (JS.Math_min (IZR (WORLD_SIZE - 1)) newX) in
  let newZ := JS.Math_max 0 (JS.Math_min (IZR (WORLD_SIZE - 1)) newZ) in
  let newY := JS.Math_max 2 (JS.Math_min 20 newY) in
  mkCamera newX newY newZ (pitch prev) (yaw prev).

End Predecessor.

(** The earlier page without pointer lock: keys walk, a drag with the
    left button looks around. *)
Module LegacyCamera.

(** The updater passed to [setCamera] by its 16 ms motion tick. *)
Definition moveCamera (keysPressed : list string) (prev : Camera) : Camera :=
  let newX := cam_x prev in
  let newZ := cam_z prev in
  let newY := cam_y prev in
  let speed := 2 / 10 in
  let forward := (sin (yaw prev), cos (yaw prev)) in
  let right := (cos (yaw prev), - sin (yaw prev)) in
  let '(newX, newZ) :=
    if has keysPressed "w" then (newX + fst forward * speed, newZ + snd forward * speed)
    else (newX, newZ) in
  let '(newX, newZ) :=
    if has keysPressed "s" then (newX - fst forward * speed, newZ - snd forward * speed)
    else (newX, newZ) in
  let '(newX, newZ) :=
    if has keysPressed "a" then (newX - fst right * speed, newZ - snd right * speed)
    else (newX, newZ) in
  let '(newX, newZ) :=
    if has keysPressed "d" then (newX + fst right * speed, newZ + snd right * speed)
    else (newX, newZ) in
  let newY := if has keysPressed " " then newY + speed else newY in
  let newY := if has keysPressed "shift" then newY - speed else newY in
  let newX := JS.Math_max 0 (JS.Math_min (IZR (LegacyTerrain.WORLD_SIZE - 1)) newX) in
  let newZ := JS.Math_max 0 (JS.Math_min (IZR (LegacyTerrain.WORLD_SIZE - 1)) newZ) in
  let newY := JS.Math_max 1 (JS.Math_min 15 newY) in
  mkCamera newX newY newZ (pitch prev) (yaw prev).

(** The forward-axis depth [finalZ] of its projection, which tilts by the
    pitch the other way round. *)
Definition forwardDepth (camera : Camera) (x y z : R) : R :=
  let dx := x - cam_x camera in
  let dy := y - cam_y camera in
  let dz := z - cam_z camera in
  let rotatedZ := dx * sin (yaw camera) + dz * cos (yaw camera) in
  dy * sin (pitch camera) + rotatedZ * cos (pitch camera).

(** The refs [mouseDown] and [lastMousePos], with the camera they steer. *)
Record Look : Type := mkLook {
  mouseDown : bool;
  lastMousePos : R * R;
  view : Camera
}.

(** [handleMouseDown] *)
Definition handleMouseDown (button : Z) (clientX clientY : R) (l : Look) : Look :=
  if (button =? 0)%Z then mkLook true (clientX, clientY) (view l) else l.

(** [handleMouseUp] *)
Definition handleMouseUp (l : Look) : Look :=
  mkLook false (lastMousePos l) (view l).

(** [handleMouseMove] *)
Definition handleMouseMove (clientX clientY : R) (l : Look) : Look :=
  if mouseDown l then
    let deltaX := clientX - fst (lastMousePos l) in
    let deltaY := clientY - snd (lastMousePos l) in
    let prev := view l in
    mkLook (mouseDown l) (clientX, clientY)
           (mkCamera (cam_x prev) (cam_y prev) (cam_z prev)
              (JS.Math_max (- PI / 2)
                 (JS.Math_min (PI / 2) (pitch prev - deltaY * (3 / 1000))))
              (yaw prev + deltaX * (3 / 1000)))
  else l.

(** A drag: the pointer moves through the given points with the button
    held. *)
Fixpoint drag (path : list (R * R)) (l : Look) : Look :=
  match path with
  | [] => l
  | (clientX, clientY) :: rest => drag rest (handleMouseMove clientX clientY l)
  end.

End LegacyCamera.

(** ** Entering and leaving a game *)

Inductive ModeEvent : Set :=
  | StartGame (mode : GameMode)   (* a mode button of the menu *)
  | Multiplayer                   (* the menu's button to the server list *)
  | JoinFunTime                   (* the card of the one server with a handler *)
  | Back.                         (* back from the server list, home from a game *)

Definition setGameMode (mode : GameMode) (v : Vitals) : Vitals :=
  mkVitals mode (selectedServer v) (health v) (hunger v).

(** Each button exists on one screen only: the menu, the server list, or
    the game view. *)
Definition modeStep (e : ModeEvent) (v : Vitals) : Vitals :=
  match e, gameMode v with
  | StartGame mode, menu => fst (startGame mode v)
  | Multiplayer, menu => setGameMode servers v
  | JoinFunTime, servers => fst (joinServer funtime v)
  | Back, menu => v
  | Back, _ => setGameMode menu v
  | _, _ => v
  end.

Fixpoint modeRun (es : list ModeEvent) (v : Vitals) : Vitals :=
  match es with
  | [] => v
  | e :: rest => modeRun rest (modeStep e v)
  end.

Inductive Generator : Set := Village | FlatWorld.

(** The branch the effect on [gameMode] and [selectedServer] takes. *)
Definition generator (v : Vitals) : option Generator :=
  match gameMode v with
  | menu | servers => None
  | _ => Some (match selectedServer v with
               | Some funtime => Village
               | _ => FlatWorld
               end)
  end.

Definition ServerName_eqb (a b : option ServerName) : bool :=
  match a, b with
  | None, None => true
  | Some funtime, Some funtime | Some hypixel, Some hypixel
  | Some mineplex, Some mineplex => true
  | _, _ => false
  end.

Definition setVitals (v : Vitals) (p : Page) : Page :=
  mkPage (game p) v (keysPressed p) (chatInput p) (chatMessages p) (bots p)
         (heardInput p) (heardBots p).

Definition setBots (companions : list Bot) (p : Page) : Page :=
  mkPage (game p) (vitals p) (keysPressed p) (chatInput p) (chatMessages p)
         companions (heardInput p) (heardBots p).

(** The author and the text of the welcome message. *)
Definition Server : JSString := [1057; 1077; 1088; 1074; 1077; 1088]%N.

Definition welcome : JSString :=
  [55356; 57262; 32; 1044; 1086; 1073; 1088; 1086; 32; 1087; 1086; 1078; 1072;
   1083; 1086; 1074; 1072; 1090; 1100; 32; 1085; 1072; 32; 70; 117; 110; 84;
   105; 109; 101; 33]%N.

(** [initializeBots]; the greeting of the first companion, a second later,
    is left out. *)
Definition initializeBots (clock : Z * Z) (p : Page) : Rand Page :=
  messages <- addChatMessage clock Server welcome (chatMessages p) ;;
  ret (setBots botList (setChatMessages messages p)).

(** The effect on [gameMode] and [selectedServer], after a render in which
    one of them differs from [before]. *)
Definition worldEffect (clock : Z * Z) (before : Vitals) (p : Page) : Rand Page :=
  if GameMode_eqb (gameMode before) (gameMode (vitals p)) &&
     ServerName_eqb (selectedServer before) (selectedServer (vitals p))
  then ret p
  else
    match generator (vitals p) with
    | None => ret p
    | Some Village =>
        g <- generateVillage (game p) ;;
        initializeBots clock (setGame g p)
    | Some FlatWorld =>
        g <- generateFlatWorld (game p) ;;
        ret (setGame g p)
    end.

(** A button of the menu, the server list or the game view, with the
    effects the new render runs. *)
Definition modePageStep (clock : Z * Z) (e : ModeEvent) (p : Page) : Rand Page :=
  entered <- worldEffect clock (vitals p) (setVitals (modeStep e (vitals p)) p) ;;
  ret (commit p entered).

Fixpoint modePageRun (clock : Z * Z) (es : list ModeEvent) (p : Page) : Rand Page :=
  match es with
  | [] => ret p
  | e :: rest => next <- modePageStep clock e p ;; modePageRun clock rest next
  end.

(** The modes a game is played in. *)
Definition playable (mode : GameMode) : bool :=
  match mode with menu | servers => false | _ => true end.

(** ** Companions on screen *)

(** What [drawBot] sends to the 2D context: the faces of the head and of
    the body, filled and stroked in black with line width 2, and the name
    label. *)
Inductive BotOp : Type :=
  | BotFace (fillStyle : string) (path : list (R * R))
  | BotName (name : string) (x y : R).

Definition headCorners (bot : Bot) : list (R * R * R) :=
  let headSize := 5 / 10 in
  let bodyHeight := 12 / 10 in
  [ (bot_x bot - headSize / 2, bot_y bot + bodyHeight, bot_z bot - headSize / 2);
    (bot_x bot + headSize / 2, bot_y bot + bodyHeight, bot_z bot - headSize / 2);
    (bot_x bot + headSize / 2, bot_y bot + bodyHeight + headSize, bot_z bot - headSize / 2);
    (bot_x bot - headSize / 2, bot_y bot + bodyHeight + headSize, bot_z bot - headSize / 2);
    (bot_x bot - headSize / 2, bot_y bot + bodyHeight, bot_z bot + headSize / 2);
    (bot_x bot + headSize / 2, bot_y bot + bodyHeight, bot_z bot + headSize / 2);
    (bot_x bot + headSize / 2, bot_y bot + bodyHeight + headSize, bot_z bot + headSize / 2);
    (bot_x bot - headSize / 2, bot_y bot + bodyHeight + headSize, bot_z bot + headSize / 2) ].

Definition bodyCorners (bot : Bot) : list (R * R * R) :=
  let bodyWidth := 5 / 10 in
  let bodyHeight := 12 / 10 in
  [ (bot_x bot - bodyWidth / 2, bot_y bot, bot_z bot - bodyWidth / 3);
    (bot_x bot + bodyWidth / 2, bot_y bot, bot_z bot - bodyWidth / 3);
    (bot_x bot + bodyWidth / 2, bot_y bot + bodyHeight, bot_z bot - bodyWidth / 3);
    (bot_x bot - bodyWidth / 2, bot_y bot + bodyHeight, bot_z bot - bodyWidth / 3);
    (bot_x bot - bodyWidth / 2, bot_y bot, bot_z bot + bodyWidth / 3);
    (bot_x bot + bodyWidth / 2, bot_y bot, bot_z bot + bodyWidth / 3);
    (bot_x bot + bodyWidth / 2, bot_y bot + bodyHeight, bot_z bot + bodyWidth / 3);
    (bot_x bot - bodyWidth / 2, bot_y bot + bodyHeight, bot_z bot + bodyWidth / 3) ].

(** The point the name is written at. *)
Definition namePoint (bot : Bot) : R * R * R :=
  (bot_x bot, bot_y bot + 12 / 10 + 5 / 10 + 3 / 10, bot_z bot).

Definition drawBot (canvas : option Canvas) (camera : Camera) (bot : Bot)
  : list BotOp :=
  let project := fun '(cx, cy, cz) => project3DTo2D canvas camera cx cy cz in
  let projectedHead := map project (headCorners bot) in
  let projectedBody := map project (bodyCorners bot) in
  if JS.some (fun p => Rltb (distance p) 0) projectedHead
     || JS.some (fun p => Rltb (distance p) 0) projectedBody
  then []
  else
    let pathOf := fun (projected : list ProjectedPoint) (face : list nat) =>
      map (fun i => let p := nth i projected (mkPoint 0 0 0) in (pt_x p, pt_y p))
          face in
    map (fun face => BotFace "#D2B48C" (pathOf projectedHead face)) faces
    ++ map (fun face => BotFace (bot_color bot) (pathOf projectedBody face)) faces
    ++ (let namePos := project (namePoint bot) in
        if Rltb 0 (distance namePos)
        then [BotName (bot_name bot) (pt_x namePos) (pt_y namePos)]
        else []).

(** The companion pass of [drawWorld], which follows the block pass. *)
Definition drawBots (canvas : option Canvas) (camera : Camera)
    (companions : list Bot) : list BotOp :=
  flat_map (drawBot canvas camera) companions.

(** In the village, two cells in front of the doorway of a house whose
    front wall stands at z = 5, at the height of the upper door marker and
    looking at it, with the pointer captured; [x] is 8 for the first house
    and 15 for the second. *)
Definition atTheDoor (x : R) (inv : list InventoryItem) : GameState :=
  mkState villageBlocks inv grass (mkCamera x 2 3 0 0) 0 false true false false.

(** A margin far above the rounding error of double arithmetic on the
    coordinates and distances of these worlds.  Where the code compares a
    computed number with a threshold, or two computed numbers with each
    other, the statements below leave a band of this width undecided, so
    that they hold of the doubles of the code as they hold of the reals
    of the model. *)
Definition tolerance : R := 1 / 1000000.

(** * Properties *)

Arguments targetCell : simpl never.
Arguments JS.Math_round : simpl never.

(** ** JavaScript built-ins *)

Lemma BlockType_eqb_eq (a b : BlockType) : BlockType_eqb a b = true <-> a = b.
Proof. destruct a, b; simpl; split; intro H; try reflexivity; discriminate H. Qed.

Lemma BlockType_eqb_refl (a : BlockType) : BlockType_eqb a a = true.
Proof. now apply BlockType_eqb_eq. Qed.


Lemma Math_round_eq (z : Z) (r : R) :
  IZR z - / 2 <= r < IZR z + / 2 -> JS.Math_round r = z.
Proof. intro H. unfold JS.Math_round. apply Zfloor_eq. lra. Qed.

Lemma Math_round_IZR (z : Z) : JS.Math_round (IZR z) = z.
Proof. apply Math_round_eq. lra. Qed.

(** [Math.round] lands on a nearest integer. *)
Lemma Math_round_nearest (r : R) :
  - / 2 < IZR (JS.Math_round r) - r <= / 2.
Proof.
  unfold JS.Math_round. pose proof (Zfloor_bound (r + / 2)) as H. lra.
Qed.

Lemma Rltb_true (a b : R) : Rltb a b = true <-> a < b.
Proof. unfold Rltb. destruct (Rlt_dec a b); split; intros; auto; discriminate. Qed.

Lemma Rleb_true (a b : R) : Rleb a b = true <-> a <= b.
Proof. unfold Rleb. destruct (Rle_dec a b); split; intros; auto; discriminate. Qed.

Lemma Rleb_false (a b : R) : Rleb a b = false <-> b < a.
Proof.
  unfold Rleb. destruct (Rle_dec a b); split; intros; try discriminate; try lra.
Qed.

Section ArrayFacts.
Context {A : Type}.
Implicit Types (p : A -> bool) (l : list A).

Lemma findIndex_None p l :
  JS.findIndex p l = None <-> JS.some p l = false.
Proof.
  induction l as [|a l IH]; simpl; [tauto|].
  destruct (p a); simpl.
  - split; discriminate.
  - destruct (JS.findIndex p l); split; intro H; try discriminate.
    + apply IH in H. discriminate.
    + now apply IH.
    + reflexivity.
Qed.

(** The index returned is that of the first element satisfying [p]. *)
Lemma findIndex_Some p l i :
  JS.findIndex p l = Some i ->
  exists a, nth_error l i = Some a /\ p a = true /\
            forall j a', (j < i)%nat -> nth_error l j = Some a' -> p a' = false.
Proof.
  revert i. induction l as [|a l IH]; simpl; intros i H; [discriminate|].
  destruct (p a) eqn:Pa.
  - inversion H; subst. exists a. repeat split; auto. intros j a' Hj. lia.
  - destruct (JS.findIndex p l) as [k|] eqn:F; [|discriminate].
    inversion H; subst. destruct (IH k eq_refl) as (b & Hb & Pb & Hmin).
    exists b. repeat split; auto.
    intros [|j] a' Hj Hn; simpl in Hn.
    + now inversion Hn; subst.
    + apply (Hmin j); auto. lia.
Qed.

Lemma filterIndexNot_length l i a :
  nth_error l i = Some a ->
  S (List.length (JS.filterIndexNot i l)) = List.length l.
Proof.
  revert i. induction l as [|b l IH]; intros [|i] H; simpl in *; try discriminate.
  - reflexivity.
  - f_equal. now apply IH.
Qed.

(** Removing index [i] keeps every other element, in order. *)
Lemma filterIndexNot_split l i a :
  nth_error l i = Some a ->
  exists l1 l2, l = l1 ++ a :: l2 /\ List.length l1 = i /\
                JS.filterIndexNot i l = l1 ++ l2.
Proof.
  revert i. induction l as [|b l IH]; intros [|i] H; simpl in *; try discriminate.
  - inversion H; subst. exists [], l. auto.
  - destruct (IH i H) as (l1 & l2 & E & L & F).
    exists (b :: l1), l2. simpl. subst l. rewrite F. auto.
Qed.
End ArrayFacts.

(** ** Inventory and world measures *)

Lemma adjustCount_types t d inv :
  map item_type (adjustCount t d inv) = map item_type inv.
Proof.
  unfold adjustCount. rewrite map_map. apply map_ext.
  intro i. now destruct (BlockType_eqb (item_type i) t).
Qed.

Lemma trackable_types inv t :
  trackable inv t = existsb (fun t' => BlockType_eqb t' t) (map item_type inv).
Proof.
  unfold trackable. induction inv as [|i inv IH]; simpl; [reflexivity|].
  now rewrite IH.
Qed.

Lemma trackable_adjustCount t d inv t' :
  trackable (adjustCount t d inv) t' = trackable inv t'.
Proof. now rewrite !trackable_types, adjustCount_types. Qed.

Lemma trackable_In inv t :
  trackable inv t = true <-> In t (map item_type inv).
Proof.
  rewrite trackable_types, existsb_exists. split.
  - intros (t' & Hin & E). apply BlockType_eqb_eq in E. now subst.
  - intro Hin. exists t. split; [assumption|apply BlockType_eqb_refl].
Qed.

(** Without a slot of the type, the credit or debit changes nothing. *)
Lemma adjustCount_untracked t d inv :
  trackable inv t = false -> adjustCount t d inv = inv.
Proof.
  unfold trackable, adjustCount. induction inv as [|i inv IH]; simpl; [reflexivity|].
  intro H. apply orb_false_iff in H as [Hi Hr].
  rewrite Hi. f_equal. now apply IH.
Qed.

(** With distinct slot types, exactly one count moves. *)
Lemma totalCount_adjustCount t d inv :
  NoDup (map item_type inv) -> trackable inv t = true ->
  totalCount (adjustCount t d inv) = (totalCount inv + d)%Z.
Proof.
  induction inv as [|i inv IH]; simpl; intros ND H; [discriminate|].
  inversion ND as [|? ? Hnotin ND']; subst.
  destruct (BlockType_eqb (item_type i) t) eqn:E; simpl in *.
  - apply BlockType_eqb_eq in E. subst t.
    fold (adjustCount (item_type i) d inv).
    rewrite adjustCount_untracked; [lia|].
    destruct (trackable inv (item_type i)) eqn:T; [|reflexivity].
    apply trackable_In in T. contradiction.
  - fold (adjustCount t d inv). rewrite IH by assumption. lia.
Qed.

Lemma findItem_Some t inv i :
  findItem t inv = Some i -> item_type i = t /\ trackable inv t = true.
Proof.
  unfold findItem. intro H. apply find_some in H as [Hin E].
  apply BlockType_eqb_eq in E. split; [assumption|].
  apply trackable_In. subst t. now apply in_map.
Qed.

Lemma findItem_None t inv :
  findItem t inv = None <-> trackable inv t = false.
Proof.
  unfold findItem, trackable. induction inv as [|i inv IH]; simpl; [tauto|].
  destruct (BlockType_eqb (item_type i) t); simpl; [split; discriminate|exact IH].
Qed.

Lemma countOf_None inv t : countOf inv t = None <-> trackable inv t = false.
Proof.
  unfold countOf. rewrite <- findItem_None.
  destruct (findItem t inv); simpl; split; intro H; congruence.
Qed.

(** The count read for a type after [adjustCount]. *)
Lemma countOf_adjustCount t d inv t' :
  countOf (adjustCount t d inv) t' =
  if BlockType_eqb t' t then option_map (fun n => (n + d)%Z) (countOf inv t')
  else countOf inv t'.
Proof.
  unfold countOf, findItem, adjustCount.
  induction inv as [|i inv IH]; simpl.
  - now destruct (BlockType_eqb t' t).
  - destruct (BlockType_eqb (item_type i) t) eqn:E1; simpl.
    + destruct (BlockType_eqb (item_type i) t') eqn:E2; simpl.
      * apply BlockType_eqb_eq in E1, E2. subst.
        now rewrite BlockType_eqb_refl.
      * exact IH.
    + destruct (BlockType_eqb (item_type i) t') eqn:E2; simpl.
      * apply BlockType_eqb_eq in E2. subst t'. now rewrite E1.
      * exact IH.
Qed.

Lemma trackedBlocks_ext inv inv' w :
  (forall t, trackable inv' t = trackable inv t) ->
  trackedBlocks inv' w = trackedBlocks inv w.
Proof.
  intro H. unfold trackedBlocks. f_equal. f_equal.
  apply filter_ext. intro b. apply H.
Qed.

Lemma trackedBlocks_app inv w1 w2 :
  trackedBlocks inv (w1 ++ w2) = (trackedBlocks inv w1 + trackedBlocks inv w2)%Z.
Proof. unfold trackedBlocks. rewrite filter_app, length_app. lia. Qed.

Lemma trackedBlocks_one inv b :
  trackedBlocks inv [b] = if trackable inv (block_type b) then 1%Z else 0%Z.
Proof. unfold trackedBlocks. simpl. now destruct (trackable inv (block_type b)). Qed.

Lemma trackedBlocks_removed inv w i b :
  nth_error w i = Some b ->
  trackedBlocks inv (JS.filterIndexNot i w) =
  (trackedBlocks inv w - (if trackable inv (block_type b) then 1 else 0))%Z.
Proof.
  intro H. destruct (filterIndexNot_split _ _ _ H) as (l1 & l2 & E & _ & F).
  rewrite F, E. change (b :: l2) with ([b] ++ l2).
  rewrite !trackedBlocks_app, trackedBlocks_one. lia.
Qed.

(** ** The edit handlers, case by case *)

(** A place attempt without stock: only the swing and the error toast. *)
Lemma handleCanvasClick_insufficient s :
  pointerLocked s = true ->
  (forall n, countOf (inventory s) (selectedBlock s) = Some n -> (n <= 0)%Z) ->
  handleCanvasClick 0 s = (swung s, [Notify NotEnoughBlocks]).
Proof.
  intros L H. unfold handleCanvasClick, countOf in *. rewrite L. cbn.
  destruct (findItem (selectedBlock s) (inventory s)) as [item|]; [|reflexivity].
  specialize (H (count item) eq_refl).
  destruct (count item >? 0)%Z eqn:G; [lia|reflexivity].
Qed.

(** A place attempt on an occupied cell: only the swing, no toast. *)
Lemma handleCanvasClick_occupied s n cx cy cz :
  pointerLocked s = true ->
  countOf (inventory s) (selectedBlock s) = Some n -> (0 < n)%Z ->
  targetCell (camera s) 3 = (cx, cy, cz) ->
  JS.some (atCell cx cy cz) (world s) = true ->
  handleCanvasClick 0 s = (swung s, []).
Proof.
  intros L H Hn T O. unfold handleCanvasClick, countOf in *. rewrite L. cbn.
  destruct (findItem (selectedBlock s) (inventory s)) as [item|]; [|discriminate].
  simpl in H. inversion H; subst n.
  destruct (count item >? 0)%Z eqn:G; [|lia].
  rewrite T, O. reflexivity.
Qed.

(** A place attempt with stock on a free cell. *)
Lemma handleCanvasClick_placed s n cx cy cz :
  pointerLocked s = true ->
  countOf (inventory s) (selectedBlock s) = Some n -> (0 < n)%Z ->
  targetCell (camera s) 3 = (cx, cy, cz) ->
  JS.some (atCell cx cy cz) (world s) = false ->
  handleCanvasClick 0 s =
  (setInventory (adjustCount (selectedBlock s) (-1) (inventory s))
     (setWorld (world s ++ [mkBlock (selectedBlock s) cx cy cz]) (swung s)),
   [Notify (BlockPlaced (selectedBlock s))]).
Proof.
  intros L H Hn T O. unfold handleCanvasClick, countOf in *. rewrite L. cbn.
  destruct (findItem (selectedBlock s) (inventory s)) as [item|]; [|discriminate].
  simpl in H. inversion H; subst n.
  destruct (count item >? 0)%Z eqn:G; [|lia].
  rewrite T, O. reflexivity.
Qed.

(** The four outcomes of a click, and nothing else. *)
Lemma handleCanvasClick_outcomes button s :
  let r := handleCanvasClick button s in
  r = (s, [RequestPointerLock]) \/
  r = (swung s, []) \/
  r = (swung s, [Notify NotEnoughBlocks]) \/
  exists cx cy cz n,
    button = 0%Z /\ pointerLocked s = true /\
    countOf (inventory s) (selectedBlock s) = Some n /\ (0 < n)%Z /\
    targetCell (camera s) 3 = (cx, cy, cz) /\
    JS.some (atCell cx cy cz) (world s) = false /\
    r = (setInventory (adjustCount (selectedBlock s) (-1) (inventory s))
           (setWorld (world s ++ [mkBlock (selectedBlock s) cx cy cz]) (swung s)),
         [Notify (BlockPlaced (selectedBlock s))]).
Proof.
  cbn zeta. unfold handleCanvasClick.
  destruct (pointerLocked s) eqn:L; cbn; [|now left].
  destruct (button =? 0)%Z eqn:B; [|now right; left].
  apply Z.eqb_eq in B.
  destruct (findItem (selectedBlock s) (inventory s)) as [item|] eqn:F;
    [|now right; right; left].
  destruct (count item >? 0)%Z eqn:G; [|now right; right; left].
  destruct (targetCell (camera s) 3) as [[cx cy] cz] eqn:T.
  destruct (JS.some (atCell cx cy cz) (world s)) eqn:O; cbn; [now right; left|].
  right; right; right. exists cx, cy, cz, (count item).
  unfold countOf. rewrite F. simpl. repeat split; auto. lia.
Qed.

(** ** The remove march *)

Lemma samples_10 : samples 10 1 = reach.
Proof.
  unfold reach. simpl.
  repeat (match goal with
          | |- context [Rle_dec ?a 5] => destruct (Rle_dec a 5); [|try lra]
          end).
  - exfalso. lra.
  - repeat (f_equal; try lra).
Qed.

Lemma emptyAt_findIndex s d cx cy cz :
  targetCell (camera s) d = (cx, cy, cz) ->
  (emptyAt s d <-> JS.findIndex (atCell cx cy cz) (world s) = None).
Proof. intro T. unfold emptyAt. rewrite T. symmetry. apply findIndex_None. Qed.

Lemma firstAt_findIndex w cx cy cz i :
  JS.findIndex (atCell cx cy cz) w = Some i ->
  exists b, nth_error w i = Some b /\ firstAt w (cx, cy, cz) i b.
Proof.
  intro F. destruct (findIndex_Some _ _ _ F) as (b & Hn & Hp & Hmin).
  exists b. unfold firstAt. auto.
Qed.

(** Every sample up to the reach is empty: the loop changes nothing. *)
Lemma removeLoop_miss fuel dist s :
  (forall d, In d (samples fuel dist) -> emptyAt s d) ->
  removeLoop fuel dist s = (s, []).
Proof.
  revert dist. induction fuel as [|fuel IH]; intros dist H; cbn in *; [reflexivity|].
  destruct (Rle_dec dist 5); [|reflexivity].
  destruct (targetCell (camera s) dist) as [[cx cy] cz] eqn:T.
  assert (E : emptyAt s dist) by (apply H; now left).
  apply (emptyAt_findIndex _ _ _ _ _ T) in E. rewrite E.
  apply IH. intros d Hd. apply H. now right.
Qed.

(** The first occupied sample decides: its first block is removed and the
    later samples are not looked at. *)
Lemma removeLoop_hit fuel dist s ds1 d ds2 :
  samples fuel dist = ds1 ++ d :: ds2 ->
  (forall d', In d' ds1 -> emptyAt s d') ->
  ~ emptyAt s d ->
  exists i b, firstAt (world s) (targetCell (camera s) d) i b /\
              removeLoop fuel dist s =
              (removed s i b, [Notify (BlockRemoved (block_type b))]).
Proof.
  revert dist ds1. induction fuel as [|fuel IH]; intros dist ds1 S E N; cbn in *.
  - now destruct ds1.
  - destruct (Rle_dec dist 5); [|now destruct ds1].
    destruct ds1 as [|d0 ds1]; cbn in S; inversion S; subst.
    + destruct (targetCell (camera s) d) as [[cx cy] cz] eqn:T.
      destruct (JS.findIndex (atCell cx cy cz) (world s)) as [i|] eqn:F.
      * destruct (firstAt_findIndex _ _ _ _ _ F) as (b & Hn & Hf).
        rewrite Hn. exists i, b. split; [assumption|reflexivity].
      * exfalso. apply N. now apply (emptyAt_findIndex _ _ _ _ _ T).
    + destruct (targetCell (camera s) d0) as [[cx cy] cz] eqn:T.
      assert (E0 : emptyAt s d0) by (apply E; now left).
      apply (emptyAt_findIndex _ _ _ _ _ T) in E0. rewrite E0.
      apply (IH _ ds1); auto. intros d' Hd. apply E. now right.
Qed.

(** The two outcomes of the loop, and nothing else. *)
Lemma removeLoop_outcomes fuel dist s :
  removeLoop fuel dist s = (s, []) \/
  exists d i b, In d (samples fuel dist) /\
                firstAt (world s) (targetCell (camera s) d) i b /\
                removeLoop fuel dist s =
                (removed s i b, [Notify (BlockRemoved (block_type b))]).
Proof.
  revert dist. induction fuel as [|fuel IH]; intros dist; cbn; [now left|].
  destruct (Rle_dec dist 5); [|now left].
  destruct (targetCell (camera s) dist) as [[cx cy] cz] eqn:T.
  destruct (JS.findIndex (atCell cx cy cz) (world s)) as [i|] eqn:F.
  - destruct (firstAt_findIndex _ _ _ _ _ F) as (b & Hn & Hf).
    rewrite Hn. right. exists dist, i, b. rewrite T.
    split; [now left|]. split; [exact Hf|reflexivity].
  - destruct (IH (dist + / 2)) as [H|(d & i & b & Hd & Hf & H)]; [now left|].
    right. exists d, i, b. split; [now right|]. split; assumption.
Qed.

Lemma handleContextMenu_outcomes s :
  handleContextMenu s = (s, [PreventDefault]) \/
  exists d i b, pointerLocked s = true /\ In d reach /\
                firstAt (world s) (targetCell (camera s) d) i b /\
                handleContextMenu s =
                (removed s i b, [PreventDefault; Notify (BlockRemoved (block_type b))]).
Proof.
  unfold handleContextMenu. destruct (pointerLocked s); cbn [negb]; [|now left].
  destruct (removeLoop_outcomes 10 1 s) as [H|(d & i & b & Hd & Hf & H)];
    rewrite H; [now left|].
  right. exists d, i, b. rewrite <- samples_10. auto.
Qed.

(** What removing one block does to the world and to the counts. *)
Lemma removed_facts s i b :
  nth_error (world s) i = Some b ->
  let s' := removed s i b in
  world s' = JS.filterIndexNot i (world s) /\
  S (List.length (world s')) = List.length (world s) /\
  inventory s' = adjustCount (block_type b) 1 (inventory s) /\
  map item_type (inventory s') = map item_type (inventory s) /\
  (forall n, countOf (inventory s) (block_type b) = Some n ->
             countOf (inventory s') (block_type b) = Some (n + 1)%Z) /\
  (forall t, t <> block_type b ->
             countOf (inventory s') t = countOf (inventory s) t) /\
  (countOf (inventory s) (block_type b) = None -> inventory s' = inventory s).
Proof.
  intro Hn. cbn. repeat split.
  - now apply filterIndexNot_length with (a := b).
  - apply adjustCount_types.
  - intros n Hc. rewrite countOf_adjustCount, BlockType_eqb_refl, Hc. reflexivity.
  - intros t Ht. rewrite countOf_adjustCount.
    destruct (BlockType_eqb t (block_type b)) eqn:E; [|reflexivity].
    apply BlockType_eqb_eq in E. contradiction.
  - intro Hc. apply adjustCount_untracked. now apply countOf_None.
Qed.

(** ** Conservation of blocks between inventory and world *)

Lemma conserved_placed s b :
  distinctSlots (inventory s) ->
  trackable (inventory s) (block_type b) = true ->
  conserved (setInventory (adjustCount (block_type b) (-1) (inventory s))
               (setWorld (world s ++ [b]) (swung s))) = conserved s.
Proof.
  intros ND T. unfold conserved. cbn.
  rewrite totalCount_adjustCount by assumption.
  rewrite (trackedBlocks_ext (inventory s)) by (intro; apply trackable_adjustCount).
  rewrite trackedBlocks_app, trackedBlocks_one, T. lia.
Qed.

Lemma conserved_removed s i b :
  distinctSlots (inventory s) ->
  nth_error (world s) i = Some b ->
  conserved (removed s i b) = conserved s.
Proof.
  intros ND Hn. unfold conserved. cbn.
  rewrite (trackedBlocks_ext (inventory s)) by (intro; apply trackable_adjustCount).
  rewrite (trackedBlocks_removed _ _ _ _ Hn).
  destruct (trackable (inventory s) (block_type b)) eqn:T.
  - rewrite totalCount_adjustCount by assumption. cbv iota. lia.
  - rewrite adjustCount_untracked by assumption. unfold totalCount. lia.
Qed.

Lemma firstAt_nth w cell i b : firstAt w cell i b -> nth_error w i = Some b.
Proof. destruct cell as [[cx cy] cz]. now intros [H _]. Qed.

(** Every event but a craft keeps the sum, and every event keeps the slots. *)
Lemma step_conserved e s :
  distinctSlots (inventory s) ->
  (forall r, e <> Craft r) ->
  conserved (fst (step e s)) = conserved s /\
  distinctSlots (inventory (fst (step e s))).
Proof.
  intros ND NC. destruct e as [button| |mx my|keys|r|t|b|b|b]; cbn [step fst].
  - destruct (handleCanvasClick_outcomes button s)
      as [H|[H|[H|(cx & cy & cz & n & _ & _ & Hc & _ & _ & _ & H)]]];
      rewrite H; cbn [fst]; try (split; [reflexivity|exact ND]).
    split.
    + apply (conserved_placed s (mkBlock (selectedBlock s) cx cy cz)); [exact ND|].
      cbn. destruct (trackable (inventory s) (selectedBlock s)) eqn:T; [reflexivity|].
      apply countOf_None in T. congruence.
    + unfold distinctSlots. cbn. now rewrite adjustCount_types.
  - destruct (handleContextMenu_outcomes s) as [H|(d & i & b & _ & _ & Hf & H)];
      rewrite H; cbn [fst]; [split; [reflexivity|exact ND]|].
    split.
    + apply conserved_removed; [exact ND|]. now apply firstAt_nth in Hf.
    + unfold distinctSlots. cbn. now rewrite adjustCount_types.
  - unfold handleMouseMove. destruct (pointerLocked s && negb (showInventory s));
      split; auto.
  - unfold moveInterval. destruct (showChat s || showInventory s); split; auto.
  - exfalso. now apply (NC r).
  - split; auto.
  - split; auto.
  - split; auto.
  - split; auto.
Qed.

Lemma run_conserved es s :
  distinctSlots (inventory s) ->
  Forall (fun e => forall r, e <> Craft r) es ->
  conserved (run es s) = conserved s.
Proof.
  revert s. induction es as [|e es IH]; intros s ND NC; cbn [run]; [reflexivity|].
  inversion NC as [|? ? He Hes]; subst.
  destruct (step_conserved e s ND He) as [Hc Hd].
  rewrite IH by assumption. exact Hc.
Qed.

(** Claim C1.  From a state whose inventory holds one slot per type (as the
    initial inventory does, and as every handler keeps it), any sequence of
    events other than crafting - clicks that place, are rejected or are
    refused, context-menu removals, camera moves, selections - leaves the
    sum of all inventory counts plus the number of world blocks of trackable
    types unchanged.  A successful place takes one unit from the count of
    the selected type and appends exactly one block of that type to the
    world; a successful remove deletes exactly one block and, when the
    inventory holds a count for its type, adds one unit to that count; when
    it holds none, the inventory is left as it is. *)
Theorem inventory_conservation (s : GameState) (es : list Event)
    (Hslots : distinctSlots (inventory s))
    (Hedits : Forall (fun e => forall r, e <> Craft r) es) :
  conserved (run es s) = conserved s /\
  (forall button t,
     notifications (snd (handleCanvasClick button s)) = [BlockPlaced t] ->
     let s' := fst (handleCanvasClick button s) in
     t = selectedBlock s /\
     (exists n, countOf (inventory s) t = Some n /\
                countOf (inventory s') t = Some (n - 1)%Z) /\
     totalCount (inventory s') = (totalCount (inventory s) - 1)%Z /\
     (exists b, world s' = world s ++ [b] /\ block_type b = t)) /\
  (forall t,
     notifications (snd (handleContextMenu s)) = [BlockRemoved t] ->
     let s' := fst (handleContextMenu s) in
     exists i b,
       nth_error (world s) i = Some b /\ block_type b = t /\
       world s' = JS.filterIndexNot i (world s) /\
       S (List.length (world s')) = List.length (world s) /\
       (forall n, countOf (inventory s) t = Some n ->
                  countOf (inventory s') t = Some (n + 1)%Z /\
                  totalCount (inventory s') = (totalCount (inventory s) + 1)%Z) /\
       (countOf (inventory s) t = None -> inventory s' = inventory s)).
Proof.
  split; [now apply run_conserved|]. split.
  - intros button t. cbn zeta.
    destruct (handleCanvasClick_outcomes button s)
      as [H|[H|[H|(cx & cy & cz & n & _ & _ & Hc & _ & _ & _ & H)]]];
      rewrite H; cbn [fst snd notifications flat_map app]; try discriminate.
    intro E. inversion E; subst t. split; [reflexivity|].
    assert (T : trackable (inventory s) (selectedBlock s) = true).
    { destruct (trackable (inventory s) (selectedBlock s)) eqn:T; [reflexivity|].
      apply countOf_None in T. congruence. }
    split; [|split].
    + exists n. split; [assumption|]. cbn.
      rewrite countOf_adjustCount, BlockType_eqb_refl, Hc. reflexivity.
    + cbn. rewrite totalCount_adjustCount by assumption. lia.
    + eexists. cbn. split; reflexivity.
  - intros t. cbn zeta.
    destruct (handleContextMenu_outcomes s) as [H|(d & i & b & _ & _ & Hf & H)];
      rewrite H; cbn [fst snd notifications flat_map app]; try discriminate.
    intro E. inversion E; subst t. apply firstAt_nth in Hf.
    destruct (removed_facts s i b Hf) as (Hw & Hl & Hi & _ & Hc & _ & Hu).
    exists i, b. repeat split; auto.
    rewrite Hi. rewrite totalCount_adjustCount; [reflexivity|assumption|].
    destruct (trackable (inventory s) (block_type b)) eqn:T; [reflexivity|].
    apply countOf_None in T. congruence.
Qed.

(** A first use of the conservation law: a place, a removal and a walk. *)
Lemma inventory_conservation_witness :
  distinctSlots (inventory (playing [] initialInventory)) /\
  Forall (fun e => forall r, e <> Craft r)
         [Click 0; ContextMenu; Tick ["w"%string]; Click 0] /\
  conserved (run [Click 0; ContextMenu; Tick ["w"%string]; Click 0]
                 (playing [] initialInventory))
  = conserved (playing [] initialInventory).
Proof.
  assert (H1 : distinctSlots (inventory (playing [] initialInventory))).
  { unfold distinctSlots. cbn.
    repeat (constructor; [cbn; intuition discriminate|]). constructor. }
  assert (H2 : Forall (fun e => forall r, e <> Craft r)
                      [Click 0; ContextMenu; Tick ["w"%string]; Click 0]).
  { repeat (constructor; [intro r; discriminate|]). constructor. }
  split; [exact H1|]. split; [exact H2|].
  exact (proj1 (inventory_conservation _ _ H1 H2)).
Defined.

(** ** Looking straight ahead from the initial camera *)

Lemma forwardVector_level x y z : forwardVector (mkCamera x y z 0 0) = (0, - 0, 1).
Proof.
  unfold forwardVector. cbn. rewrite sin_0, cos_0.
  f_equal; [f_equal|]; lra.
Qed.

(** A level camera looking along z samples the cells straight ahead. *)
Lemma targetCell_level (x y z d : R) (kx ky kz : Z) :
  IZR kx - / 2 <= x < IZR kx + / 2 ->
  IZR ky - / 2 <= y < IZR ky + / 2 ->
  IZR kz - / 2 <= z + d < IZR kz + / 2 ->
  targetCell (mkCamera x y z 0 0) d = (kx, ky, kz).
Proof.
  intros Hx Hy Hz. unfold targetCell. rewrite forwardVector_level. cbn.
  f_equal; [f_equal|]; apply Math_round_eq; lra.
Qed.

Lemma targetCell_initial (k : Z) (d : R) :
  IZR k - / 2 <= 15 + d < IZR k + / 2 ->
  targetCell initialCamera d = (15, 5, k)%Z.
Proof. intro H. apply targetCell_level; lra. Qed.

Lemma removeLoop_skip fuel dist s cx cy cz :
  dist <= 5 ->
  targetCell (camera s) dist = (cx, cy, cz) ->
  JS.findIndex (atCell cx cy cz) (world s) = None ->
  removeLoop (S fuel) dist s = removeLoop fuel (dist + / 2) s.
Proof.
  intros Hd T F. cbn. destruct (Rle_dec dist 5); [|contradiction].
  rewrite T, F. reflexivity.
Qed.

Lemma removeLoop_head fuel dist s cx cy cz i b :
  dist <= 5 ->
  targetCell (camera s) dist = (cx, cy, cz) ->
  JS.findIndex (atCell cx cy cz) (world s) = Some i ->
  nth_error (world s) i = Some b ->
  removeLoop (S fuel) dist s =
  (removed s i b, [Notify (BlockRemoved (block_type b))]).
Proof.
  intros Hd T F Hn. cbn. destruct (Rle_dec dist 5); [|contradiction].
  rewrite T, F, Hn. reflexivity.
Qed.

(** From two cells away, the second sample reaches the wall of the house. *)
Lemma handleContextMenu_atTheWall inv :
  handleContextMenu (atTheWall inv) =
  (removed (atTheWall inv) 3069 (mkBlock planks 15 3 14),
   [PreventDefault; Notify (BlockRemoved planks)]).
Proof.
  unfold handleContextMenu. change (pointerLocked (atTheWall inv)) with true.
  cbn [negb].
  rewrite (removeLoop_skip 9 1 (atTheWall inv) 15 3 13);
    [|lra|apply targetCell_level; lra|vm_compute; reflexivity].
  rewrite (removeLoop_head 8 (1 + / 2) (atTheWall inv) 15 3 14 3069
             (mkBlock planks 15 3 14));
    [reflexivity|lra|apply targetCell_level; lra
    |vm_compute; reflexivity|vm_compute; reflexivity].
Qed.

(** ** The doorways of the village *)

(** From two cells in front of a doorway, the first removal takes the wall
    block that fills it and the second the air marker behind it, which
    [buildHouse] pushed into the same cell. *)
Lemma doorway_removals (x : R) (kx : Z) (i j : nat) (inv : list InventoryItem) :
  IZR kx - / 2 <= x < IZR kx + / 2 ->
  JS.findIndex (atCell kx 2 4) villageBlocks = None ->
  JS.findIndex (atCell kx 2 5) villageBlocks = Some i ->
  nth_error villageBlocks i = Some (mkBlock planks kx 2 5) ->
  JS.findIndex (atCell kx 2 4) (JS.filterIndexNot i villageBlocks) = None ->
  JS.findIndex (atCell kx 2 5) (JS.filterIndexNot i villageBlocks) = Some j ->
  nth_error (JS.filterIndexNot i villageBlocks) j = Some (mkBlock air kx 2 5) ->
  let s := atTheDoor x inv in
  let s1 := removed s i (mkBlock planks kx 2 5) in
  handleContextMenu s = (s1, [PreventDefault; Notify (BlockRemoved planks)]) /\
  handleContextMenu s1 =
    (removed s1 j (mkBlock air kx 2 5), [PreventDefault; Notify (BlockRemoved air)]).
Proof.
  intros Hx E1 F1 N1 E2 F2 N2. cbv zeta. split.
  - unfold handleContextMenu. change (pointerLocked (atTheDoor x inv)) with true.
    cbn [negb].
    rewrite (removeLoop_skip 9 1 (atTheDoor x inv) kx 2 4);
      [|lra|apply targetCell_level; lra|exact E1].
    rewrite (removeLoop_head 8 (1 + / 2) (atTheDoor x inv) kx 2 5 i
               (mkBlock planks kx 2 5));
      [reflexivity|lra|apply targetCell_level; lra|exact F1|exact N1].
  - set (s1 := removed (atTheDoor x inv) i (mkBlock planks kx 2 5)).
    unfold handleContextMenu. change (pointerLocked s1) with true. cbn [negb].
    rewrite (removeLoop_skip 9 1 s1 kx 2 4);
      [|lra|apply targetCell_level; lra|exact E2].
    rewrite (removeLoop_head 8 (1 + / 2) s1 kx 2 5 j (mkBlock air kx 2 5));
      [reflexivity|lra|apply targetCell_level; lra|exact F2|exact N2].
Qed.

(** Claim C1 fails as worded.  At the doorway of the first house the first
    removal takes the wall block and credits planks; the second, from the
    same spot, takes the air marker: one block is deleted and announced,
    and no count moves, the inventory having no count for air. *)
Lemma air_marker_removed_without_credit :
  let s := fst (handleContextMenu (atTheDoor 8 initialInventory)) in
  notifications (snd (handleContextMenu (atTheDoor 8 initialInventory)))
    = [BlockRemoved planks] /\
  notifications (snd (handleContextMenu s)) = [BlockRemoved air] /\
  S (List.length (world (fst (handleContextMenu s)))) = List.length (world s) /\
  inventory (fst (handleContextMenu s)) = inventory s /\
  totalCount (inventory (fst (handleContextMenu s))) = totalCount (inventory s).
Proof.
  destruct (doorway_removals 8 8 2730 2808 initialInventory) as [H1 H2];
    [lra|vm_compute; reflexivity|vm_compute; reflexivity|vm_compute; reflexivity
    |vm_compute; reflexivity|vm_compute; reflexivity|vm_compute; reflexivity|].
  cbv zeta. rewrite H1. cbn [fst snd]. rewrite H2. cbn [fst snd].
  split; [reflexivity|]. split; [reflexivity|].
  split; [vm_compute; reflexivity|]. split; reflexivity.
Qed.

(** Claim C3 fails as worded.  At the doorway of the second house, with the
    wall block dug out, the march finds the air marker at its second
    sample and removes it: the hit block is deleted and announced, and no
    count of the inventory is incremented. *)
Lemma air_marker_hit_without_increment :
  let s := fst (handleContextMenu (atTheDoor 15 initialInventory)) in
  pointerLocked s = true /\
  emptyAt s 1 /\ ~ emptyAt s (3 / 2) /\
  handleContextMenu s =
    (removed s 2895 (mkBlock air 15 2 5), [PreventDefault; Notify (BlockRemoved air)]) /\
  S (List.length (world (fst (handleContextMenu s)))) = List.length (world s) /\
  forall t, countOf (inventory (fst (handleContextMenu s))) t = countOf (inventory s) t.
Proof.
  destruct (doorway_removals 15 15 2834 2895 initialInventory) as [H1 H2];
    [lra|vm_compute; reflexivity|vm_compute; reflexivity|vm_compute; reflexivity
    |vm_compute; reflexivity|vm_compute; reflexivity|vm_compute; reflexivity|].
  cbv zeta. rewrite H1. cbn [fst]. rewrite H2. cbn [fst].
  set (s1 := removed (atTheDoor 15 initialInventory) 2834 (mkBlock planks 15 2 5)).
  assert (T1 : targetCell (camera s1) 1 = (15, 2, 4)%Z)
    by (apply targetCell_level; lra).
  assert (T2 : targetCell (camera s1) (3 / 2) = (15, 2, 5)%Z)
    by (apply targetCell_level; lra).
  split; [reflexivity|]. split; [|split; [|split; [reflexivity|split]]].
  - unfold emptyAt. rewrite T1. vm_compute. reflexivity.
  - unfold emptyAt. rewrite T2. vm_compute. discriminate.
  - vm_compute. reflexivity.
  - intro t. reflexivity.
Qed.

(** ** Claim C3: the remove march *)

(** Claim C3.  With the pointer captured, [handleContextMenu] samples the
    look vector at the distances 1, 1.5, 2, ..., 5; each sample is rounded
    to a nearest lattice cell; at the first sample whose cell holds a block
    the first such block of the world is removed - exactly that one - the
    count held for its type goes up by one and the other counts stay, or,
    when the inventory holds no count for its type, the inventory is left
    as it is; the later samples play no part; and when no sampled cell
    holds a block the state is unchanged and no notification is shown. *)
Theorem remove_first_hit (s : GameState) (Hlock : pointerLocked s = true) :
  samples 10 1 = reach /\
  (forall d,
     let '(fx, fy, fz) := forwardVector (camera s) in
     let '(cx, cy, cz) := targetCell (camera s) d in
     Rabs (IZR cx - (cam_x (camera s) + fx * d)) <= / 2 /\
     Rabs (IZR cy - (cam_y (camera s) + fy * d)) <= / 2 /\
     Rabs (IZR cz - (cam_z (camera s) + fz * d)) <= / 2) /\
  (forall ds1 d ds2,
     reach = ds1 ++ d :: ds2 ->
     (forall d', In d' ds1 -> emptyAt s d') ->
     ~ emptyAt s d ->
     exists i b,
       firstAt (world s) (targetCell (camera s) d) i b /\
       handleContextMenu s =
         (removed s i b, [PreventDefault; Notify (BlockRemoved (block_type b))]) /\
       world (removed s i b) = JS.filterIndexNot i (world s) /\
       S (List.length (world (removed s i b))) = List.length (world s) /\
       (forall n, countOf (inventory s) (block_type b) = Some n ->
                  countOf (inventory (removed s i b)) (block_type b) = Some (n + 1)%Z) /\
       (forall t, t <> block_type b ->
                  countOf (inventory (removed s i b)) t = countOf (inventory s) t) /\
       (countOf (inventory s) (block_type b) = None ->
        inventory (removed s i b) = inventory s)) /\
  ((forall d, In d reach -> emptyAt s d) ->
   handleContextMenu s = (s, [PreventDefault]) /\
   notifications (snd (handleContextMenu s)) = []).
Proof.
  split; [exact samples_10|]. split; [|split].
  - intro d. unfold targetCell. destruct (forwardVector (camera s)) as [[fx fy] fz].
    repeat split; apply Rabs_le;
      match goal with
      | |- context [JS.Math_round ?r] => pose proof (Math_round_nearest r); lra
      end.
  - intros ds1 d ds2 E He Hn. rewrite <- samples_10 in E.
    destruct (removeLoop_hit 10 1 s ds1 d ds2 E He Hn) as (i & b & Hf & H).
    exists i, b. split; [exact Hf|].
    destruct (removed_facts s i b (firstAt_nth _ _ _ _ Hf))
      as (Hw & Hl & _ & _ & Hc & Ho & Hu).
    unfold handleContextMenu. rewrite Hlock, H. cbn [negb]. auto 7.
  - intro He. rewrite <- samples_10 in He.
    unfold handleContextMenu. rewrite Hlock, (removeLoop_miss 10 1 s He).
    cbn. auto.
Qed.

Lemma remove_first_hit_witness :
  pointerLocked (playing [mkBlock stone 15 5 17; mkBlock dirt 15 5 19] initialInventory)
  = true /\
  handleContextMenu (playing [mkBlock stone 15 5 17; mkBlock dirt 15 5 19] initialInventory)
  = (removed (playing [mkBlock stone 15 5 17; mkBlock dirt 15 5 19] initialInventory)
             0 (mkBlock stone 15 5 17),
     [PreventDefault; Notify (BlockRemoved stone)]).
Proof.
  set (s := playing [mkBlock stone 15 5 17; mkBlock dirt 15 5 19] initialInventory).
  split; [reflexivity|].
  destruct (remove_first_hit s eq_refl) as (_ & _ & Hhit & _).
  assert (T1 : targetCell (camera s) 1 = (15, 5, 16)%Z)
    by (apply targetCell_initial; lra).
  assert (T2 : targetCell (camera s) (3 / 2) = (15, 5, 17)%Z)
    by (apply targetCell_initial; lra).
  destruct (Hhit [1] (3 / 2) [2; 5 / 2; 3; 7 / 2; 4; 9 / 2; 5] eq_refl)
    as (i & b & Hf & H & _).
  - intros d' [E|[]]. subst d'. unfold emptyAt. rewrite T1. reflexivity.
  - unfold emptyAt. rewrite T2. cbn. discriminate.
  - rewrite T2 in Hf. destruct Hf as (Hn & _ & Hmin).
    destruct i as [|i].
    + cbn in Hn. inversion Hn; subst b. exact H.
    + exfalso. specialize (Hmin O (mkBlock stone 15 5 17) (Nat.lt_0_succ i) eq_refl).
      cbn in Hmin. discriminate.
Defined.

(** ** Claim C5: a removal credits an existing slot only *)

(** In the village with the four-slot inventory, a planks block of a house
    wall is removed and announced, and the inventory is what it was: no
    count for planks is created, so none is incremented. *)
Lemma planks_removed_without_credit :
  let s := atTheWall initialInventory4 in
  notifications (snd (handleContextMenu s)) = [BlockRemoved planks] /\
  S (List.length (world (fst (handleContextMenu s)))) = List.length (world s) /\
  inventory (fst (handleContextMenu s)) = initialInventory4 /\
  countOf (inventory (fst (handleContextMenu s))) planks = None.
Proof.
  cbn zeta. rewrite handleContextMenu_atTheWall.
  split; [reflexivity|]. split; [vm_compute; reflexivity|].
  split; reflexivity.
Qed.

(** Claim C5, as the code has it.  A removal that hits a block of type [t]
    adds one to the count the inventory holds for [t]; when the inventory
    holds none, it is left as it is.  In both cases the inventory keeps its
    slots: none is created, and a type without a count stays without one. *)
Theorem remove_credits_existing_slot (s : GameState) (t : BlockType)
    (Hhit : notifications (snd (handleContextMenu s)) = [BlockRemoved t]) :
  let s' := fst (handleContextMenu s) in
  (forall n, countOf (inventory s) t = Some n ->
             countOf (inventory s') t = Some (n + 1)%Z) /\
  (countOf (inventory s) t = None -> inventory s' = inventory s) /\
  map item_type (inventory s') = map item_type (inventory s) /\
  (forall t', countOf (inventory s) t' = None -> countOf (inventory s') t' = None).
Proof.
  cbn zeta. revert Hhit.
  destruct (handleContextMenu_outcomes s) as [H|(d & i & b & _ & _ & Hf & H)];
    rewrite H; cbn [fst snd notifications flat_map app]; [discriminate|].
  intro E. inversion E; subst t. apply firstAt_nth in Hf.
  destruct (removed_facts s i b Hf) as (_ & _ & Hi & Ht & Hc & _ & Hu).
  repeat split; auto.
  intros t' Hn. apply countOf_None. apply countOf_None in Hn.
  rewrite Hi, trackable_adjustCount. exact Hn.
Qed.

Lemma remove_credits_existing_slot_witness :
  let s := atTheWall initialInventory in
  notifications (snd (handleContextMenu s)) = [BlockRemoved planks] /\
  countOf (inventory (fst (handleContextMenu s))) planks = Some 1%Z.
Proof.
  cbn zeta.
  assert (H : notifications (snd (handleContextMenu (atTheWall initialInventory)))
              = [BlockRemoved planks]).
  { rewrite handleContextMenu_atTheWall. reflexivity. }
  split; [exact H|].
  exact (proj1 (remove_credits_existing_slot _ planks H) 0%Z eq_refl).
Defined.

(** ** Claim C4: rejected place attempts *)

(** On the pointer-lock page both rejections leave world and inventory
    alone: without stock the error toast is shown, on an occupied cell
    nothing is. *)
Lemma place_rejections s :
  pointerLocked s = true ->
  ((forall n, countOf (inventory s) (selectedBlock s) = Some n -> (n <= 0)%Z) ->
   world (fst (handleCanvasClick 0 s)) = world s /\
   inventory (fst (handleCanvasClick 0 s)) = inventory s /\
   notifications (snd (handleCanvasClick 0 s)) = [NotEnoughBlocks]) /\
  (forall n cx cy cz,
     countOf (inventory s) (selectedBlock s) = Some n -> (0 < n)%Z ->
     targetCell (camera s) 3 = (cx, cy, cz) ->
     JS.some (atCell cx cy cz) (world s) = true ->
     world (fst (handleCanvasClick 0 s)) = world s /\
     inventory (fst (handleCanvasClick 0 s)) = inventory s /\
     notifications (snd (handleCanvasClick 0 s)) = []).
Proof.
  intro L. split.
  - intro H. rewrite (handleCanvasClick_insufficient s L H). cbn. auto.
  - intros n cx cy cz Hc Hn T O.
    rewrite (handleCanvasClick_occupied s n cx cy cz L Hc Hn T O). cbn. auto.
Qed.

(** World and inventory change together or not at all. *)
Lemma place_in_lockstep button s :
  (world (fst (handleCanvasClick button s)) = world s /\
   inventory (fst (handleCanvasClick button s)) = inventory s) \/
  (exists b, world (fst (handleCanvasClick button s)) = world s ++ [b] /\
             inventory (fst (handleCanvasClick button s)) =
             adjustCount (block_type b) (-1) (inventory s)).
Proof.
  destruct (handleCanvasClick_outcomes button s)
    as [H|[H|[H|(cx & cy & cz & n & _ & _ & _ & _ & _ & _ & H)]]];
    rewrite H; cbn; auto.
  right. eexists. split; reflexivity.
Qed.

(** The same on the earlier page. *)
Lemma legacy_place_in_lockstep button s :
  (world (fst (Legacy.handleCanvasClick button s)) = world s /\
   inventory (fst (Legacy.handleCanvasClick button s)) = inventory s) \/
  (exists b, world (fst (Legacy.handleCanvasClick button s)) = world s ++ [b] /\
             inventory (fst (Legacy.handleCanvasClick button s)) =
             adjustCount (block_type b) (-1) (inventory s)).
Proof.
  unfold Legacy.handleCanvasClick. cbn zeta.
  destruct (button =? 0)%Z; [|now left].
  destruct (findItem (selectedBlock s) (inventory s)) as [item|]; [|now left].
  destruct (count item >? 0)%Z; [|now left].
  right. eexists. split; reflexivity.
Qed.

Lemma legacy_target :
  JS.Math_round (8 + sin 0 * 2) = 8%Z /\
  JS.Math_round 5 = 5%Z /\
  JS.Math_round (8 + cos 0 * 2) = 10%Z.
Proof.
  rewrite sin_0, cos_0. repeat split; apply Math_round_eq; lra.
Qed.

(** Claim C4 on the earlier page.  Looking ahead from (8, 5, 8) at the
    occupied cell (8, 5, 10), a click puts a second block into that cell,
    takes a grass from the inventory and announces the placement; and with
    no grass left a click shows no notification at all. *)
Theorem legacy_click_unguarded :
  (let s := legacyPlaying [mkBlock wood 8 5 10] initialInventory4 in
   world (fst (Legacy.handleCanvasClick 0 s))
   = [mkBlock wood 8 5 10; mkBlock grass 8 5 10] /\
   countOf (inventory (fst (Legacy.handleCanvasClick 0 s))) grass = Some 63%Z /\
   notifications (snd (Legacy.handleCanvasClick 0 s)) = [BlockPlaced grass]) /\
  (let s := legacyPlaying []
              [mkItem grass 0; mkItem dirt 64; mkItem stone 64; mkItem wood 64] in
   Legacy.handleCanvasClick 0 s = (swung s, []) /\
   notifications (snd (Legacy.handleCanvasClick 0 s)) = []).
Proof.
  split; cbn zeta.
  - unfold Legacy.handleCanvasClick. cbn.
    destruct legacy_target as (Tx & Ty & Tz).
    rewrite Tx, Ty, Tz. repeat split.
  - unfold Legacy.handleCanvasClick. cbn. split; reflexivity.
Qed.

(** ** Claim C6: camera bounds *)

Lemma clamp_bounds (lo hi v : R) :
  lo <= hi -> lo <= JS.Math_max lo (JS.Math_min hi v) <= hi.
Proof.
  intro H. unfold JS.Math_max, JS.Math_min, Rmax, Rmin.
  destruct (Rle_dec hi v); destruct (Rle_dec lo _); lra.
Qed.

(** An executed motion tick puts the camera in bounds, wherever it was. *)
Lemma moveCamera_inBounds keys c : inBounds (moveCamera keys c).
Proof.
  unfold moveCamera, inBounds.
  destruct (has keys "w"), (has keys "s"), (has keys "a"), (has keys "d"),
           (has keys " "), (has keys "shift"); cbn;
    repeat split; apply clamp_bounds; lra.
Qed.

Lemma moveCamera_pitch keys c :
  pitch (moveCamera keys c) = pitch c /\ yaw (moveCamera keys c) = yaw c.
Proof.
  unfold moveCamera.
  destruct (has keys "w"), (has keys "s"), (has keys "a"), (has keys "d");
    cbn; auto.
Qed.

Lemma lookCamera_pitchInBounds mx my c : pitchInBounds (lookCamera mx my c).
Proof.
  unfold pitchInBounds, lookCamera. cbn. apply clamp_bounds.
  pose proof PI_RGT_0. lra.
Qed.

(** No handler but the two camera updaters touches the camera. *)
Lemma step_camera e s :
  camera (fst (step e s)) = camera s \/
  (exists keys, e = Tick keys /\ showChat s || showInventory s = false /\
                camera (fst (step e s)) = moveCamera keys (camera s)) \/
  (exists mx my, e = MouseMove mx my /\
                 pointerLocked s && negb (showInventory s) = true /\
                 camera (fst (step e s)) = lookCamera mx my (camera s)).
Proof.
  destruct e as [button| |mx my|keys|r|t|b|b|b]; cbn [step fst]; auto.
  - destruct (handleCanvasClick_outcomes button s)
      as [H|[H|[H|(cx & cy & cz & n & _ & _ & _ & _ & _ & _ & H)]]];
      rewrite H; cbn; auto.
  - destruct (handleContextMenu_outcomes s) as [H|(d & i & b & _ & _ & _ & H)];
      rewrite H; cbn; auto.
  - unfold handleMouseMove.
    destruct (pointerLocked s && negb (showInventory s)) eqn:G; auto.
    right; right. exists mx, my. auto.
  - unfold moveInterval. destruct (showChat s || showInventory s) eqn:G; auto.
    right; left. exists keys. auto.
  - unfold handleCraft. destruct (canCraft (inventory s) r); cbn; auto.
Qed.

Lemma step_inBounds e s :
  inBounds (camera s) -> inBounds (camera (fst (step e s))).
Proof.
  intro H. destruct (step_camera e s)
    as [E|[(keys & _ & _ & E)|(mx & my & _ & _ & E)]]; rewrite E.
  - exact H.
  - apply moveCamera_inBounds.
  - exact H.
Qed.

Lemma step_pitchInBounds e s :
  pitchInBounds (camera s) -> pitchInBounds (camera (fst (step e s))).
Proof.
  intro H. destruct (step_camera e s)
    as [E|[(keys & _ & _ & E)|(mx & my & _ & _ & E)]]; rewrite E.
  - exact H.
  - unfold pitchInBounds. now rewrite (proj1 (moveCamera_pitch keys (camera s))).
  - apply lookCamera_pitchInBounds.
Qed.

Lemma run_bounds es s :
  (inBounds (camera s) -> inBounds (camera (run es s))) /\
  (pitchInBounds (camera s) -> pitchInBounds (camera (run es s))).
Proof.
  revert s. induction es as [|e es IH]; intro s; cbn [run]; [tauto|].
  destruct (IH (fst (step e s))) as [IH1 IH2]. split; intro H.
  - apply IH1. now apply step_inBounds.
  - apply IH2. now apply step_pitchInBounds.
Qed.

Lemma run_app es1 es2 s : run (es1 ++ es2) s = run es2 (run es1 s).
Proof. revert s. induction es1 as [|e es1 IH]; intro s; cbn; auto. Qed.

(** Claim C6.  From any state - any camera - and after any sequence of
    events: a motion tick that runs (neither chat nor inventory open) leaves
    x and z in [0, WORLD_SIZE - 1] and y in [2, 20], and every later event,
    a suspended tick included, keeps them there; a pointer move that is
    applied (pointer captured, inventory closed) leaves the pitch in
    [-PI/2, PI/2], and every later event keeps it there; and the yaw is not
    clamped: a single applied pointer move can carry it past any bound. *)
Theorem camera_stays_in_bounds (s : GameState) (es : list Event) :
  (forall keys,
     showChat (run es s) || showInventory (run es s) = false ->
     inBounds (camera (run (es ++ [Tick keys]) s))) /\
  (forall es',
     inBounds (camera (run es s)) -> inBounds (camera (run (es ++ es') s))) /\
  (forall mx my,
     pointerLocked (run es s) && negb (showInventory (run es s)) = true ->
     pitchInBounds (camera (run (es ++ [MouseMove mx my]) s))) /\
  (forall es',
     pitchInBounds (camera (run es s)) ->
     pitchInBounds (camera (run (es ++ es') s))) /\
  (forall my B,
     pointerLocked (run es s) && negb (showInventory (run es s)) = true ->
     exists mx, B < yaw (camera (run (es ++ [MouseMove mx my]) s))).
Proof.
  split; [|split; [|split; [|split]]].
  - intros keys H. rewrite run_app. cbn [run step fst]. unfold moveInterval.
    rewrite H. cbn. apply moveCamera_inBounds.
  - intros es' H. rewrite run_app. now apply run_bounds.
  - intros mx my H. rewrite run_app. cbn [run step fst]. unfold handleMouseMove.
    rewrite H. cbn. apply (lookCamera_pitchInBounds mx my).
  - intros es' H. rewrite run_app. now apply run_bounds.
  - intros my B H.
    exists ((B - yaw (camera (run es s)) + 1) * 500).
    rewrite run_app. cbn [run step fst]. unfold handleMouseMove. rewrite H. cbn.
    unfold sensitivity. lra.
Qed.

(** One tick brings a camera that is far outside back into the world, and
    one pointer move brings its pitch back into range. *)
Lemma camera_stays_in_bounds_witness :
  inBounds (camera (run ([] ++ [Tick ["w"%string; " "%string]]) astray)) /\
  pitchInBounds (camera (run ([] ++ [MouseMove 10 10000]) astray)).
Proof.
  split.
  - apply (proj1 (camera_stays_in_bounds astray [])). reflexivity.
  - apply (proj1 (proj2 (proj2 (camera_stays_in_bounds astray [])))). reflexivity.
Defined.

(** ** Claim C7: far-to-near order *)

Section SortFacts.
Context {A : Type} (key : A -> R).

Lemma insertSorted_perm (cmp : A -> A -> R) a l :
  Permutation (insertSorted cmp a l) (a :: l).
Proof.
  induction l as [|b l IH]; cbn; [reflexivity|].
  destruct (Rleb (cmp a b) 0); [reflexivity|].
  rewrite IH. apply perm_swap.
Qed.

Lemma sort_perm (cmp : A -> A -> R) l : Permutation (sort cmp l) l.
Proof.
  induction l as [|a l IH]; cbn; [reflexivity|].
  rewrite insertSorted_perm. now constructor.
Qed.


End SortFacts.









(** ** Claims C2 and C8: projection and near-plane cull *)

(** With a canvas mounted, the projection is the sentinel at depth at most
    0.1 and the perspective divide beyond it. *)
Lemma project3DTo2D_depth cv camera x y z :
  distance (project3DTo2D (Some cv) camera x y z) =
  if Rleb (forwardDepth camera x y z) (1 / 10) then -1
  else forwardDepth camera x y z.
Proof.
  unfold project3DTo2D, forwardDepth. cbn zeta.
  match goal with |- context [Rleb ?a ?b] => destruct (Rleb a b) end; reflexivity.
Qed.

(** Without a canvas, the projection is the origin at distance 0. *)
Lemma project3DTo2D_unmounted camera x y z :
  project3DTo2D None camera x y z = mkPoint 0 0 0.
Proof. reflexivity. Qed.

Lemma drawCube_culled canvas camera x y z color :
  (exists p, In p (projectCorners canvas camera x y z) /\ distance p < 0) ->
  drawCube canvas camera x y z color = [].
Proof.
  intros (p & Hin & Hd). unfold drawCube. cbn zeta.
  replace (JS.some (fun p => Rltb (distance p) 0) (projectCorners canvas camera x y z))
    with true; [reflexivity|].
  symmetry. apply existsb_exists. exists p. split; [assumption|now apply Rltb_true].
Qed.

(** A cube with all eight corners beyond the near plane gets its six faces. *)
Lemma drawCube_visible cv camera x y z color :
  (forall cx cy cz, In (cx, cy, cz) (corners x y z) ->
                    1 / 10 < forwardDepth camera cx cy cz) ->
  List.length (drawCube (Some cv) camera x y z color) = 6%nat.
Proof.
  intro H. unfold drawCube. cbn zeta.
  replace (JS.some (fun p => Rltb (distance p) 0) (projectCorners (Some cv) camera x y z))
    with false; [reflexivity|].
  symmetry. apply not_true_is_false. intro E.
  apply existsb_exists in E as (p & Hin & Hp). apply Rltb_true in Hp.
  unfold projectCorners in Hin. apply in_map_iff in Hin as ([[cx cy] cz] & Ep & Hc).
  specialize (H cx cy cz Hc). subst p.
  rewrite project3DTo2D_depth in Hp.
  destruct (Rleb (forwardDepth camera cx cy cz) (1 / 10)) eqn:G.
  - apply Rleb_true in G. lra.
  - lra.
Qed.

(** Claim C2.  With the canvas mounted, a world point whose forward depth
    after the yaw-then-pitch rotation is at most 0.1 projects to the
    sentinel point of distance -1; a cube one of whose eight projected
    corners carries that sentinel is not drawn at all; hence a cube with a
    corner at forward depth at most 0.1 is not drawn at all. *)
Theorem near_plane_cull (cv : Canvas) (camera : Camera) :
  (forall x y z,
     forwardDepth camera x y z <= 1 / 10 ->
     project3DTo2D (Some cv) camera x y z = mkPoint 0 0 (-1)) /\
  (forall canvas x y z color,
     (exists p, In p (projectCorners canvas camera x y z) /\ distance p = -1) ->
     drawCube canvas camera x y z color = []) /\
  (forall x y z color,
     (exists cx cy cz, In (cx, cy, cz) (corners x y z) /\
                       forwardDepth camera cx cy cz <= 1 / 10) ->
     drawCube (Some cv) camera x y z color = []).
Proof.
  assert (P : forall x y z, forwardDepth camera x y z <= 1 / 10 ->
                            project3DTo2D (Some cv) camera x y z = mkPoint 0 0 (-1)).
  { intros x y z H. unfold project3DTo2D, forwardDepth in *. cbn zeta in *.
    apply Rleb_true in H. rewrite H. reflexivity. }
  split; [exact P|]. split.
  - intros canvas x y z color (p & Hin & Hd). apply drawCube_culled.
    exists p. split; [assumption|lra].
  - intros x y z color (cx & cy & cz & Hin & Hd). apply drawCube_culled.
    exists (project3DTo2D (Some cv) camera cx cy cz). split.
    + unfold projectCorners. apply in_map_iff. exists (cx, cy, cz). auto.
    + rewrite (P cx cy cz Hd). cbn. lra.
Qed.

(** The unit cube at the feet of the level initial camera reaches behind
    it, and is not drawn. *)
Lemma near_plane_cull_witness :
  drawCube (Some (mkCanvas 800 600)) initialCamera 15 5 14 (blockColors stone) = [].
Proof.
  apply (proj2 (proj2 (near_plane_cull (mkCanvas 800 600) initialCamera))).
  exists 15, 5, 14. split; [now left|].
  unfold forwardDepth, initialCamera. cbn. rewrite sin_0, cos_0. lra.
Defined.

(** Claim C8.  For a camera with zero pitch and yaw and a point straight
    ahead of it at forward offset d > 0.1, the projection is the centre of
    the canvas and the distance is d. *)
Theorem projection_straight_ahead (cv : Canvas) (cx cy cz d : R)
    (Hd : 1 / 10 < d) :
  project3DTo2D (Some cv) (mkCamera cx cy cz 0 0) cx cy (cz + d)
  = mkPoint (IZR (width cv) / 2) (IZR (height cv) / 2) d.
Proof.
  unfold project3DTo2D. cbn. rewrite sin_0, cos_0.
  replace (- (cy - cy) * 0 + ((cx - cx) * 0 + (cz + d - cz) * 1) * 1) with d by ring.
  replace (Rleb d (1 / 10)) with false by (symmetry; apply Rleb_false; lra).
  f_equal.
  - replace (((cx - cx) * 1 - (cz + d - cz) * 0) * 500) with 0 by ring.
    unfold Rdiv. rewrite Rmult_0_l. lra.
  - replace (- ((cy - cy) * 1 + ((cx - cx) * 0 + (cz + d - cz) * 1) * 0) * 500)
      with 0 by ring.
    unfold Rdiv. rewrite Rmult_0_l. lra.
Qed.

Lemma projection_straight_ahead_witness :
  1 / 10 < 3 /\
  project3DTo2D (Some (mkCanvas 800 600)) (mkCamera 15 5 15 0 0) 15 5 (15 + 3)
  = mkPoint (800 / 2) (600 / 2) 3.
Proof.
  assert (H : 1 / 10 < 3) by lra.
  split; [exact H|].
  exact (projection_straight_ahead (mkCanvas 800 600) 15 5 15 3 H).
Defined.

(** ** Claim C9: the village is a fixture *)

(** The layered terrain of the earlier page does depend on the draws. *)
Lemma terrain_depends_on_draws :
  world (fst (LegacyTerrain.generateWorld (playing [] []) zeros)) <>
  world (fst (LegacyTerrain.generateWorld (playing [] []) nines)).
Proof.
  intro H. apply (f_equal (@List.length Block)) in H.
  vm_compute in H. discriminate H.
Qed.

(** Claim C9.  Whatever the state before and whatever the random source,
    [generateVillage] yields the same world and the same spawn camera and
    draws no random number: the world is the flat base followed by the four
    houses and the plaza, which are fixed lists - 453 house blocks with
    their eight doorway markers, and the nine plaza blocks. *)
Theorem village_deterministic (s1 s2 : GameState) (rs1 rs2 : RandomSource) :
  world (fst (generateVillage s1 rs1)) = world (fst (generateVillage s2 rs2)) /\
  camera (fst (generateVillage s1 rs1)) = camera (fst (generateVillage s2 rs2)) /\
  snd (generateVillage s1 rs1) = rs1 /\
  world (fst (generateVillage s1 rs1)) = flatBase ++ houses ++ plaza /\
  List.length houses = 453%nat /\
  Forall (fun b => block_type b = planks \/ block_type b = wood \/ block_type b = air)
         houses /\
  filter (fun b => BlockType_eqb (block_type b) air) houses =
    [ mkBlock air 8 1 5; mkBlock air 8 2 5; mkBlock air 15 1 5; mkBlock air 15 2 5;
      mkBlock air 8 1 13; mkBlock air 8 2 13; mkBlock air 17 1 14; mkBlock air 17 2 14 ] /\
  plaza =
    [ mkBlock cobblestone 10 1 10; mkBlock cobblestone 10 1 11; mkBlock cobblestone 10 1 12;
      mkBlock cobblestone 11 1 10; mkBlock cobblestone 11 1 11; mkBlock cobblestone 11 1 12;
      mkBlock cobblestone 12 1 10; mkBlock cobblestone 12 1 11; mkBlock cobblestone 12 1 12 ].
Proof.
  repeat match goal with |- _ /\ _ => split end; try reflexivity.
  vm_compute. repeat (constructor; [tauto|]). constructor.
Qed.

(** ** Claim C10: crafting *)

(** [bumpFirst] changes the first slot of the type and nothing else. *)
Lemma bumpFirst_cons t d i inv :
  bumpFirst t d (i :: inv) =
  if BlockType_eqb (item_type i) t
  then mkItem (item_type i) (count i + d) :: inv
  else i :: bumpFirst t d inv.
Proof.
  unfold bumpFirst. cbn [JS.findIndex].
  destruct (BlockType_eqb (item_type i) t); [reflexivity|].
  destruct (JS.findIndex (fun i0 => BlockType_eqb (item_type i0) t) inv) as [k|];
    [|reflexivity].
  cbn [nth_error]. destruct (nth_error inv k); reflexivity.
Qed.

Lemma bumpFirst_types t d inv :
  map item_type (bumpFirst t d inv) = map item_type inv.
Proof.
  induction inv as [|i inv IH]; [reflexivity|].
  rewrite bumpFirst_cons. destruct (BlockType_eqb (item_type i) t); cbn; congruence.
Qed.

Lemma countOf_cons i inv t :
  countOf (i :: inv) t =
  if BlockType_eqb (item_type i) t then Some (count i) else countOf inv t.
Proof.
  unfold countOf, findItem. cbn. now destruct (BlockType_eqb (item_type i) t).
Qed.

Lemma countOf_bumpFirst t d inv t' :
  countOf (bumpFirst t d inv) t' =
  if BlockType_eqb t' t then option_map (fun n => (n + d)%Z) (countOf inv t')
  else countOf inv t'.
Proof.
  induction inv as [|i inv IH].
  - cbn. now destruct (BlockType_eqb t' t).
  - rewrite bumpFirst_cons.
    destruct (BlockType_eqb (item_type i) t) eqn:E1.
    + apply BlockType_eqb_eq in E1. subst t. rewrite !countOf_cons. cbn.
      destruct (BlockType_eqb (item_type i) t') eqn:E2.
      * apply BlockType_eqb_eq in E2. subst t'. now rewrite BlockType_eqb_refl.
      * destruct (BlockType_eqb t' (item_type i)) eqn:E3; [|reflexivity].
        apply BlockType_eqb_eq in E3. subst t'. now rewrite BlockType_eqb_refl in E2.
    + rewrite !countOf_cons. destruct (BlockType_eqb (item_type i) t') eqn:E2.
      * apply BlockType_eqb_eq in E2. subst t'. now rewrite E1.
      * exact IH.
Qed.

Lemma nonNegative_countOf inv t n :
  nonNegative inv -> countOf inv t = Some n -> (0 <= n)%Z.
Proof.
  unfold nonNegative, countOf. intros H E.
  destruct (findItem t inv) as [i|] eqn:F; [|discriminate].
  inversion E; subst. unfold findItem in F. apply find_some in F as [Hin _].
  rewrite Forall_forall in H. now apply H.
Qed.

Lemma bumpFirst_nonNegative t d inv :
  nonNegative inv ->
  (forall n, countOf inv t = Some n -> (0 <= n + d)%Z) ->
  nonNegative (bumpFirst t d inv).
Proof.
  unfold nonNegative. induction inv as [|i inv IH]; intros H Hc; [constructor|].
  rewrite bumpFirst_cons. inversion H as [|? ? Hi Hr]; subst.
  rewrite countOf_cons in Hc.
  destruct (BlockType_eqb (item_type i) t).
  - constructor; [|assumption]. cbn. now apply Hc.
  - constructor; [assumption|]. apply IH; assumption.
Qed.

(** The loop over the ingredients, as a fold. *)
Lemma countOf_ingredients ings inv t :
  countOf (fold_left (fun acc ingredient =>
                        bumpFirst (ing_type ingredient) (- ing_count ingredient) acc)
                     ings inv) t =
  option_map (fun n => (n - required t ings)%Z) (countOf inv t).
Proof.
  revert inv. induction ings as [|ing ings IH]; intro inv; cbn [fold_left required fold_right].
  - destruct (countOf inv t); cbn; [f_equal; lia|reflexivity].
  - rewrite IH, countOf_bumpFirst. fold (required t ings).
    destruct (BlockType_eqb (ing_type ing) t) eqn:E1.
    + apply BlockType_eqb_eq in E1. subst t. rewrite BlockType_eqb_refl.
      destruct (countOf inv (ing_type ing)); cbn; [f_equal; lia|reflexivity].
    + destruct (BlockType_eqb t (ing_type ing)) eqn:E2; [|reflexivity].
      apply BlockType_eqb_eq in E2. subst t. now rewrite BlockType_eqb_refl in E1.
Qed.

Lemma countOf_craftUpdate recipe inv t :
  countOf (craftUpdate recipe inv) t =
  option_map (fun n => (n - required t (ingredients recipe) + yielded t recipe)%Z)
             (countOf inv t).
Proof.
  unfold craftUpdate. cbn zeta. rewrite countOf_bumpFirst, countOf_ingredients.
  unfold yielded.
  destruct (BlockType_eqb t (result recipe)) eqn:E1.
  - apply BlockType_eqb_eq in E1. subst t. rewrite BlockType_eqb_refl.
    destruct (countOf inv (result recipe)); reflexivity.
  - destruct (BlockType_eqb (result recipe) t) eqn:E2.
    + apply BlockType_eqb_eq in E2. subst t. now rewrite BlockType_eqb_refl in E1.
    + destruct (countOf inv t); cbn; [f_equal; lia|reflexivity].
Qed.

Lemma craftUpdate_types recipe inv :
  map item_type (craftUpdate recipe inv) = map item_type inv.
Proof.
  unfold craftUpdate. cbn zeta. rewrite bumpFirst_types.
  generalize (ingredients recipe). intro ings. revert inv.
  induction ings as [|ing ings IH]; intro inv; cbn [fold_left]; [reflexivity|].
  now rewrite IH, bumpFirst_types.
Qed.

(** No event adds, drops or retypes a slot: crafting included. *)
Lemma step_slots e s :
  map item_type (inventory (fst (step e s))) = map item_type (inventory s).
Proof.
  destruct e as [button| |mx my|keys|r|t|b|b|b]; cbn [step fst]; try reflexivity.
  - destruct (handleCanvasClick_outcomes button s)
      as [H|[H|[H|(cx & cy & cz & n & _ & _ & _ & _ & _ & _ & H)]]];
      rewrite H; cbn; try reflexivity. apply adjustCount_types.
  - destruct (handleContextMenu_outcomes s) as [H|(d & i & b & _ & _ & _ & H)];
      rewrite H; cbn; [reflexivity|apply adjustCount_types].
  - unfold handleMouseMove. now destruct (pointerLocked s && negb (showInventory s)).
  - unfold moveInterval. now destruct (showChat s || showInventory s).
  - unfold handleCraft. destruct (canCraft (inventory s) r); cbn; [|reflexivity].
    apply craftUpdate_types.
Qed.

Lemma run_slots es s :
  map item_type (inventory (run es s)) = map item_type (inventory s).
Proof.
  revert s. induction es as [|e es IH]; intro s; cbn [run]; [reflexivity|].
  now rewrite IH, step_slots.
Qed.

(** With the six slots of the initial inventory, the trackable types are
    the types other than air, throughout a game. *)
Lemma trackable_in_play es s t :
  map item_type (inventory s) = map item_type initialInventory ->
  trackable (inventory (run es s)) t = negb (BlockType_eqb t air).
Proof.
  intro H. rewrite trackable_types, run_slots, H. now destruct t.
Qed.

(** [canCraft] holds exactly when every ingredient has a count that covers it. *)
Lemma canCraft_true inv recipe :
  canCraft inv recipe = true <->
  forall ing, In ing (ingredients recipe) ->
              exists n, countOf inv (ing_type ing) = Some n /\ (ing_count ing <= n)%Z.
Proof.
  unfold canCraft, JS.every. rewrite forallb_forall. unfold countOf.
  split; intros H ing Hin; specialize (H ing Hin).
  - destruct (findItem (ing_type ing) inv) as [i|]; [|discriminate].
    exists (count i). split; [reflexivity|lia].
  - destruct H as (n & E & Hn).
    destruct (findItem (ing_type ing) inv) as [i|]; [|discriminate].
    cbn in E. inversion E; subst. lia.
Qed.

Lemma required_absent t ings :
  ~ In t (map ing_type ings) -> required t ings = 0%Z.
Proof.
  induction ings as [|ing ings IH]; cbn; intro H; [reflexivity|].
  fold (required t ings).
  destruct (BlockType_eqb (ing_type ing) t) eqn:E.
  - apply BlockType_eqb_eq in E. tauto.
  - apply IH. tauto.
Qed.

(** When no type is asked for twice, a type is asked what its ingredient says. *)
Lemma required_distinct ings ing :
  NoDup (map ing_type ings) -> In ing ings ->
  required (ing_type ing) ings = ing_count ing.
Proof.
  induction ings as [|ing0 ings IH]; cbn; intros ND Hin; [contradiction|].
  fold (required (ing_type ing) ings).
  inversion ND as [|? ? Hnotin ND']; subst.
  destruct Hin as [E|Hin].
  - subst ing0. rewrite BlockType_eqb_refl, required_absent by assumption. lia.
  - destruct (BlockType_eqb (ing_type ing0) (ing_type ing)) eqn:E.
    + apply BlockType_eqb_eq in E. exfalso. apply Hnotin. rewrite E.
      now apply in_map.
    + now apply IH.
Qed.

Lemma ingredients_nonNegative ings inv :
  NoDup (map ing_type ings) ->
  (forall ing, In ing ings ->
               exists m, countOf inv (ing_type ing) = Some m /\ (ing_count ing <= m)%Z) ->
  nonNegative inv ->
  nonNegative (fold_left (fun acc ingredient =>
                            bumpFirst (ing_type ingredient) (- ing_count ingredient) acc)
                         ings inv).
Proof.
  revert inv. induction ings as [|ing ings IH]; intros inv ND H NN; cbn [fold_left];
    [assumption|].
  inversion ND as [|? ? Hnotin ND']; subst.
  apply IH; [assumption| |].
  - intros ing' Hin. destruct (H ing' (or_intror Hin)) as (m & E & Hm).
    exists m. split; [|assumption]. rewrite countOf_bumpFirst.
    destruct (BlockType_eqb (ing_type ing') (ing_type ing)) eqn:E2; [|assumption].
    apply BlockType_eqb_eq in E2. exfalso. apply Hnotin. rewrite <- E2.
    now apply in_map.
  - apply bumpFirst_nonNegative; [assumption|].
    intros n E. destruct (H ing (or_introl eq_refl)) as (m & Em & Hm).
    rewrite E in Em. inversion Em; subst. lia.
Qed.

Lemma craftUpdate_nonNegative recipe inv :
  wellFormed recipe -> canCraft inv recipe = true ->
  nonNegative inv -> nonNegative (craftUpdate recipe inv).
Proof.
  intros [ND Hr] C NN. pose proof (proj1 (canCraft_true _ _) C) as C'.
  pose proof (ingredients_nonNegative _ _ ND C' NN) as NN'.
  unfold craftUpdate. cbn zeta. apply bumpFirst_nonNegative; [assumption|].
  intros n E. pose proof (nonNegative_countOf _ _ _ NN' E). lia.
Qed.

(** Both recipes of the overlay ask for one type, once. *)
Lemma recipes_wellFormed : Forall wellFormed recipes.
Proof.
  unfold recipes, wellFormed.
  repeat (constructor; [split; [repeat constructor; cbn; tauto|cbn; lia]|]).
  constructor.
Qed.

(** The check looks at one ingredient at a time: a recipe that asked for
    wood twice, one each, would pass with a single wood and overdraw it. *)
Lemma repeated_ingredient_overdraws :
  let recipe := mkRecipe planks 4 [mkIngredient wood 1; mkIngredient wood 1] in
  let s := playing [] [mkItem wood 1; mkItem planks 0] in
  ~ wellFormed recipe /\
  countOf (inventory (fst (handleCraft recipe s))) wood = Some (-1)%Z.
Proof.
  cbn zeta. split; [|reflexivity].
  intros [ND _]. cbn in ND. inversion ND as [|? ? Hnotin _]; subst.
  apply Hnotin. now left.
Qed.

(** Claim C10.  A craft request one of whose ingredients is not covered by
    the count of its type (or has no slot) leaves the state as it is, with
    no notification.  Otherwise the inventory is replaced once, by an
    update that keeps the slots and turns the count [n] held for a type
    into [n] minus what the recipe asks of that type plus what it yields of
    it - for a recipe that asks for no type twice, each ingredient's count
    goes down by that ingredient's count and the result's goes up by
    [resultCount].  For such recipes with a non-negative result count, and
    so for every recipe of the overlay, counts that were not negative are
    not negative afterwards. *)
Theorem craft_all_or_nothing (s : GameState) (recipe : Recipe) :
  ((exists ing, In ing (ingredients recipe) /\
                forall n, countOf (inventory s) (ing_type ing) = Some n ->
                          (n < ing_count ing)%Z) ->
   handleCraft recipe s = (s, [])) /\
  ((forall ing, In ing (ingredients recipe) ->
                exists n, countOf (inventory s) (ing_type ing) = Some n /\
                          (ing_count ing <= n)%Z) ->
   handleCraft recipe s =
     (setInventory (craftUpdate recipe (inventory s)) s, [Notify (Crafted recipe)]) /\
   map item_type (craftUpdate recipe (inventory s)) = map item_type (inventory s) /\
   (forall t n, countOf (inventory s) t = Some n ->
                countOf (craftUpdate recipe (inventory s)) t =
                Some (n - required t (ingredients recipe) + yielded t recipe)%Z) /\
   (NoDup (map ing_type (ingredients recipe)) ->
    forall ing, In ing (ingredients recipe) ->
                required (ing_type ing) (ingredients recipe) = ing_count ing)) /\
  (wellFormed recipe -> nonNegative (inventory s) ->
   nonNegative (inventory (fst (handleCraft recipe s)))) /\
  (In recipe recipes -> nonNegative (inventory s) ->
   nonNegative (inventory (fst (handleCraft recipe s)))).
Proof.
  assert (NNwf : wellFormed recipe -> nonNegative (inventory s) ->
                 nonNegative (inventory (fst (handleCraft recipe s)))).
  { intros WF NN. unfold handleCraft.
    destruct (canCraft (inventory s) recipe) eqn:C; cbn; [|assumption].
    now apply craftUpdate_nonNegative. }
  split; [|split; [|split]].
  - intros (ing & Hin & Hlt). unfold handleCraft.
    destruct (canCraft (inventory s) recipe) eqn:C; [|reflexivity].
    pose proof (proj1 (canCraft_true _ _) C) as C'.
    destruct (C' ing Hin) as (n & E & Hn).
    specialize (Hlt n E). lia.
  - intro H. pose proof (proj2 (canCraft_true _ _) H) as C.
    unfold handleCraft. rewrite C.
    split; [reflexivity|]. split; [apply craftUpdate_types|]. split.
    + intros t n E. rewrite countOf_craftUpdate, E. reflexivity.
    + intros ND ing Hin. now apply required_distinct.
  - exact NNwf.
  - intros Hin NN. apply NNwf; [|assumption].
    pose proof recipes_wellFormed as WF. rewrite Forall_forall in WF. now apply WF.
Qed.

(** One wood into four planks, from the initial inventory. *)
Lemma craft_all_or_nothing_witness :
  let recipe := mkRecipe planks 4 [mkIngredient wood 1] in
  let s := playing [] initialInventory in
  In recipe recipes /\
  countOf (inventory (fst (handleCraft recipe s))) wood = Some 63%Z /\
  countOf (inventory (fst (handleCraft recipe s))) planks = Some 4%Z /\
  nonNegative (inventory (fst (handleCraft recipe s))).
Proof.
  cbn zeta.
  set (recipe := mkRecipe planks 4 [mkIngredient wood 1]).
  set (s := playing [] initialInventory).
  assert (Hin : In recipe recipes) by (left; reflexivity).
  assert (NN : nonNegative (inventory s)).
  { unfold nonNegative. cbn. repeat (constructor; [cbn; lia|]). constructor. }
  destruct (craft_all_or_nothing s recipe) as (_ & Hok & _ & Hnn).
  destruct Hok as (Hc & _ & Hcount & _).
  { intros ing [E|[]]. subst ing. exists 64%Z. split; [reflexivity|cbn; lia]. }
  rewrite Hc. cbn [fst inventory setInventory].
  split; [exact Hin|]. split; [|split].
  - exact (Hcount wood 64%Z eq_refl).
  - exact (Hcount planks 0%Z eq_refl).
  - specialize (Hnn Hin NN). rewrite Hc in Hnn. exact Hnn.
Defined.

(** * Further properties of the handlers *)

(** ** Cells are never shared *)

Lemma atCell_cellOf cx cy cz b :
  atCell cx cy cz b = true <-> cellOf b = (cx, cy, cz).
Proof.
  unfold atCell, cellOf. rewrite !andb_true_iff, !Z.eqb_eq. split.
  - intros [[Hx Hy] Hz]. congruence.
  - intro H. inversion H. auto.
Qed.

Lemma some_atCell cx cy cz w :
  JS.some (atCell cx cy cz) w = false <-> ~ In (cx, cy, cz) (map cellOf w).
Proof.
  unfold JS.some. split.
  - intros H Hin. apply in_map_iff in Hin as (b & Hb & Hin).
    assert (E : existsb (atCell cx cy cz) w = true).
    { apply existsb_exists. exists b. split; [assumption|now apply atCell_cellOf]. }
    congruence.
  - intro H. apply not_true_is_false. intro E.
    apply existsb_exists in E as (b & Hin & Hb). apply H.
    apply in_map_iff. exists b. split; [now apply atCell_cellOf|assumption].
Qed.

Lemma uniqueCells_placed w t cx cy cz :
  uniqueCells w -> JS.some (atCell cx cy cz) w = false ->
  uniqueCells (w ++ [mkBlock t cx cy cz]).
Proof.
  unfold uniqueCells. intros ND H. rewrite map_app. cbn.
  apply NoDup_app; [assumption|repeat constructor; auto|].
  intros c Hc [E|[]]. subst c. apply some_atCell in H. contradiction.
Qed.

Lemma uniqueCells_removed w i b :
  uniqueCells w -> nth_error w i = Some b -> uniqueCells (JS.filterIndexNot i w).
Proof.
  unfold uniqueCells. intros ND Hn.
  destruct (filterIndexNot_split _ _ _ Hn) as (l1 & l2 & E & _ & F).
  rewrite F. rewrite E, map_app in ND. cbn in ND. rewrite map_app.
  now apply NoDup_remove_1 in ND.
Qed.

Lemma step_uniqueCells e s :
  uniqueCells (world s) -> uniqueCells (world (fst (step e s))).
Proof.
  intro U. destruct e as [button| |mx my|keys|r|t|b|b|b]; cbn [step fst]; auto.
  - destruct (handleCanvasClick_outcomes button s)
      as [H|[H|[H|(cx & cy & cz & n & _ & _ & _ & _ & _ & O & H)]]];
      rewrite H; cbn; auto. now apply uniqueCells_placed.
  - destruct (handleContextMenu_outcomes s) as [H|(d & i & b & _ & _ & Hf & H)];
      rewrite H; cbn; auto.
    apply uniqueCells_removed with (b := b); [assumption|].
    now apply firstAt_nth in Hf.
  - unfold handleMouseMove. now destruct (pointerLocked s && negb (showInventory s)).
  - unfold moveInterval. now destruct (showChat s || showInventory s).
  - unfold handleCraft. now destruct (canCraft (inventory s) r).
Qed.

Lemma cellEqb_eq a b : cellEqb a b = true <-> a = b.
Proof.
  destruct a as [[ax ay] az], b as [[bx by_] bz]. cbn.
  rewrite !andb_true_iff, !Z.eqb_eq. split.
  - intros [[Hx Hy] Hz]. congruence.
  - intro H. inversion H. auto.
Qed.

Lemma distinctb_NoDup l : distinctb l = true -> NoDup l.
Proof.
  induction l as [|c l IH]; cbn; intro H; [constructor|].
  apply andb_true_iff in H as [Hc Hl]. constructor; [|now apply IH].
  intro Hin. apply negb_true_iff in Hc.
  assert (E : existsb (cellEqb c) l = true).
  { apply existsb_exists. exists c. split; [assumption|now apply cellEqb_eq]. }
  congruence.
Qed.

Lemma flatBase_uniqueCells : uniqueCells flatBase.
Proof. apply distinctb_NoDup. vm_compute. reflexivity. Qed.

(** In a world without shared cells - the flat world is one - no sequence
    of events ever puts two blocks into one cell. *)
Theorem cells_stay_unique (s : GameState) (es : list Event)
    (Hunique : uniqueCells (world s)) :
  uniqueCells (world (run es s)).
Proof.
  revert s Hunique. induction es as [|e es IH]; intros s U; cbn [run]; [exact U|].
  apply IH. now apply step_uniqueCells.
Qed.

Lemma cells_stay_unique_witness :
  uniqueCells (world (fst (generateFlatWorld (playing [] initialInventory) zeros))) /\
  uniqueCells (world (run [Click 0; Click 0; ContextMenu]
                          (fst (generateFlatWorld (playing [] initialInventory) zeros)))).
Proof.
  assert (H : uniqueCells
                (world (fst (generateFlatWorld (playing [] initialInventory) zeros))))
    by exact flatBase_uniqueCells.
  split; [exact H|]. exact (cells_stay_unique _ _ H).
Defined.

(** ** A second click, and taking a placed block back *)




Lemma findIndex_app_last {A : Type} (p : A -> bool) l a :
  JS.findIndex p l = None ->
  JS.findIndex p (l ++ [a]) = if p a then Some (List.length l) else None.
Proof.
  induction l as [|b l IH]; cbn; intro H.
  - now destruct (p a).
  - destruct (p b); [discriminate|].
    destruct (JS.findIndex p l); [discriminate|].
    rewrite IH by reflexivity. now destruct (p a).
Qed.

Lemma filterIndexNot_last {A : Type} (l : list A) a :
  JS.filterIndexNot (List.length l) (l ++ [a]) = l.
Proof. induction l as [|b l IH]; cbn; [reflexivity|now rewrite IH]. Qed.

Lemma adjustCount_back t inv :
  adjustCount t 1 (adjustCount t (-1) inv) = inv.
Proof.
  unfold adjustCount. rewrite map_map. rewrite <- (map_id inv) at 2.
  apply map_ext. intros [ty c]. cbn.
  destruct (BlockType_eqb ty t) eqn:E; cbn; rewrite E; [f_equal; lia|reflexivity].
Qed.

(** When the only block in any sampled cell up to some sample is the last
    block of the world, the march removes that block. *)
Lemma removeLoop_last fuel dist s w b ds1 d ds2 :
  world s = w ++ [b] ->
  samples fuel dist = ds1 ++ d :: ds2 ->
  (forall d', In d' (ds1 ++ [d]) ->
              let '(cx, cy, cz) := targetCell (camera s) d' in
              JS.some (atCell cx cy cz) w = false) ->
  (let '(cx, cy, cz) := targetCell (camera s) d in atCell cx cy cz b = true) ->
  removeLoop fuel dist s =
  (removed s (List.length w) b, [Notify (BlockRemoved (block_type b))]).
Proof.
  intros W. revert dist ds1. induction fuel as [|fuel IH]; intros dist ds1 S E Hb; cbn in *.
  - now destruct ds1.
  - destruct (Rle_dec dist 5); [|now destruct ds1].
    assert (Hn : nth_error (world s) (List.length w) = Some b).
    { rewrite W, nth_error_app2 by lia. now rewrite Nat.sub_diag. }
    assert (F : forall cx cy cz, JS.some (atCell cx cy cz) w = false ->
                JS.findIndex (atCell cx cy cz) (world s) =
                if atCell cx cy cz b then Some (List.length w) else None).
    { intros cx cy cz H. rewrite W. apply findIndex_app_last.
      now apply findIndex_None. }
    destruct ds1 as [|d0 ds1]; cbn in S; inversion S; subst.
    + specialize (E d (or_introl eq_refl)).
      destruct (targetCell (camera s) d) as [[cx cy] cz].
      rewrite (F _ _ _ E), Hb, Hn. reflexivity.
    + pose proof (E d0 (or_introl eq_refl)) as E0.
      destruct (targetCell (camera s) d0) as [[cx cy] cz].
      rewrite (F _ _ _ E0).
      destruct (atCell cx cy cz b).
      * rewrite Hn. reflexivity.
      * apply (IH _ ds1); auto.
        intros d' Hd. apply E. now right.
Qed.

(** A block placed into free space comes back: when no sampled cell up to
    the placing distance holds a block, a successful left click followed by
    a right click from the same spot restores world and inventory, the two
    toasts being the placement and the removal of the selected type. *)
Theorem place_then_remove_restores (s : GameState) (n : Z)
    (Hlock : pointerLocked s = true)
    (Hstock : countOf (inventory s) (selectedBlock s) = Some n)
    (Hpos : (0 < n)%Z)
    (Hfree : forall d, In d [1; 3 / 2; 2; 5 / 2; 3] -> emptyAt s d) :
  let s1 := fst (handleCanvasClick 0 s) in
  let s2 := fst (handleContextMenu s1) in
  world s2 = world s /\ inventory s2 = inventory s /\
  notifications (snd (handleCanvasClick 0 s)) = [BlockPlaced (selectedBlock s)] /\
  notifications (snd (handleContextMenu s1)) = [BlockRemoved (selectedBlock s)].
Proof.
  cbn zeta. destruct (targetCell (camera s) 3) as [[cx cy] cz] eqn:T.
  assert (O : JS.some (atCell cx cy cz) (world s) = false).
  { specialize (Hfree 3). unfold emptyAt in Hfree. rewrite T in Hfree.
    apply Hfree. cbn. tauto. }
  rewrite (handleCanvasClick_placed s n cx cy cz Hlock Hstock Hpos T O). cbn [fst snd].
  set (b := mkBlock (selectedBlock s) cx cy cz).
  set (s1 := setInventory _ _).
  assert (R : removeLoop 10 1 s1 =
              (removed s1 (List.length (world s)) b,
               [Notify (BlockRemoved (block_type b))])).
  { apply (removeLoop_last 10 1 s1 (world s) b [1; 3 / 2; 2; 5 / 2] 3
             [7 / 2; 4; 9 / 2; 5]).
    - reflexivity.
    - rewrite samples_10. reflexivity.
    - intros d' Hd. apply (Hfree d'). cbn in Hd. cbn. tauto.
    - change (camera s1) with (camera s). rewrite T. unfold atCell, b. cbn.
      now rewrite !Z.eqb_refl. }
  unfold handleContextMenu. change (pointerLocked s1) with (pointerLocked s).
  rewrite Hlock, R. cbn [negb fst snd].
  split; [|split; [|split; reflexivity]].
  - cbn. apply filterIndexNot_last.
  - cbn. apply adjustCount_back.
Qed.

Lemma place_then_remove_restores_witness :
  let s := playing [mkBlock stone 15 4 18] initialInventory in
  world (fst (handleContextMenu (fst (handleCanvasClick 0 s)))) = world s /\
  inventory (fst (handleContextMenu (fst (handleCanvasClick 0 s)))) = inventory s.
Proof.
  cbn zeta. set (s := playing [mkBlock stone 15 4 18] initialInventory).
  assert (Hfree : forall d, In d [1; 3 / 2; 2; 5 / 2; 3] -> emptyAt s d).
  { intros d Hd. unfold emptyAt.
    assert (T : exists k, targetCell (camera s) d = (15, 5, k)%Z).
    { cbn in Hd. destruct Hd as [E|[E|[E|[E|[E|[]]]]]]; subst d.
      - exists 16%Z. apply targetCell_initial. lra.
      - exists 17%Z. apply targetCell_initial. lra.
      - exists 17%Z. apply targetCell_initial. lra.
      - exists 18%Z. apply targetCell_initial. lra.
      - exists 18%Z. apply targetCell_initial. lra. }
    destruct T as [k T]. rewrite T. reflexivity. }
  destruct (place_then_remove_restores s 64 eq_refl eq_refl ltac:(lia) Hfree)
    as (Hw & Hi & _).
  split; assumption.
Defined.

(** ** Counts and slots through a whole game *)

Lemma adjustCount_take_nonNegative t n inv :
  distinctSlots inv -> nonNegative inv ->
  countOf inv t = Some n -> (0 < n)%Z ->
  nonNegative (adjustCount t (-1) inv).
Proof.
  unfold distinctSlots, nonNegative.
  induction inv as [|i inv IH]; intros ND NN Hc Hn; [constructor|].
  inversion ND as [|? ? Hnotin ND']; subst. inversion NN as [|? ? Hi Hr]; subst.
  rewrite countOf_cons in Hc. cbn.
  destruct (BlockType_eqb (item_type i) t) eqn:E.
  - inversion Hc; subst n. constructor; [cbn; lia|].
    fold (adjustCount t (-1) inv). rewrite adjustCount_untracked; [assumption|].
    apply BlockType_eqb_eq in E. subst t.
    destruct (trackable inv (item_type i)) eqn:T; [|reflexivity].
    apply trackable_In in T. contradiction.
  - constructor; [assumption|]. now apply IH.
Qed.

Lemma adjustCount_give_nonNegative t inv :
  nonNegative inv -> nonNegative (adjustCount t 1 inv).
Proof.
  unfold nonNegative, adjustCount. intro NN. apply Forall_map.
  eapply Forall_impl; [|exact NN]. intros i Hi. cbn beta in *.
  destruct (BlockType_eqb (item_type i) t); cbn; lia.
Qed.

Lemma step_nonNegative e s :
  distinctSlots (inventory s) -> nonNegative (inventory s) ->
  (forall r, e = Craft r -> wellFormed r) ->
  nonNegative (inventory (fst (step e s))).
Proof.
  intros ND NN WF. destruct e as [button| |mx my|keys|r|t|b|b|b]; cbn [step fst]; auto.
  - destruct (handleCanvasClick_outcomes button s)
      as [H|[H|[H|(cx & cy & cz & n & _ & _ & Hc & Hn & _ & _ & H)]]];
      rewrite H; cbn; auto.
    now apply adjustCount_take_nonNegative with (n := n).
  - destruct (handleContextMenu_outcomes s) as [H|(d & i & b & _ & _ & _ & H)];
      rewrite H; cbn; auto. now apply adjustCount_give_nonNegative.
  - unfold handleMouseMove. now destruct (pointerLocked s && negb (showInventory s)).
  - unfold moveInterval. now destruct (showChat s || showInventory s).
  - unfold handleCraft. destruct (canCraft (inventory s) r) eqn:C; cbn; auto.
    apply craftUpdate_nonNegative; auto.
Qed.

(** From an inventory with one slot per type and no negative count, no
    sequence of places, removals, camera moves and crafts of recipes that
    ask for no type twice and yield a non-negative count ever makes a
    count negative. *)
Theorem counts_never_negative (s : GameState) (es : list Event)
    (Hslots : distinctSlots (inventory s))
    (Hcounts : nonNegative (inventory s))
    (Hrecipes : Forall (fun e => forall r, e = Craft r -> wellFormed r) es) :
  nonNegative (inventory (run es s)).
Proof.
  revert s Hslots Hcounts. induction es as [|e es IH]; intros s ND NN; cbn [run];
    [exact NN|].
  inversion Hrecipes as [|? ? He Hes]; subst.
  apply IH; [assumption| |].
  - unfold distinctSlots. rewrite step_slots. exact ND.
  - now apply step_nonNegative.
Qed.

Lemma counts_never_negative_witness :
  nonNegative
    (inventory (run [Craft (mkRecipe planks 4 [mkIngredient wood 1]); Click 0;
                     ContextMenu; Craft (mkRecipe stone 1 [mkIngredient cobblestone 1])]
                    (playing [] initialInventory))).
Proof.
  apply counts_never_negative.
  - unfold distinctSlots. cbn.
    repeat (constructor; [cbn; intuition discriminate|]). constructor.
  - unfold nonNegative. cbn. repeat (constructor; [cbn; lia|]). constructor.
  - pose proof recipes_wellFormed as WF. unfold recipes in WF.
    inversion WF as [|? ? W1 WF']; subst. inversion WF' as [|? ? W2 _]; subst.
    constructor; [intros r E; inversion E; subst; exact W1|].
    constructor; [intros r E; discriminate E|].
    constructor; [intros r E; discriminate E|].
    constructor; [intros r E; inversion E; subst; exact W2|]. constructor.
Defined.

(** No sequence of events - crafts of any recipe included - adds, drops,
    reorders or retypes an inventory slot: the types the inventory has a
    count for are those it started with. *)
Theorem slots_are_fixed (s : GameState) (es : list Event) :
  map item_type (inventory (run es s)) = map item_type (inventory s) /\
  List.length (inventory (run es s)) = List.length (inventory s) /\
  (forall t, countOf (inventory (run es s)) t = None <->
             countOf (inventory s) t = None).
Proof.
  pose proof (run_slots es s) as H. split; [exact H|]. split.
  - rewrite <- (length_map item_type), H. apply length_map.
  - intro t. rewrite !countOf_None, !trackable_types, H. reflexivity.
Qed.

(** ** The swing of the hand *)

Lemma PI_between : 3 < PI <= 33 / 10.
Proof.
  split.
  - pose proof PI2_3_2. lra.
  - pose proof (PI_ineq 3) as [_ H].
    unfold sum_f_R0, tg_alt, PI_tg in H. cbn in H. lra.
Qed.

Lemma swingInterval_rest s : isSwinging s = false -> swingInterval s = s.
Proof. unfold swingInterval. now intros ->. Qed.

(** While the phase is below PI, a tick advances it by 0.3 and touches
    nothing else. *)
Lemma swing_advances k s :
  isSwinging s = true ->
  handAnimation s + INR k * (3 / 10) < PI + 3 / 10 ->
  Nat.iter k swingInterval s =
  setHandAnimation (handAnimation s + INR k * (3 / 10)) s.
Proof.
  intros Hs. induction k as [|k IH]; intro H.
  - cbn. replace (handAnimation s + 0 * (3 / 10)) with (handAnimation s) by lra.
    now destruct s.
  - rewrite S_INR in H. rewrite Nat.iter_succ. rewrite IH by lra.
    unfold swingInterval, animate. cbn [isSwinging handAnimation setHandAnimation].
    rewrite Hs.
    replace (Rleb PI (handAnimation s + INR k * (3 / 10))) with false
      by (symmetry; apply Rleb_false; lra).
    rewrite S_INR. unfold setHandAnimation.
    cbn [world inventory selectedBlock camera handAnimation isSwinging
         pointerLocked showInventory showChat].
    f_equal. lra.
Qed.

(** Every click with the pointer captured starts a swing of exactly twelve
    ticks: for eleven ticks the hand is swinging with its phase at 0.3 per
    tick, the twelfth ends the swing with the phase back at 0, and the
    swing leaves world, inventory and camera alone. *)
Theorem swing_lasts_twelve_ticks (button : Z) (s0 : GameState)
    (Hlock : pointerLocked s0 = true) :
  let s := fst (handleCanvasClick button s0) in
  (forall k, (k <= 11)%nat ->
             isSwinging (Nat.iter k swingInterval s) = true /\
             handAnimation (Nat.iter k swingInterval s) = INR k * (3 / 10)) /\
  isSwinging (Nat.iter 12 swingInterval s) = false /\
  handAnimation (Nat.iter 12 swingInterval s) = 0 /\
  (forall k, (12 <= k)%nat -> Nat.iter k swingInterval s = Nat.iter 12 swingInterval s) /\
  (forall k, world (Nat.iter k swingInterval s) = world s /\
             inventory (Nat.iter k swingInterval s) = inventory s /\
             camera (Nat.iter k swingInterval s) = camera s).
Proof.
  cbn zeta. set (s := fst (handleCanvasClick button s0)).
  assert (Hs : isSwinging s = true /\ handAnimation s = 0).
  { unfold s. destruct (handleCanvasClick_outcomes button s0)
      as [H|[H|[H|(cx & cy & cz & n & _ & _ & _ & _ & _ & _ & H)]]];
      rewrite H; cbn; auto.
    unfold handleCanvasClick in H. rewrite Hlock in H. cbn [negb] in H.
    exfalso. destruct (button =? 0)%Z;
      [destruct (match findItem (selectedBlock s0) (inventory s0) with
                 | Some item => (count item >? 0)%Z | None => false end);
       [destruct (targetCell (camera s0) 3) as [[cx cy] cz];
        destruct (negb (JS.some (atCell cx cy cz) (world s0)))|]|];
      inversion H. }
  destruct Hs as [Hs H0]. pose proof PI_between as [P1 P2].
  assert (A : forall k, (k <= 11)%nat ->
              Nat.iter k swingInterval s = setHandAnimation (INR k * (3 / 10)) s).
  { intros k Hk. rewrite (swing_advances k s Hs).
    - now rewrite H0, Rplus_0_l.
    - rewrite H0. apply le_INR in Hk. cbn in Hk. lra. }
  assert (E : Nat.iter 12 swingInterval s = setHandAnimation 0 (setIsSwinging false s)).
  { change (Nat.iter 12 swingInterval s)
      with (swingInterval (Nat.iter 11 swingInterval s)).
    rewrite (A 11%nat) by lia. unfold swingInterval, animate.
    cbn [isSwinging handAnimation setHandAnimation]. rewrite Hs.
    replace (Rleb PI (INR 11 * (3 / 10))) with true
      by (symmetry; apply Rleb_true; cbn; lra).
    reflexivity. }
  assert (F : forall k, (12 <= k)%nat ->
              Nat.iter k swingInterval s = Nat.iter 12 swingInterval s).
  { intros k Hk. induction Hk as [|k Hk IH]; [reflexivity|].
    rewrite Nat.iter_succ, IH, E. apply swingInterval_rest. reflexivity. }
  split; [|split; [|split; [|split]]].
  - intros k Hk. rewrite (A k Hk). cbn. auto.
  - rewrite E. reflexivity.
  - rewrite E. reflexivity.
  - exact F.
  - intro k. destruct (le_lt_dec 12 k) as [Hk|Hk].
    + rewrite (F k Hk), E. cbn. auto.
    + rewrite (A k) by lia. cbn. auto.
Qed.

Lemma swing_lasts_twelve_ticks_witness :
  isSwinging (Nat.iter 12 swingInterval
                (fst (handleCanvasClick 0 (playing [] initialInventory)))) = false.
Proof.
  exact (proj1 (proj2 (swing_lasts_twelve_ticks 0 (playing [] initialInventory) eq_refl))).
Defined.

(** ** Keys that cancel *)

(** Inside the bounds, a tick with opposite keys held in pairs leaves the
    camera where it is, up to the rounding of the additions and
    subtractions: no coordinate moves by more than [tolerance], and pitch
    and yaw are untouched.  With no key held at all nothing is added, and
    the camera is exactly what it was. *)
Theorem opposite_keys_cancel (keys : list string) (c : Camera)
    (Hin : inBounds c)
    (Hws : has keys "w" = has keys "s")
    (Had : has keys "a" = has keys "d")
    (Hud : has keys " " = has keys "shift") :
  let c' := moveCamera keys c in
  Rabs (cam_x c' - cam_x c) <= tolerance /\
  Rabs (cam_y c' - cam_y c) <= tolerance /\
  Rabs (cam_z c' - cam_z c) <= tolerance /\
  pitch c' = pitch c /\ yaw c' = yaw c /\
  ((forall k, has keys k = false) -> c' = c).
Proof.
  assert (T : 0 <= tolerance) by (unfold tolerance; lra).
  assert (E : moveCamera keys c = c).
  { destruct c as [x y z p yw]. unfold inBounds in Hin. cbn in Hin.
    destruct Hin as ((X1 & X2) & (Z1 & Z2) & (Y1 & Y2)).
    unfold moveCamera. cbn [cam_x cam_y cam_z pitch yaw].
    rewrite Hws, Had, Hud.
    unfold JS.Math_max, JS.Math_min, WORLD_SIZE in *. cbn [Z.sub Z.pos_sub Z.add] in *.
    destruct (has keys "s"), (has keys "d"), (has keys "shift"); cbn;
      f_equal;
      match goal with
      | |- Rmax ?lo (Rmin ?hi ?v) = ?t =>
          replace v with t by lra; rewrite Rmin_right by lra; apply Rmax_right; lra
      end. }
  cbv zeta. rewrite E.
  replace (cam_x c - cam_x c) with 0 by ring.
  replace (cam_y c - cam_y c) with 0 by ring.
  replace (cam_z c - cam_z c) with 0 by ring.
  rewrite Rabs_R0. repeat split; auto.
Qed.

Lemma opposite_keys_cancel_witness :
  Rabs (cam_x (moveCamera ["w"%string; "s"%string; "d"%string; "a"%string] initialCamera)
        - cam_x initialCamera) <= tolerance.
Proof.
  apply opposite_keys_cancel; try reflexivity.
  unfold inBounds, initialCamera, WORLD_SIZE. cbn. lra.
Defined.

(** ** The layered terrain of the earlier page *)

Lemma Qfloor_unit_times_3 (r : Q) :
  (0 <= r)%Q -> (r < 1)%Q -> (0 <= Qfloor (r * 3) <= 2)%Z.
Proof.
  intros H0 H1. split.
  - change 0%Z with (Qfloor 0). apply Qfloor_resp_le.
    rewrite <- (Qmult_0_l 3). apply Qmult_le_compat_r; [assumption|discriminate].
  - assert (H : (Qfloor (r * 3) < 3)%Z).
    { rewrite Zlt_Qlt. eapply Qle_lt_trans; [apply Qfloor_le|].
      change (inject_Z 3) with (1 * 3)%Q. apply Qmult_lt_compat_r; [reflexivity|assumption]. }
    lia.
Qed.

(** The shape of one column, read off its two draws. *)
Lemma column_shape (x z : Z) (rs : RandomSource)
    (Hlo : (0 <= draws rs (position rs))%Q)
    (Hhi : (draws rs (position rs) < 1)%Q) :
  exists h : Z,
    h = (Qfloor (draws rs (position rs) * 3) + 4)%Z /\ (4 <= h <= 6)%Z /\
    fst (LegacyTerrain.column x z rs) =
      map (fun y => mkBlock stone x y z) (range 0 (h - 3))
      ++ [mkBlock dirt x (h - 3) z; mkBlock dirt x (h - 2) z; mkBlock grass x (h - 1) z]
      ++ (if negb (Qle_bool (draws rs (S (position rs))) (85 # 100))
          then map (fun t => mkBlock wood x (h + t) z) (range 0 4)
          else []) /\
    position (snd (LegacyTerrain.column x z rs)) = S (S (position rs)) /\
    draws (snd (LegacyTerrain.column x z rs)) = draws rs.
Proof.
  pose proof (Qfloor_unit_times_3 _ Hlo Hhi) as Hf.
  exists (Qfloor (draws rs (position rs) * 3) + 4)%Z.
  split; [reflexivity|]. split; [lia|].
  unfold LegacyTerrain.column, bind, Math_random, ret. cbn [draws position fst snd].
  set (f := Qfloor (draws rs (position rs) * 3)) in *.
  set (tree := negb (Qle_bool (draws rs (S (position rs))) (85 # 100))).
  assert (G : (f + 4 >=? 4)%Z = true) by (apply Z.geb_le; lia).
  rewrite G, andb_true_r.
  assert (C : f = 0%Z \/ f = 1%Z \/ f = 2%Z) by lia.
  destruct C as [C|[C|C]]; rewrite C; destruct tree; cbn; auto.
Qed.

(** Every column is a gap-free stack from y = 0: stone, then two dirt, then
    grass on top at a height [h] of 4, 5 or 6, with a trunk of four wood
    above the grass when the second draw exceeds 0.85; it takes two draws.
    The height is 4 plus the floor of three times the first draw, the
    product being rounded before the floor is taken: [h - 4] is at most
    that product, within a rounding, and [h - 3] is above it. *)
Theorem terrain_column_shape (x z : Z) (rs : RandomSource)
    (Hlo : (0 <= draws rs (position rs))%Q)
    (Hhi : (draws rs (position rs) < 1)%Q) :
  exists h : Z,
    (4 <= h <= 6)%Z /\
    (inject_Z (h - 4) - (1 # 1000000) <= draws rs (position rs) * 3)%Q /\
    (draws rs (position rs) * 3 < inject_Z (h - 3))%Q /\
    fst (LegacyTerrain.column x z rs) =
      map (fun y => mkBlock stone x y z) (range 0 (h - 3))
      ++ [mkBlock dirt x (h - 3) z; mkBlock dirt x (h - 2) z; mkBlock grass x (h - 1) z]
      ++ (if negb (Qle_bool (draws rs (S (position rs))) (85 # 100))
          then map (fun t => mkBlock wood x (h + t) z) (range 0 4)
          else []) /\
    position (snd (LegacyTerrain.column x z rs)) = S (S (position rs)) /\
    draws (snd (LegacyTerrain.column x z rs)) = draws rs.
Proof.
  destruct (column_shape x z rs Hlo Hhi) as (h & Eh & Hh & Hb & Hp & Hd).
  exists h. split; [exact Hh|]. split; [|split; [|auto]].
  - replace (h - 4)%Z with (Qfloor (draws rs (position rs) * 3)) by lia.
    apply Qle_trans with (inject_Z (Qfloor (draws rs (position rs) * 3))).
    + rewrite <- (Qplus_0_r (inject_Z (Qfloor (draws rs (position rs) * 3)))) at 2.
      apply Qplus_le_r. discriminate.
    + apply Qfloor_le.
  - replace (h - 3)%Z with (Qfloor (draws rs (position rs) * 3) + 1)%Z by lia.
    apply Qlt_floor.
Qed.

Lemma terrain_column_shape_witness :
  exists h : Z,
    (4 <= h <= 6)%Z /\
    position (snd (LegacyTerrain.column 3 7 nines)) = 2%nat.
Proof.
  destruct (terrain_column_shape 3 7 nines) as (h & Hh & _ & _ & _ & Hp & _).
  - discriminate.
  - reflexivity.
  - exists h. split; [exact Hh|exact Hp].
Defined.

Lemma column_facts x z rs :
  fair rs -> (0 <= x < 16)%Z -> (0 <= z < 16)%Z ->
  fair (snd (LegacyTerrain.column x z rs)) /\
  position (snd (LegacyTerrain.column x z rs)) = (2 + position rs)%nat /\
  Forall (fun b => (0 <= block_x b < 16)%Z /\ (0 <= block_z b < 16)%Z /\
                   (0 <= block_y b <= 9)%Z /\ block_type b <> air)
         (fst (LegacyTerrain.column x z rs)) /\
  (4 <= List.length (fst (LegacyTerrain.column x z rs)) <= 10)%nat.
Proof.
  intros F Hx Hz. destruct (F (position rs)) as [Hlo Hhi].
  destruct (column_shape x z rs Hlo Hhi) as (h & Eh & Hh & Hb & Hp & Hd).
  split; [|split; [|split]].
  - intro n. rewrite Hd. apply F.
  - rewrite Hp. reflexivity.
  - rewrite Hb. clear Hb Eh.
    assert (C : h = 4%Z \/ h = 5%Z \/ h = 6%Z) by lia.
    destruct C as [C|[C|C]]; subst h;
      destruct (negb (Qle_bool (draws rs (S (position rs))) (85 # 100))); cbn;
      repeat (constructor; [cbn; repeat split; try lia; discriminate|]);
      constructor.
  - rewrite Hb. clear Hb Eh.
    assert (C : h = 4%Z \/ h = 5%Z \/ h = 6%Z) by lia.
    destruct C as [C|[C|C]]; subst h;
      destruct (negb (Qle_bool (draws rs (S (position rs))) (85 # 100)));
      unfold range; rewrite ?length_app, ?length_map, ?length_seq;
      cbn [List.length]; rewrite ?length_map, ?length_seq; lia.
Qed.

(** A loop over [l] whose body keeps the source fair, takes [k] draws and
    pushes between [lo] and [hi] blocks that satisfy [P] does so [length l]
    times. *)
Lemma forRand_facts {A : Type} (P : Block -> Prop) (k lo hi : nat)
    (l : list A) (body : A -> Rand (list Block)) :
  (forall a rs, In a l -> fair rs ->
     fair (snd (body a rs)) /\
     position (snd (body a rs)) = (k + position rs)%nat /\
     Forall P (fst (body a rs)) /\
     (lo <= List.length (fst (body a rs)) <= hi)%nat) ->
  forall rs, fair rs ->
    fair (snd (forRand l body rs)) /\
    position (snd (forRand l body rs)) = (List.length l * k + position rs)%nat /\
    Forall P (fst (forRand l body rs)) /\
    (List.length l * lo <= List.length (fst (forRand l body rs)) <= List.length l * hi)%nat.
Proof.
  induction l as [|a l IH]; intros H rs F.
  - cbn. split; [assumption|]. split; [reflexivity|]. split; [constructor|lia].
  - cbn [forRand]. unfold bind, ret.
    destruct (H a rs (or_introl eq_refl) F) as (F1 & P1 & B1 & L1).
    destruct (body a rs) as [bs rs1] eqn:E1. cbn [fst snd] in *.
    destruct (IH (fun a' rs' Hin => H a' rs' (or_intror Hin)) rs1 F1)
      as (F2 & P2 & B2 & L2).
    destruct (forRand l body rs1) as [rest rs2] eqn:E2. cbn [fst snd] in *.
    split; [assumption|]. split; [cbn; lia|]. split.
    + apply Forall_app. split; assumption.
    + rewrite length_app. cbn [List.length]. lia.
Qed.

Lemma range_In lo n v : In v (range lo n) -> (lo <= v < lo + n)%Z.
Proof.
  unfold range. intro H. apply in_map_iff in H as (i & E & Hi).
  apply in_seq in Hi. lia.
Qed.

(** Whatever the draws, the generated terrain takes exactly 512 of them,
    holds between 1024 and 2560 blocks, none of them air, and every block
    lies in the 16 x 16 footprint at a height between 0 and 9. *)
Theorem terrain_in_bounds (s : GameState) (rs : RandomSource) (Hfair : fair rs) :
  let w := world (fst (LegacyTerrain.generateWorld s rs)) in
  position (snd (LegacyTerrain.generateWorld s rs)) = (512 + position rs)%nat /\
  (1024 <= List.length w <= 2560)%nat /\
  Forall (fun b => (0 <= block_x b < 16)%Z /\ (0 <= block_z b < 16)%Z /\
                   (0 <= block_y b <= 9)%Z /\ block_type b <> air) w.
Proof.
  cbn zeta. unfold LegacyTerrain.generateWorld, bind, ret.
  pose proof (forRand_facts
    (fun b => (0 <= block_x b < 16)%Z /\ (0 <= block_z b < 16)%Z /\
              (0 <= block_y b <= 9)%Z /\ block_type b <> air)
    32 64 160 (range 0 LegacyTerrain.WORLD_SIZE)
    (fun x => forRand (range 0 LegacyTerrain.WORLD_SIZE)
                      (fun z => LegacyTerrain.column x z))) as H.
  destruct (H (fun x rs' Hx F' =>
    forRand_facts _ 2 4 10 (range 0 LegacyTerrain.WORLD_SIZE)
      (fun z => LegacyTerrain.column x z)
      (fun z rs'' Hz F'' =>
         column_facts x z rs'' F'' (range_In _ _ _ Hx) (range_In _ _ _ Hz))
      rs' F') rs Hfair) as (_ & Hp & Hb & Hl).
  destruct (forRand _ _ rs) as [blocks rs'].
  assert (L : List.length (range 0 LegacyTerrain.WORLD_SIZE) = 16%nat) by reflexivity.
  rewrite L in Hp, Hl.
  cbn [fst snd world setWorld] in *. repeat split; auto; lia.
Qed.

Lemma terrain_in_bounds_witness :
  position (snd (LegacyTerrain.generateWorld (playing [] []) nines)) = 512%nat.
Proof.
  apply (proj1 (terrain_in_bounds (playing [] []) nines
                  (fun n => conj (ltac:(discriminate) : (0 <= 9 # 10)%Q)
                                 (eq_refl : (9 # 10 < 1)%Q)))).
Defined.

(** ** Houses *)


Lemma range_In_iff lo n v : In v (range lo n) <-> (lo <= v < lo + n)%Z.
Proof.
  split; [apply range_In|]. intro H. unfold range. apply in_map_iff.
  exists (Z.to_nat (v - lo)). split; [lia|]. apply in_seq. lia.
Qed.


(** The three parts of a house: the wall layers, the roof, the doorway. *)
Lemma buildHouse_parts startX startZ width depth height :
  buildHouse startX startZ width depth height =
  flat_map (fun y =>
    flat_map (fun x =>
      [ mkBlock planks x y startZ; mkBlock planks x y (startZ + depth - 1) ])
      (range startX width)
    ++
    flat_map (fun z =>
      [ mkBlock planks startX y z; mkBlock planks (startX + width - 1) y z ])
      (range startZ depth))
    (range 1 height)
  ++
  (flat_map (fun x =>
     flat_map (fun z => [ mkBlock wood x (height + 1) z ]) (range startZ depth))
     (range startX width)
   ++
   [ mkBlock air (startX + width / 2) 1 startZ;
     mkBlock air (startX + width / 2) 2 startZ ]).
Proof. reflexivity. Qed.



Lemma findIndex_app_first {A : Type} (p : A -> bool) l1 l2 :
  JS.some p l1 = true ->
  exists i a, JS.findIndex p (l1 ++ l2) = Some i /\
              nth_error (l1 ++ l2) i = Some a /\ In a l1 /\ p a = true.
Proof.
  induction l1 as [|b l1 IH]; cbn; intro H; [discriminate|].
  destruct (p b) eqn:Pb.
  - exists O, b. cbn. auto.
  - cbn in H. destruct (IH H) as (i & a & F & N & Hin & Pa).
    exists (S i), a. rewrite F. cbn. auto.
Qed.

Lemma filter_count_In {A : Type} (p : A -> bool) l a :
  In a l -> p a = true -> (1 <= List.length (filter p l))%nat.
Proof.
  intros Hin Pa. assert (H : In a (filter p l)) by (apply filter_In; auto).
  destruct (filter p l); [contradiction|cbn; lia].
Qed.

Lemma uniqueCells_count w cx cy cz :
  uniqueCells w -> (List.length (filter (atCell cx cy cz) w) <= 1)%nat.
Proof.
  unfold uniqueCells. induction w as [|b w IH]; cbn; intro ND; [lia|].
  inversion ND as [|? ? Hnotin ND']; subst.
  destruct (atCell cx cy cz b) eqn:E; [|now apply IH].
  cbn. apply atCell_cellOf in E.
  assert (F : filter (atCell cx cy cz) w = []).
  { destruct (filter (atCell cx cy cz) w) as [|b' l] eqn:Ef; [reflexivity|].
    assert (Hin : In b' (filter (atCell cx cy cz) w)) by (rewrite Ef; now left).
    apply filter_In in Hin as [Hin Hb']. apply atCell_cellOf in Hb'.
    exfalso. apply Hnotin. rewrite E, <- Hb'. now apply in_map. }
  rewrite F. cbn. lia.
Qed.

(** A house shares cells.  Each of the four corner cells of every wall
    layer holds at least two planks blocks, one from the loop over x and
    one from the loop over z, so no world that contains a house has unique
    cells; and the doorway is not carved: the air markers are pushed after
    the wall, so the first block found in a doorway cell within the wall's
    height is still the planks block of the wall. *)
Theorem buildHouse_shares_cells (startX startZ width depth height : Z)
    (Hw : (0 < width)%Z) (Hd : (0 < depth)%Z) (Hh : (0 < height)%Z) :
  let house := buildHouse startX startZ width depth height in
  (forall y cx cz,
     (1 <= y <= height)%Z ->
     (cx = startX \/ cx = startX + width - 1)%Z ->
     (cz = startZ \/ cz = startZ + depth - 1)%Z ->
     (2 <= List.length
             (filter (fun b => atCell cx y cz b && BlockType_eqb (block_type b) planks)
                     house))%nat) /\
  (forall y, (y = 1 \/ y = 2)%Z ->
     In (mkBlock air (startX + width / 2) y startZ) house /\
     ((y <= height)%Z ->
      exists i, JS.findIndex (atCell (startX + width / 2) y startZ) house = Some i /\
                nth_error house i = Some (mkBlock planks (startX + width / 2) y startZ))) /\
  (forall before after, ~ uniqueCells (before ++ house ++ after)).
Proof.
  cbn zeta.
  assert (Hdoor : (0 <= width / 2 < width)%Z).
  { split; [apply Z.div_pos; lia|apply Z.div_lt_upper_bound; lia]. }
  assert (C : forall (p : Block -> bool) y cx cz,
              (1 <= y <= height)%Z ->
              (cx = startX \/ cx = startX + width - 1)%Z ->
              (cz = startZ \/ cz = startZ + depth - 1)%Z ->
              p (mkBlock planks cx y cz) = true ->
              (2 <= List.length (filter p (buildHouse startX startZ width depth height)))%nat).
  { intros p y cx cz Hy Hcx Hcz Hp. rewrite buildHouse_parts, filter_app, length_app.
    assert (Hin : In y (range 1 height)) by (apply range_In_iff; lia).
    apply in_split in Hin as (l1 & l2 & E). rewrite E, flat_map_app.
    cbn [flat_map]. rewrite !filter_app, !length_app.
    assert (A1 : (1 <= List.length (filter p
                   (flat_map (fun x => [mkBlock planks x y startZ;
                                        mkBlock planks x y (startZ + depth - 1)])
                             (range startX width))))%nat).
    { apply filter_count_In with (a := mkBlock planks cx y cz); [|exact Hp].
      apply in_flat_map. exists cx. split; [apply range_In_iff; lia|].
      destruct Hcz as [-> | ->]; [now left|right; now left]. }
    assert (A2 : (1 <= List.length (filter p
                   (flat_map (fun z => [mkBlock planks startX y z;
                                        mkBlock planks (startX + width - 1) y z])
                             (range startZ depth))))%nat).
    { apply filter_count_In with (a := mkBlock planks cx y cz); [|exact Hp].
      apply in_flat_map. exists cz. split; [apply range_In_iff; lia|].
      destruct Hcx as [-> | ->]; [now left|right; now left]. }
    lia. }
  split; [|split].
  - intros y cx cz Hy Hcx Hcz. apply (C _ y cx cz Hy Hcx Hcz).
    unfold atCell. cbn. now rewrite !Z.eqb_refl.
  - intros y Hy. split.
    + rewrite buildHouse_parts. apply in_or_app. right. apply in_or_app. right.
      destruct Hy; subst y; cbn; auto.
    + intro Hle. rewrite buildHouse_parts.
      set (walls := flat_map _ (range 1 height)).
      destruct (findIndex_app_first (atCell (startX + width / 2) y startZ) walls
                  (flat_map (fun x =>
                     flat_map (fun z => [ mkBlock wood x (height + 1) z ])
                              (range startZ depth)) (range startX width)
                   ++ [ mkBlock air (startX + width / 2) 1 startZ;
                        mkBlock air (startX + width / 2) 2 startZ ]))
        as (i & b & F & N & Hin & Pb).
      * apply existsb_exists. exists (mkBlock planks (startX + width / 2) y startZ).
        split; [|unfold atCell; cbn; now rewrite !Z.eqb_refl].
        apply in_flat_map. exists y. split; [apply range_In_iff; lia|].
        apply in_or_app. left. apply in_flat_map. exists (startX + width / 2)%Z.
        split; [apply range_In_iff; lia|now left].
      * exists i. split; [exact F|]. rewrite N. f_equal.
        assert (T : block_type b = planks).
        { apply in_flat_map in Hin as (y' & _ & Hin).
          apply in_app_or in Hin as [Hin|Hin];
            apply in_flat_map in Hin as (v & _ & Hin);
            cbn in Hin; destruct Hin as [E|[E|[]]]; now subst b. }
        apply atCell_cellOf in Pb. destruct b as [t bx by_ bz].
        cbn in T. unfold cellOf in Pb. cbn in Pb. inversion Pb. now subst.
  - intros before after U.
    pose proof (C (atCell startX 1 startZ) 1%Z startX startZ ltac:(lia)
                  (or_introl eq_refl) (or_introl eq_refl)) as H1.
    assert (P : atCell startX 1 startZ (mkBlock planks startX 1 startZ) = true)
      by (unfold atCell; cbn; now rewrite !Z.eqb_refl).
    specialize (H1 P).
    pose proof (uniqueCells_count _ startX 1%Z startZ U) as H2.
    rewrite !filter_app, !length_app in H2. lia.
Qed.

Lemma buildHouse_shares_cells_witness :
  ~ uniqueCells (flatBase ++ buildHouse 14 14 6 6 4 ++ plaza).
Proof.
  exact (proj2 (proj2 (buildHouse_shares_cells 14 14 6 6 4 eq_refl eq_refl eq_refl))
           flatBase plaza).
Defined.

(** ** Hunger and health *)

Lemma Reqb_true (a b : R) : Reqb a b = true <-> a = b.
Proof. unfold Reqb. destruct (Req_dec_T a b); split; intros; auto; discriminate. Qed.

Lemma Reqb_false (a b : R) : Reqb a b = false <-> a <> b.
Proof.
  unfold Reqb. destruct (Req_dec_T a b); split; intros; auto; try discriminate.
  contradiction.
Qed.

Lemma INR_le_Z (n : nat) (k : Z) : (Z.of_nat n <= k)%Z -> INR n <= IZR k.
Proof. intro H. rewrite INR_IZR_INZ. now apply IZR_le. Qed.

Lemma INR_ge_Z (n : nat) (k : Z) : (k <= Z.of_nat n)%Z -> IZR k <= INR n.
Proof. intro H. rewrite INR_IZR_INZ. now apply IZR_le. Qed.

(** While more than half a point of hunger is left, only the hunger drops. *)
Lemma hungerUpdate_fed hu hl :
  1 / 2 < hu -> hungerUpdate hu hl = (hu - 1 / 2, hl).
Proof.
  intro H. unfold hungerUpdate, JS.Math_max. cbn zeta.
  rewrite Rmax_right by lra.
  replace (Reqb (hu - 1 / 2) 0) with false by (symmetry; apply Reqb_false; lra).
  reflexivity.
Qed.

(** With at most half a point left, hunger is 0 and a point of health goes. *)
Lemma hungerUpdate_starving hu hl :
  hu <= 1 / 2 -> hungerUpdate hu hl = (0, Rmax 0 (hl - 1)).
Proof.
  intro H. unfold hungerUpdate, JS.Math_max. cbn zeta.
  rewrite Rmax_left by lra.
  replace (Reqb 0 0) with true by (symmetry; now apply Reqb_true).
  reflexivity.
Qed.

Lemma hungerTick_fed mode sv hl hu :
  mode = survival \/ mode = hardcore \/ mode = adventure ->
  1 / 2 < hu -> hl <> 0 ->
  hungerTick (mkVitals mode sv hl hu) = mkVitals mode sv hl (hu - 1 / 2).
Proof.
  intros M H Hl. unfold hungerTick, hungerInterval, deathEffect.
  cbn [gameMode hunger health selectedServer].
  destruct M as [M|[M|M]]; subst mode; rewrite hungerUpdate_fed by assumption;
    cbn [gameMode hunger health selectedServer];
    replace (Reqb hl 0) with false by (symmetry; now apply Reqb_false);
    reflexivity.
Qed.

Lemma hungerTick_starving mode sv hl hu :
  mode = survival \/ mode = hardcore \/ mode = adventure ->
  hu <= 1 / 2 -> 1 < hl ->
  hungerTick (mkVitals mode sv hl hu) = mkVitals mode sv (hl - 1) 0.
Proof.
  intros M H Hl. unfold hungerTick, hungerInterval, deathEffect.
  cbn [gameMode hunger health selectedServer].
  destruct M as [M|[M|M]]; subst mode; rewrite hungerUpdate_starving by assumption;
    cbn [gameMode hunger health selectedServer];
    rewrite Rmax_right by lra;
    replace (Reqb (hl - 1) 0) with false by (symmetry; apply Reqb_false; lra);
    reflexivity.
Qed.

Lemma hungerTick_last mode sv hl hu :
  mode = survival \/ mode = hardcore \/ mode = adventure ->
  hu <= 1 / 2 -> hl <= 1 ->
  hungerTick (mkVitals mode sv hl hu) =
  mkVitals (match mode with hardcore => menu | _ => mode end) sv 0 0.
Proof.
  intros M H Hl. unfold hungerTick, hungerInterval, deathEffect.
  cbn [gameMode hunger health selectedServer].
  destruct M as [M|[M|M]]; subst mode; rewrite hungerUpdate_starving by assumption;
    cbn [gameMode hunger health selectedServer];
    rewrite Rmax_left by lra;
    replace (Reqb 0 0) with true by (symmetry; now apply Reqb_true);
    reflexivity.
Qed.

Lemma hungerTick_dead mode sv :
  mode <> hardcore ->
  hungerTick (mkVitals mode sv 0 0) = mkVitals mode sv 0 0.
Proof.
  intro M. unfold hungerTick, hungerInterval, deathEffect.
  cbn [gameMode hunger health selectedServer].
  destruct mode; try contradiction;
    try rewrite hungerUpdate_starving by lra;
    cbn [gameMode hunger health selectedServer fst andb];
    rewrite ?Rmax_left by lra; rewrite ?andb_false_r; reflexivity.
Qed.

(** The schedule of a game started in a mode with hunger.  For the first
    200 periods of 3 s the hunger falls by half a point per period and the
    health stays at 100; from the 200th period on each period costs a
    point of health; the 299th takes the last one.  In hardcore that
    period ends the game - the mode is the menu from then on - and in the
    other modes the player stays at health 0. *)
Theorem hunger_schedule (mode : GameMode) (v : Vitals)
    (Hmode : mode = survival \/ mode = hardcore \/ mode = adventure) :
  let v0 := fst (startGame mode v) in
  (forall n, (n <= 199)%nat ->
     Nat.iter n hungerTick v0 =
     mkVitals mode (selectedServer v) 100 (100 - INR n / 2)) /\
  (forall n, (200 <= n <= 298)%nat ->
     Nat.iter n hungerTick v0 =
     mkVitals mode (selectedServer v) (299 - INR n) 0) /\
  (forall n, (299 <= n)%nat ->
     Nat.iter n hungerTick v0 =
     mkVitals (match mode with hardcore => menu | _ => mode end)
              (selectedServer v) 0 0).
Proof.
  cbn zeta. unfold startGame. cbn [fst]. set (sv := selectedServer v).
  assert (A : forall n, (n <= 199)%nat ->
              Nat.iter n hungerTick (mkVitals mode sv 100 100) =
              mkVitals mode sv 100 (100 - INR n / 2)).
  { induction n as [|n IH]; intro Hn.
    - cbn. f_equal. lra.
    - rewrite Nat.iter_succ, IH by lia.
      pose proof (INR_le_Z n 198 ltac:(lia)). pose proof (pos_INR n).
      rewrite hungerTick_fed by (auto; lra). rewrite S_INR. f_equal. lra. }
  assert (B : forall n, (200 <= n <= 298)%nat ->
              Nat.iter n hungerTick (mkVitals mode sv 100 100) =
              mkVitals mode sv (299 - INR n) 0).
  { induction n as [|n IH]; intro Hn; [lia|].
    rewrite Nat.iter_succ. destruct (Nat.eq_dec n 199) as [E|E].
    - subst n. rewrite A by lia.
      replace (INR 199) with 199 by (rewrite INR_IZR_INZ; reflexivity).
      replace (INR 200) with 200 by (rewrite INR_IZR_INZ; reflexivity).
      rewrite hungerTick_starving by (auto; lra). f_equal. lra.
    - rewrite IH by lia.
      pose proof (INR_le_Z n 297 ltac:(lia)).
      rewrite hungerTick_starving by (auto; lra). rewrite S_INR. f_equal. lra. }
  split; [exact A|]. split; [exact B|].
  intros n Hn. induction Hn as [|n Hn IH].
  - rewrite Nat.iter_succ, B by lia.
    replace (INR 298) with 298 by (rewrite INR_IZR_INZ; reflexivity).
    rewrite hungerTick_last by (auto; lra). reflexivity.
  - rewrite Nat.iter_succ, IH. destruct Hmode as [M|[M|M]]; subst mode.
    + apply hungerTick_dead. discriminate.
    + apply hungerTick_dead. discriminate.
    + apply hungerTick_dead. discriminate.
Qed.

Lemma hunger_schedule_witness :
  gameMode (Nat.iter 299 hungerTick
              (fst (startGame hardcore (mkVitals menu None 100 100)))) = menu /\
  gameMode (Nat.iter 298 hungerTick
              (fst (startGame hardcore (mkVitals menu None 100 100)))) = hardcore.
Proof.
  destruct (hunger_schedule hardcore (mkVitals menu None 100 100)
              (or_intror (or_introl eq_refl))) as (_ & B & C).
  split.
  - rewrite (C 299%nat) by lia. reflexivity.
  - rewrite (B 298%nat) by lia. reflexivity.
Defined.

(** In the modes without hunger the interval does not exist, and health
    and hunger never change, whatever they are. *)
Lemma hungerInterval_idle v :
  gameMode v = creative \/ gameMode v = pvp \/ gameMode v = menu \/ gameMode v = servers ->
  hungerInterval v = v.
Proof. unfold hungerInterval. intros [H|[H|[H|H]]]; now rewrite H. Qed.

(** ** Companions *)

Lemma fair_Q2R rs n : fair rs -> 0 <= Q2R (draws rs n) < 1.
Proof.
  intro F. destruct (F n) as [H0 H1]. split.
  - replace 0 with (Q2R 0) by (unfold Q2R; cbn; lra). now apply Qle_Rle.
  - replace 1 with (Q2R 1) by (unfold Q2R; cbn; lra). now apply Qlt_Rlt.
Qed.

Lemma Rltb_false (a b : R) : Rltb a b = false <-> b <= a.
Proof. unfold Rltb. destruct (Rlt_dec a b); split; intros; try discriminate; lra. Qed.

(** A companion half a cell or more from its target takes a step of 0.05
    straight towards it: the distance to the target shrinks by exactly
    0.05, height and target stay, and no random number is drawn.  A
    companion closer than half a cell stays where it is and draws a new
    target, each coordinate being 2.5 plus 25 times the next draw. *)
Theorem bot_step (bot : Bot) (rs : RandomSource) :
  (1 / 2 <= toTarget bot ->
   let bot' := fst (botUpdate bot rs) in
   toTarget bot' = toTarget bot - 5 / 100 /\
   bot_y bot' = bot_y bot /\
   targetX bot' = targetX bot /\ targetZ bot' = targetZ bot /\
   snd (botUpdate bot rs) = rs) /\
  (toTarget bot < 1 / 2 ->
   let bot' := fst (botUpdate bot rs) in
   bot_x bot' = bot_x bot /\ bot_y bot' = bot_y bot /\ bot_z bot' = bot_z bot /\
   targetX bot' = Q2R (draws rs (position rs)) * 25 + 25 / 10 /\
   targetZ bot' = Q2R (draws rs (S (position rs))) * 25 + 25 / 10 /\
   position (snd (botUpdate bot rs)) = S (S (position rs))).
Proof.
  unfold toTarget, botUpdate. cbn zeta.
  set (dx := targetX bot - bot_x bot). set (dz := targetZ bot - bot_z bot).
  set (d := sqrt (dx * dx + dz * dz)). split; intro H; cbn zeta.
  - replace (Rltb d (1 / 2)) with false by (symmetry; apply Rltb_false; lra).
    unfold ret. cbn [fst snd bot_x bot_y bot_z targetX targetZ].
    split; [|auto].
    replace ((targetX bot - (bot_x bot + dx / d * (5 / 100))) *
             (targetX bot - (bot_x bot + dx / d * (5 / 100))) +
             (targetZ bot - (bot_z bot + dz / d * (5 / 100))) *
             (targetZ bot - (bot_z bot + dz / d * (5 / 100))))
      with ((dx * dx + dz * dz) * ((1 - 5 / 100 / d) * (1 - 5 / 100 / d)))
      by (unfold dx, dz; field; lra).
    assert (K : 0 <= 1 - 5 / 100 / d).
    { assert (5 / 100 / d <= 1); [|lra].
      apply Rmult_le_reg_r with d; [lra|]. field_simplify; lra. }
    rewrite sqrt_mult by nra. rewrite sqrt_square by exact K.
    fold d. field. lra.
  - replace (Rltb d (1 / 2)) with true by (symmetry; apply Rltb_true; lra).
    unfold bind, Math_random, ret.
    cbn [fst snd bot_x bot_y bot_z targetX targetZ draws position].
    unfold WORLD_SIZE. repeat split; lra.
Qed.

Lemma bot_step_witness :
  toTarget (fst (botUpdate (mkBot "1" "Steve123" 10 2 10 12 8 "#3B82F6") zeros))
  = toTarget (mkBot "1" "Steve123" 10 2 10 12 8 "#3B82F6") - 5 / 100.
Proof.
  apply (proj1 (bot_step (mkBot "1" "Steve123" 10 2 10 12 8 "#3B82F6") zeros)).
  unfold toTarget. cbn [targetX targetZ bot_x bot_z].
  apply Rle_trans with (sqrt 1); [rewrite sqrt_1; lra|].
  apply sqrt_le_1_alt. lra.
Defined.

Lemma botUpdate_inSquare bot rs :
  inSquare bot -> fair rs ->
  inSquare (fst (botUpdate bot rs)) /\ fair (snd (botUpdate bot rs)) /\
  bot_name (fst (botUpdate bot rs)) = bot_name bot /\
  bot_y (fst (botUpdate bot rs)) = bot_y bot.
Proof.
  intros (Hx & Hz & Htx & Htz) F. unfold botUpdate. cbn zeta.
  set (dx := targetX bot - bot_x bot). set (dz := targetZ bot - bot_z bot).
  set (d := sqrt (dx * dx + dz * dz)).
  destruct (Rltb d (1 / 2)) eqn:E.
  - unfold bind, Math_random, ret. cbn [fst snd draws position].
    pose proof (fair_Q2R rs (position rs) F).
    pose proof (fair_Q2R rs (S (position rs)) F).
    split; [|split; [|split; reflexivity]].
    + unfold inSquare, WORLD_SIZE. cbn [bot_x bot_z targetX targetZ].
      repeat split; lra.
    + intro n. apply F.
  - apply Rltb_false in E. unfold ret. cbn [fst snd].
    split; [|split; [assumption|split; reflexivity]].
    unfold inSquare. cbn [bot_x bot_z targetX targetZ].
    assert (T : 0 <= 5 / 100 / d <= 1).
    { split.
      - apply Rmult_le_reg_r with d; [lra|]. field_simplify; lra.
      - apply Rmult_le_reg_r with d; [lra|]. field_simplify; lra. }
    replace (dx / d * (5 / 100)) with (dx * (5 / 100 / d)) by (field; lra).
    replace (dz / d * (5 / 100)) with (dz * (5 / 100 / d)) by (field; lra).
    set (t := 5 / 100 / d) in *. unfold dx, dz.
    repeat split; try lra; nra.
Qed.

Lemma botMoveInterval_inSquare bots rs :
  Forall inSquare bots -> fair rs ->
  Forall inSquare (fst (botMoveInterval bots rs)) /\
  fair (snd (botMoveInterval bots rs)) /\
  map bot_name (fst (botMoveInterval bots rs)) = map bot_name bots /\
  map bot_y (fst (botMoveInterval bots rs)) = map bot_y bots.
Proof.
  revert rs. induction bots as [|bot bots IH]; intros rs HS F.
  - cbn. auto.
  - inversion HS as [|? ? Hb Hr]; subst. cbn [botMoveInterval]. unfold bind, ret.
    destruct (botUpdate_inSquare bot rs Hb F) as (S1 & F1 & N1 & Y1).
    destruct (botUpdate bot rs) as [bot' rs1]. cbn [fst snd] in *.
    destruct (IH rs1 Hr F1) as (S2 & F2 & N2 & Y2).
    destruct (botMoveInterval bots rs1) as [rest rs2]. cbn [fst snd map] in *.
    split; [now constructor|]. split; [assumption|]. split; congruence.
Qed.

(** Companions that start with position and target in the square
    [2.5, 27.5] x [2.5, 27.5] - the four of the server do - stay in it for
    any number of periods and any draws in [0, 1): they never leave the
    world, never change height, and none appears, disappears or changes
    its name. *)
Theorem bots_stay_in_square (n : nat) (bots : list Bot) (rs : RandomSource)
    (Hsquare : Forall inSquare bots) (Hfair : fair rs) :
  Forall inSquare (fst (botTicks n bots rs)) /\
  map bot_name (fst (botTicks n bots rs)) = map bot_name bots /\
  map bot_y (fst (botTicks n bots rs)) = map bot_y bots.
Proof.
  revert bots rs Hsquare Hfair. induction n as [|n IH]; intros bots rs HS F.
  - cbn. auto.
  - cbn [botTicks]. unfold bind.
    destruct (botMoveInterval_inSquare bots rs HS F) as (S1 & F1 & N1 & Y1).
    destruct (botMoveInterval bots rs) as [next rs1]. cbn [fst snd] in *.
    destruct (IH next rs1 S1 F1) as (S2 & N2 & Y2).
    split; [assumption|]. split; congruence.
Qed.

Lemma bots_stay_in_square_witness :
  Forall inSquare (fst (botTicks 1000 botList nines)).
Proof.
  apply bots_stay_in_square.
  - unfold botList, inSquare.
    repeat (constructor; [cbn; lra|]). constructor.
  - intro n. split; [discriminate|reflexivity].
Defined.

(** ** Chat *)

Lemma trimStart_nil (s : JSString) :
  trimStart s = [] <-> forallb isWhiteSpace s = true.
Proof.
  induction s as [|c s IH]; simpl.
  - tauto.
  - destruct (isWhiteSpace c); simpl; [exact IH|].
    split; discriminate.
Qed.

Lemma trimStart_head (s : JSString) :
  trimStart s = [] \/
  exists c rest, trimStart s = c :: rest /\ isWhiteSpace c = false.
Proof.
  induction s as [|c s IH]; simpl.
  - now left.
  - destruct (isWhiteSpace c) eqn:W; [exact IH|].
    right. now exists c, s.
Qed.

(** Only a string of white space trims to the empty string. *)
Lemma truthy_trim (s : JSString) :
  truthy (trim s) = negb (forallb isWhiteSpace s).
Proof.
  unfold trim.
  destruct (trimStart_head s) as [E | (c & rest & E & W)].
  - rewrite E. simpl. apply trimStart_nil in E. now rewrite E.
  - assert (F : forallb isWhiteSpace s = false).
    { destruct (forallb isWhiteSpace s) eqn:F; [|reflexivity].
      apply trimStart_nil in F. congruence. }
    rewrite F, E. simpl.
    destruct (trimStart (rev rest ++ [c])) as [|c' rest'] eqn:T.
    + apply trimStart_nil in T. rewrite forallb_app in T. simpl in T.
      rewrite W in T. rewrite andb_false_r in T. discriminate.
    + simpl. destruct (rev rest' ++ [c']) eqn:R; [|reflexivity].
      now destruct (rev rest').
Qed.

Lemma length_sliceLast {A : Type} (n : nat) (l : list A) :
  List.length (sliceLast n l) = Nat.min (List.length l) n.
Proof. unfold sliceLast. rewrite length_skipn. lia. Qed.

Lemma sliceLast_suffix {A : Type} (n : nat) (l : list A) :
  l = firstn (List.length l - n) l ++ sliceLast n l.
Proof. unfold sliceLast. now rewrite firstn_skipn. Qed.

Lemma addChatMessage_facts (clock : Z * Z) (who what : JSString)
    (prev : list ChatMessage) (rs : RandomSource) :
  fst (addChatMessage clock who what prev rs) =
    sliceLast 20 prev
    ++ [mkMessage (fst clock, draws rs (position rs)) who what (snd clock)] /\
  snd (addChatMessage clock who what prev rs) = mkRandom (draws rs) (S (position rs)).
Proof. split; reflexivity. Qed.

Lemma randomIndex_range (r : Q) (n : nat) :
  (0 <= r)%Q -> (r < 1)%Q -> (0 < n)%nat ->
  (0 <= randomIndex r n < Z.of_nat n)%Z.
Proof.
  intros H0 H1 Hn. unfold randomIndex.
  assert (Hq : (0 < inject_Z (Z.of_nat n))%Q).
  { change 0%Q with (inject_Z 0). rewrite <- Zlt_Qlt. lia. }
  split.
  - change 0%Z with (Qfloor 0). apply Qfloor_resp_le.
    rewrite <- (Qmult_0_l (inject_Z (Z.of_nat n))).
    apply Qmult_le_compat_r; [assumption|]. now apply Qlt_le_weak.
  - rewrite Zlt_Qlt. eapply Qle_lt_trans; [apply Qfloor_le|].
    rewrite <- (Qmult_1_l (inject_Z (Z.of_nat n))) at 2.
    apply Qmult_lt_compat_r; assumption.
Qed.

Lemma at_randomIndex {A : Type} (l : list A) (r : Q) :
  (0 <= r)%Q -> (r < 1)%Q -> l <> [] ->
  exists a, at_ l (randomIndex r (List.length l)) = Some a /\ In a l.
Proof.
  intros H0 H1 Hl.
  assert (Hn : (0 < List.length l)%nat) by (destruct l; [congruence|simpl; lia]).
  pose proof (randomIndex_range r _ H0 H1 Hn) as [Ha Hb].
  unfold at_. destruct (Z.ltb_spec (randomIndex r (List.length l)) 0); [lia|].
  destruct (nth_error l (Z.to_nat (randomIndex r (List.length l)))) eqn:E.
  - exists a. split; [reflexivity|]. eapply nth_error_In; eassumption.
  - apply nth_error_None in E. lia.
Qed.
(** ** The page with keyboard and chat *)

Lemma GameMode_eqb_refl (m : GameMode) : GameMode_eqb m m = true.
Proof. now destruct m. Qed.

Lemma inventory_eqb_refl (inv : list InventoryItem) : inventory_eqb inv inv = true.
Proof.
  induction inv as [|i inv IH]; [reflexivity|]. simpl. rewrite IH.
  unfold InventoryItem_eqb. now rewrite BlockType_eqb_refl, Z.eqb_refl.
Qed.

Lemma sameDeps_same (p q : Page) :
  game q = game p -> vitals q = vitals p -> sameDeps p q = true.
Proof.
  intros G V. unfold sameDeps. rewrite G, V.
  now rewrite GameMode_eqb_refl, inventory_eqb_refl, !Bool.eqb_reflx.
Qed.

Lemma commit_same (p q : Page) :
  game q = game p -> vitals q = vitals p -> commit p q = q.
Proof. intros G V. unfold commit. now rewrite sameDeps_same. Qed.

(** A render changes nothing but what the listener sees. *)
Lemma commit_fields (p q : Page) :
  game (commit p q) = game q /\ vitals (commit p q) = vitals q /\
  keysPressed (commit p q) = keysPressed q /\ chatInput (commit p q) = chatInput q /\
  chatMessages (commit p q) = chatMessages q /\ bots (commit p q) = bots q.
Proof. unfold commit. destruct (sameDeps p q); repeat split. Qed.

Lemma sendChatMessage_blank clock input companions p rs :
  forallb isWhiteSpace input = true ->
  sendChatMessage clock input companions p rs = ((p, []), rs).
Proof.
  intro B. unfold sendChatMessage. rewrite truthy_trim, B. reflexivity.
Qed.

Lemma sendChatMessage_sent clock input companions p rs :
  forallb isWhiteSpace input = false ->
  sendChatMessage clock input companions p rs =
  ((setGame (setShowChat false (game p))
      (setChatInput []
         (setChatMessages
            (sliceLast 20 (chatMessages p)
             ++ [mkMessage (fst clock, draws rs (position rs)) You input (snd clock)])
            p)),
    [ReplyLater companions]),
   mkRandom (draws rs) (S (position rs))).
Proof.
  intro B. unfold sendChatMessage. rewrite truthy_trim, B. reflexivity.
Qed.

Lemma sendChatMessage_log clock input companions p rs :
  (List.length (chatMessages p) <= 21)%nat ->
  (List.length (chatMessages (fst (fst (sendChatMessage clock input companions p rs)))) <= 21)%nat.
Proof.
  intro H. destruct (forallb isWhiteSpace input) eqn:B.
  - now rewrite sendChatMessage_blank.
  - rewrite sendChatMessage_sent by assumption. cbn.
    rewrite length_app, length_sliceLast. simpl. lia.
Qed.

(** The log changes only through [sendChatMessage]. *)
Lemma handleKeyDown_log clock key p rs :
  chatMessages (fst (fst (handleKeyDown clock key p rs))) = chatMessages p \/
  chatMessages (fst (fst (handleKeyDown clock key p rs))) =
  chatMessages (fst (fst (sendChatMessage clock (heardInput p) (heardBots p) p rs))).
Proof.
  unfold handleKeyDown.
  destruct (String.eqb (toLowerCase key) "t" && negb (showChat (game p))); [now left|].
  destruct (showChat (game p) && String.eqb key "Enter").
  { right. unfold bind.
    now destruct (sendChatMessage clock (heardInput p) (heardBots p) p rs) as [[? ?] ?]. }
  destruct (showChat (game p) && String.eqb key "Escape"); [now left|].
  destruct (showChat (game p)); [now left|].
  left.
  destruct (String.eqb (toLowerCase key) "e");
    destruct (String.leb "1" key && String.leb key "4");
    destruct (parseInt key) as [n|];
    try destruct (at_ (inventory (game p)) (n - 1));
    destruct (String.eqb (toLowerCase key) "escape");
    destruct (showInventory (game p)); reflexivity.
Qed.

Lemma pageStep_log e p rs :
  (List.length (chatMessages p) <= 21)%nat ->
  (List.length (chatMessages (fst (fst (pageStep e p rs)))) <= 21)%nat.
Proof.
  intro H. unfold pageStep, bind.
  destruct (handle e p rs) as [[q effects] rs'] eqn:S. cbn.
  destruct (commit_fields p q) as (_ & _ & _ & _ & -> & _).
  assert (Q : q = fst (fst (handle e p rs))) by now rewrite S.
  rewrite Q. clear Q S. destruct e; cbn [handle].
  - destruct (listening p); [|exact H].
    destruct (handleKeyDown_log clock key p rs) as [-> | ->]; [exact H|].
    now apply sendChatMessage_log.
  - destruct (listening p); exact H.
  - destruct (inGame p && showChat (game p)); exact H.
  - destruct (inGame p && showChat (game p)); [|exact H].
    now apply sendChatMessage_log.
  - destruct (inGame p && showInventory (game p)); exact H.
  - destruct (listening p); exact H.
  - destruct (listening p); exact H.
Qed.

Lemma pageRun_cons e es p rs :
  pageRun (e :: es) p rs =
  pageRun es (fst (fst (pageStep e p rs))) (snd (pageStep e p rs)).
Proof. cbn [pageRun]. unfold bind. now destruct (pageStep e p rs) as [[? ?] ?]. Qed.

Lemma pageRun_app es es' p rs :
  pageRun (es ++ es') p rs =
  pageRun es' (fst (pageRun es p rs)) (snd (pageRun es p rs)).
Proof.
  revert p rs. induction es as [|e es IH]; intros p rs; [reflexivity|].
  cbn [app]. now rewrite !pageRun_cons, IH.
Qed.
(** The chat log keeps the last twenty messages and appends: after any
    message the log has min(n, 20) + 1 entries, the new message is the
    last one, the entries before it are the last twenty of the old log in
    their order, and one random number is drawn.  So no series of events
    makes a log of at most 21 messages longer than 21. *)
Theorem chat_keeps_last_twenty (clock : Z * Z) (who what : JSString)
    (prev : list ChatMessage) (rs : RandomSource) :
  let next := fst (addChatMessage clock who what prev rs) in
  let kept := Nat.min (List.length prev) 20 in
  List.length next = S kept /\
  nth_error next kept =
    Some (mkMessage (fst clock, draws rs (position rs)) who what (snd clock)) /\
  (forall i, (i < kept)%nat ->
     nth_error next i = nth_error prev (List.length prev - kept + i)) /\
  position (snd (addChatMessage clock who what prev rs)) = S (position rs) /\
  (forall es p rs',
     (List.length (chatMessages p) <= 21)%nat ->
     (List.length (chatMessages (fst (pageRun es p rs'))) <= 21)%nat).
Proof.
  cbv zeta. destruct (addChatMessage_facts clock who what prev rs) as [E1 E2].
  rewrite E1, E2. clear E1 E2.
  pose proof (length_sliceLast 20 prev) as L.
  split; [|split; [|split; [|split]]].
  - rewrite length_app, L. simpl. lia.
  - rewrite nth_error_app2 by lia. rewrite L, Nat.sub_diag. reflexivity.
  - intros i Hi. rewrite nth_error_app1 by lia.
    unfold sliceLast. rewrite nth_error_skipn. f_equal. lia.
  - reflexivity.
  - intros es. induction es as [|e es IH]; intros p rs' Hp; [exact Hp|].
    rewrite pageRun_cons. apply IH, pageStep_log, Hp.
Qed.
(** The send button sends what the input holds, as it is.  An input of
    white space only (the empty input included) is ignored: nothing
    changes.  Any other input is appended to the log untrimmed under the
    player's name, the input is cleared, the chat is closed, one reply is
    scheduled, and neither the held keys nor the game are touched. *)
Theorem send_button_sends_verbatim (clock : Z * Z) (p : Page) (rs : RandomSource)
    (Hgame : inGame p = true) (Hchat : showChat (game p) = true) :
  let result := pageStep (ClickSend clock) p rs in
  let p' := fst (fst result) in
  if forallb isWhiteSpace (chatInput p)
  then result = ((p, []), rs)
  else
    chatMessages p' =
      sliceLast 20 (chatMessages p)
      ++ [mkMessage (fst clock, draws rs (position rs)) You (chatInput p) (snd clock)] /\
    chatInput p' = [] /\
    game p' = setShowChat false (game p) /\
    snd (fst result) = [ReplyLater (bots p)] /\
    keysPressed p' = keysPressed p /\
    position (snd result) = S (position rs).
Proof.
  cbv zeta. unfold pageStep, bind, ret. cbn [handle]. rewrite Hgame, Hchat. cbn [andb].
  destruct (forallb isWhiteSpace (chatInput p)) eqn:B.
  - rewrite sendChatMessage_blank by assumption. cbn [fst snd].
    now rewrite commit_same.
  - rewrite sendChatMessage_sent by assumption. cbn [fst snd].
    match goal with |- context [commit p ?q] =>
      destruct (commit_fields p q) as (-> & _ & -> & -> & -> & _) end.
    repeat split.
Qed.

Lemma send_button_sends_verbatim_witness :
  let p := fst (pageRun [KeyDown "t" (0, 0)%Z; ChatChange [32; 1086; 1082; 32]%N]
                  (startPage creative []) zeros) in
  chatMessages (fst (fst (pageStep (ClickSend (7, 8)%Z) p zeros)))
  = [mkMessage (7%Z, 0%Q) You [32; 1086; 1082; 32]%N 8%Z].
Proof.
  intro p.
  pose proof (send_button_sends_verbatim (7, 8)%Z p zeros eq_refl eq_refl) as H.
  cbv zeta in H.
  change (forallb isWhiteSpace (chatInput p)) with false in H.
  exact (proj1 H).
Defined.

Lemma has_app keys keys' k : has (keys ++ keys') k = has keys k || has keys' k.
Proof. unfold has. apply existsb_app. Qed.

Lemma has_addKey a keys k :
  has (addKey a keys) k = String.eqb k a || has keys k.
Proof.
  unfold addKey. destruct (has keys a) eqn:H.
  - destruct (String.eqb_spec k a) as [->|]; [now rewrite H|reflexivity].
  - rewrite has_app. unfold has at 2. simpl. rewrite orb_false_r. apply orb_comm.
Qed.

Lemma has_deleteKey d keys k :
  has (deleteKey d keys) k = negb (String.eqb d k) && has keys k.
Proof.
  unfold has, deleteKey. induction keys as [|k' keys IH]; simpl.
  - now rewrite andb_false_r.
  - destruct (String.eqb_spec d k') as [->|N]; simpl.
    + rewrite IH. destruct (String.eqb_spec k k') as [->|N'].
      * rewrite String.eqb_refl. reflexivity.
      * reflexivity.
    + rewrite IH. destruct (String.eqb_spec k k') as [->|N'].
      * destruct (String.eqb_spec d k'); [contradiction|]. reflexivity.
      * reflexivity.
Qed.

(** One event of a player who is writing, on a page whose listener holds
    an empty input. *)
Lemma typing_step (e : PageEvent) (q : Page) (rs : RandomSource) :
  typing e = true -> listening q = true -> showChat (game q) = true ->
  heardInput q = [] ->
  snd (pageStep e q rs) = rs /\
  game (fst (fst (pageStep e q rs))) = game q /\
  vitals (fst (fst (pageStep e q rs))) = vitals q /\
  heardInput (fst (fst (pageStep e q rs))) = [] /\
  chatMessages (fst (fst (pageStep e q rs))) = chatMessages q /\
  chatInput (fst (fst (pageStep e q rs))) = typed [e] (chatInput q) /\
  (forall k, has (keysPressed (fst (fst (pageStep e q rs)))) k = true ->
             has (keysPressed q) k = true).
Proof.
  intros T L C Hh. unfold pageStep, bind.
  assert (Hin : inGame q = true).
  { unfold listening in L. now apply andb_prop in L. }
  destruct e; try discriminate T; cbn [handle typing typed fold_left] in *;
    rewrite ?L, ?Hin, ?C; cbn [andb].
  - (* a key other than Escape *)
    unfold handleKeyDown. rewrite C. cbn [negb andb]. rewrite andb_false_r.
    apply negb_true_iff in T. rewrite T.
    destruct (String.eqb key "Enter").
    + unfold bind, ret. rewrite Hh, sendChatMessage_blank by reflexivity.
      cbn [fst snd]. rewrite commit_same by reflexivity. now repeat split.
    + unfold ret. cbn [fst snd].
      rewrite commit_same by reflexivity. now repeat split.
  - unfold ret. cbn [fst snd]. rewrite commit_same by reflexivity.
    repeat split; try assumption. unfold handleKeyUp.
    cbn [keysPressed setKeysPressed]. intros k. rewrite has_deleteKey. intro H. now apply andb_prop in H.
  - unfold ret. cbn [fst snd]. rewrite commit_same by reflexivity.
    now repeat split.
  - unfold ret. cbn [fst snd].
    assert (M : moveInterval (keysPressed q) (game q) = game q).
    { unfold moveInterval. now rewrite C. }
    rewrite commit_same by (cbn; now rewrite ?M).
    cbn. rewrite M. now repeat split.
Qed.

Lemma typing_run (es : list PageEvent) (q : Page) (rs : RandomSource) :
  forallb typing es = true -> listening q = true -> showChat (game q) = true ->
  heardInput q = [] ->
  snd (pageRun es q rs) = rs /\
  game (fst (pageRun es q rs)) = game q /\
  chatMessages (fst (pageRun es q rs)) = chatMessages q /\
  chatInput (fst (pageRun es q rs)) = typed es (chatInput q) /\
  (forall k, has (keysPressed (fst (pageRun es q rs))) k = true ->
             has (keysPressed q) k = true).
Proof.
  revert q rs. induction es as [|e es IH]; intros q rs T L C Hh.
  - now repeat split.
  - cbn [forallb] in T. apply andb_prop in T as [Te Tes].
    destruct (typing_step e q rs Te L C Hh) as (R & G & V & Hh' & M & I & K).
    rewrite pageRun_cons.
    destruct (pageStep e q rs) as [[q' effects] rs'] eqn:S.
    cbn [fst snd] in *. subst rs'.
    assert (L' : listening q' = true).
    { unfold listening, inGame in *. now rewrite G, V. }
    assert (C' : showChat (game q') = true) by now rewrite G.
    destruct (IH q' rs Tes L' C' Hh') as (R' & G' & M' & I' & K').
    split; [exact R'|]. split; [now rewrite G'|]. split; [now rewrite M'|].
    split; [now rewrite I', I|]. intros k H. apply K, K', H.
Qed.

(** The pointer lock changing while the chat is open and nothing has been
    typed yet renews the listener, which again holds the empty input. *)
Lemma lock_run (locks : list bool) (q : Page) (rs : RandomSource) :
  listening q = true -> showChat (game q) = true ->
  chatInput q = [] -> heardInput q = [] ->
  let q' := fst (pageRun (map LockChange locks) q rs) in
  snd (pageRun (map LockChange locks) q rs) = rs /\
  game q' = fold_left (fun g b => setPointerLocked b g) locks (game q) /\
  listening q' = true /\ showChat (game q') = true /\
  chatInput q' = [] /\ heardInput q' = [] /\
  chatMessages q' = chatMessages q /\ keysPressed q' = keysPressed q.
Proof.
  revert q rs. induction locks as [|b locks IH]; intros q rs L C I Hh; cbv zeta.
  - now repeat split.
  - cbn [map]. rewrite pageRun_cons.
    assert (S : pageStep (LockChange b) q rs =
                ((commit q (setGame (setPointerLocked b (game q)) q), []), rs)).
    { unfold pageStep, bind, ret. cbn [handle]. now rewrite L. }
    rewrite S. cbn [fst snd].
    set (q' := commit q (setGame (setPointerLocked b (game q)) q)).
    destruct (commit_fields q (setGame (setPointerLocked b (game q)) q))
      as (G & V & K & In' & M & _).
    fold q' in G, V, K, In', M. cbn in G, V, K, In', M.
    assert (L' : listening q' = true).
    { unfold listening, inGame in *. now rewrite G, V. }
    assert (C' : showChat (game q') = true) by now rewrite G.
    assert (I' : chatInput q' = []) by congruence.
    assert (Hh' : heardInput q' = []).
    { unfold q', commit.
      destruct (sameDeps q (setGame (setPointerLocked b (game q)) q)); cbn; assumption. }
    destruct (IH q' rs L' C' I' Hh') as (R1 & G1 & L1 & C1 & I1 & H1 & M1 & K1).
    split; [exact R1|]. split; [now rewrite G1, G|].
    split; [exact L1|]. split; [exact C1|]. split; [exact I1|]. split; [exact H1|].
    split; congruence.
Qed.

(** The Enter key does not send what has been typed.  Its listener was
    installed when the chat opened (or when the pointer lock changed right
    after) and holds the input of that moment, which is empty; the
    dependencies of the listener effect do not include the input, so
    typing re-renders the page without renewing the listener.  From a page
    with the chat closed and the input empty, after T has opened the chat
    and the pointer lock has changed any number of times, no series of
    input changes, key releases and presses of keys other than Escape -
    Enter among them - adds a message or closes the chat: the log is
    unchanged, the chat is open and the input holds the text typed last.
    Meanwhile no key is registered as held, the motion interval moves
    nothing and no random number is drawn. *)
Theorem enter_never_sends_typed_text (p : Page) (key : string) (clock : Z * Z)
    (locks : list bool) (es : list PageEvent) (rs : RandomSource)
    (Hlisten : listening p = true) (Hclosed : showChat (game p) = false)
    (Hempty : chatInput p = []) (Hkey : toLowerCase key = "t"%string)
    (Htyping : forallb typing es = true) :
  let events := KeyDown key clock :: map LockChange locks ++ es in
  let p' := fst (pageRun events p rs) in
  chatMessages p' = chatMessages p /\
  game p' = fold_left (fun g b => setPointerLocked b g) locks
                      (setShowChat true (game p)) /\
  chatInput p' = typed es [] /\
  (forall k, has (keysPressed p') k = true -> has (keysPressed p) k = true) /\
  snd (pageRun events p rs) = rs.
Proof.
  cbv zeta. rewrite pageRun_cons.
  unfold pageStep, bind. cbn [handle]. rewrite Hlisten.
  unfold handleKeyDown. rewrite Hkey, Hclosed. cbn [String.eqb Ascii.eqb Bool.eqb andb negb].
  unfold ret. cbn [fst snd].
  set (q := commit p (setGame (setShowChat true (game p)) p)).
  assert (Q : q = mkPage (setShowChat true (game p)) (vitals p) (keysPressed p)
                         (chatInput p) (chatMessages p) (bots p)
                         (chatInput p) (bots p)).
  { unfold q, commit, sameDeps. cbn. rewrite Hclosed. cbn.
    now rewrite !andb_false_r. }
  assert (L : listening q = true).
  { rewrite Q. unfold listening, inGame in *. exact Hlisten. }
  assert (C : showChat (game q) = true) by now rewrite Q.
  assert (I0 : chatInput q = []) by now rewrite Q.
  assert (Hh : heardInput q = []) by now rewrite Q.
  rewrite pageRun_app.
  destruct (lock_run locks q rs L C I0 Hh) as (R1 & G1 & L1 & C1 & I1 & H1 & M1 & K1).
  rewrite R1.
  destruct (typing_run es _ rs Htyping L1 C1 H1) as (R & G & M & I & K).
  split; [now rewrite M, M1, Q|]. split; [now rewrite G, G1, Q|].
  split; [now rewrite I, I1|].
  split; [|exact R]. intros k H. apply K in H. rewrite K1, Q in H. exact H.
Qed.

Lemma enter_never_sends_typed_text_witness :
  let es := [ChatChange [104]%N; ChatChange [104; 105]%N;
             KeyDown "Enter" (1, 1)%Z; KeyUp "Enter"] in
  let p' := fst (pageRun (KeyDown "t" (0, 0)%Z :: map LockChange [false] ++ es)
                   (startPage creative []) zeros) in
  chatMessages p' = [] /\ chatInput p' = [104; 105]%N.
Proof.
  intros es p'.
  pose proof (enter_never_sends_typed_text (startPage creative []) "t" (0, 0)%Z
                [false] es zeros eq_refl eq_refl eq_refl eq_refl eq_refl)
    as (M & _ & I & _).
  split; [exact M | exact I].
Defined.
Lemma speak_facts (clock : Z * Z) (lines : list JSString) (companions : list Bot)
    (prev : list ChatMessage) (rs : RandomSource) :
  fair rs -> companions <> [] -> lines <> [] ->
  exists b line r,
    In b companions /\ In line lines /\
    fst (speak clock lines companions prev rs) =
      Some (sliceLast 20 prev
            ++ [mkMessage (fst clock, r) (codeUnits (bot_name b)) line (snd clock)]) /\
    position (snd (speak clock lines companions prev rs)) = (3 + position rs)%nat.
Proof.
  intros F Hc Hl. unfold speak, bind, Math_random. cbn [draws position].
  destruct (F (position rs)) as [A0 A1]. destruct (F (S (position rs))) as [B0 B1].
  destruct (at_randomIndex companions _ A0 A1 Hc) as (b & -> & Hb).
  destruct (at_randomIndex lines _ B0 B1 Hl) as (line & -> & Hline).
  exists b, line, (draws rs (S (S (position rs)))).
  split; [exact Hb|]. split; [exact Hline|]. split; reflexivity.
Qed.

(** The companions' lines are well formed.  With draws in [0, 1) neither
    the reply to a message of the player nor the periodic chatter ever
    indexes outside the companions or outside its list of lines: each
    either leaves the log as it is or appends one message whose author is
    the name of one of the companions and whose text is one of the six
    replies, respectively one of the ten chatter lines.  Without
    companions the log is left as it is. *)
Theorem random_speakers_exist (clock : Z * Z) (companions : list Bot)
    (prev : list ChatMessage) (rs : RandomSource) (Hfair : fair rs) :
  let said (lines : list JSString) (next : list ChatMessage) :=
    next = prev \/
    exists b line r,
      In b companions /\ In line lines /\
      next = sliceLast 20 prev
             ++ [mkMessage (fst clock, r) (codeUnits (bot_name b)) line (snd clock)] in
  (exists next, fst (reply clock companions prev rs) = Some next /\
                said responses next) /\
  (exists next, fst (botChatInterval clock companions prev rs) = Some next /\
                said BOT_MESSAGES next).
Proof.
  cbv zeta.
  assert (F' : fair (mkRandom (draws rs) (S (position rs)))) by exact Hfair.
  split.
  - unfold reply, bind, Math_random. cbn [draws position].
    destruct (negb (Qle_bool (draws rs (position rs)) (1 # 2))); cbn [andb].
    + destruct companions as [|b0 companions'] eqn:Ec.
      * cbn. exists prev. split; [reflexivity|now left].
      * cbn [List.length Nat.ltb Nat.leb].
        destruct (speak_facts clock responses (b0 :: companions') prev _ F')
          as (b & line & r & Hb & Hline & E & _); [discriminate|discriminate|].
        rewrite E. eexists. split; [reflexivity|]. right. now exists b, line, r.
    + exists prev. split; [reflexivity|now left].
  - unfold botChatInterval.
    destruct companions as [|b0 companions'] eqn:Ec.
    + cbn. exists prev. split; [reflexivity|now left].
    + cbn [List.length Nat.ltb Nat.leb]. unfold bind, Math_random. cbn [draws position].
      destruct (negb (Qle_bool (draws rs (position rs)) (7 # 10))).
      * destruct (speak_facts clock BOT_MESSAGES (b0 :: companions') prev _ F')
          as (b & line & r & Hb & Hline & E & _); [discriminate|discriminate|].
        rewrite E. eexists. split; [reflexivity|]. right. now exists b, line, r.
      * exists prev. split; [reflexivity|now left].
Qed.

Lemma fair_nines : fair nines.
Proof. intro n. split; reflexivity || discriminate. Qed.

Lemma random_speakers_exist_witness :
  exists next, fst (reply (5, 6)%Z botList [] nines) = Some next /\
               List.length next = 1%nat.
Proof.
  destruct (random_speakers_exist (5, 6)%Z botList [] nines fair_nines)
    as [(next & E & [N | (b & line & r & _ & _ & N)]) _].
  - exfalso. subst next. vm_compute in E. discriminate E.
  - exists next. split; [exact E|]. now rewrite N.
Defined.
Lemma deaf_step (e : PageEvent) (q : Page) (rs : RandomSource) :
  listening q = false -> fromWindow e = true ->
  pageStep e q rs = ((q, []), rs).
Proof.
  intros L W. unfold pageStep, bind.
  destruct e; try discriminate W; cbn [handle]; rewrite L; unfold ret;
    cbn [fst snd]; now rewrite commit_same.
Qed.

Lemma deaf_run (es : list PageEvent) (q : Page) (rs : RandomSource) :
  listening q = false -> forallb fromWindow es = true ->
  pageRun es q rs = (q, rs).
Proof.
  intros L. induction es as [|e es IH]; intro W; [reflexivity|].
  cbn [forallb] in W. apply andb_prop in W as [We Wes].
  rewrite pageRun_cons, deaf_step by assumption. now apply IH.
Qed.

Lemma toLowerCase_e (key : string) :
  toLowerCase key = "e"%string -> key = "e"%string \/ key = "E"%string.
Proof.
  destruct key as [|c [|c' rest]]; try discriminate.
  cbn [toLowerCase]. intro H. injection H as H.
  destruct c as [[] [] [] [] [] [] [] []]; try discriminate H; auto.
Qed.

(** The inventory key opens and nothing on the keyboard closes.  Opening
    the overlay with E removes the key, pointer lock and motion listeners,
    so until the overlay's own button closes it every window event is
    lost: a second E or an Escape leaves it open, a released key stays
    registered as held, and a pointer lock change goes unnoticed.  After
    the button has closed it the game state is what it was before E,
    whatever happened to the pointer lock in between, and the held keys
    are those held at E, plus E itself. *)
Theorem keys_lost_while_inventory_open (p : Page) (key : string) (clock : Z * Z)
    (es : list PageEvent) (rs : RandomSource)
    (Hlisten : listening p = true) (Hclosed : showChat (game p) = false)
    (Hkey : toLowerCase key = "e"%string)
    (Hes : forallb fromWindow es = true) :
  let opened := fst (pageRun [KeyDown key clock] p rs) in
  let during := fst (pageRun (KeyDown key clock :: es) p rs) in
  let closed := fst (pageRun (KeyDown key clock :: es ++ [CloseInventory]) p rs) in
  game opened = setShowInventory true (game p) /\
  during = opened /\
  game closed = game p /\
  (forall k, has (keysPressed closed) k = String.eqb k "e" || has (keysPressed p) k) /\
  chatMessages closed = chatMessages p /\
  snd (pageRun (KeyDown key clock :: es ++ [CloseInventory]) p rs) = rs.
Proof.
  cbv zeta.
  assert (Hin : inGame p = true /\ showInventory (game p) = false).
  { unfold listening in Hlisten. apply andb_prop in Hlisten as [A B].
    now apply negb_true_iff in B. }
  destruct Hin as [Hin Hinv].
  assert (S : pageStep (KeyDown key clock) p rs =
              ((commit p (setGame (setShowInventory true (game p))
                            (setKeysPressed (addKey "e" (keysPressed p)) p)),
                [Prevent; ExitPointerLock]), rs)).
  { unfold pageStep, bind, ret. cbn [handle]. rewrite Hlisten.
    unfold handleKeyDown. rewrite Hkey, Hclosed, Hinv.
    cbn [String.eqb Ascii.eqb Bool.eqb andb negb].
    destruct (toLowerCase_e key Hkey) as [-> | ->];
      cbn [game setKeysPressed setGame]; rewrite ?Hinv; reflexivity. }
  set (q := commit p (setGame (setShowInventory true (game p))
                        (setKeysPressed (addKey "e" (keysPressed p)) p))) in *.
  destruct (commit_fields p (setGame (setShowInventory true (game p))
                               (setKeysPressed (addKey "e" (keysPressed p)) p)))
    as (G & V & K & _ & M & _).
  fold q in G, V, K, M.
  cbn [game vitals keysPressed chatMessages setGame setKeysPressed] in G, V, K, M.
  assert (L : listening q = false).
  { unfold listening. rewrite G. cbn. apply andb_false_r. }
  rewrite !pageRun_cons, S. cbn [fst snd pageRun]. unfold ret at 1. cbn [fst].
  rewrite pageRun_app, !deaf_run by assumption. cbn [fst snd].
  split; [exact G|]. split; [reflexivity|].
  rewrite pageRun_cons. cbn [pageRun]. unfold ret. cbn [fst snd].
  unfold pageStep, bind, ret. cbn [handle].
  assert (Hq : inGame q = true) by (unfold inGame in *; now rewrite V).
  rewrite Hq, G. cbn [showInventory setShowInventory andb]. unfold ret.
  cbn [fst snd].
  match goal with |- context [commit q ?q'] =>
    destruct (commit_fields q q') as (-> & _ & -> & _ & -> & _) end.
  cbn [game keysPressed chatMessages setGame]. rewrite ?G, ?K, ?M.
  split; [|split; [|split; reflexivity]].
  - destruct (game p). cbn in *. now subst.
  - intro k. apply has_addKey.
Qed.

Lemma keys_lost_while_inventory_open_witness :
  let p := fst (pageRun [LockChange true; KeyDown "w" (0, 0)%Z]
                  (startPage creative []) zeros) in
  let closed := fst (pageRun (KeyDown "e" (0, 0)%Z ::
                              [KeyUp "w"; KeyUp "e"; LockChange false;
                               KeyDown "e" (0, 0)%Z; KeyDown "Escape" (0, 0)%Z]
                              ++ [CloseInventory]) p zeros) in
  has (keysPressed closed) "w" = true /\ pointerLocked (game closed) = true.
Proof.
  intros p closed.
  pose proof (keys_lost_while_inventory_open p "e" (0, 0)%Z
                [KeyUp "w"; KeyUp "e"; LockChange false;
                 KeyDown "e" (0, 0)%Z; KeyDown "Escape" (0, 0)%Z]
                zeros eq_refl eq_refl eq_refl eq_refl)
    as (_ & _ & G & K & _).
  split.
  - fold closed in K. rewrite K. reflexivity.
  - fold closed in G. rewrite G. reflexivity.
Defined.

(** The digit keys reach the first four slots only.  With the chat and
    the overlay closed, pressing a one-character key selects the type of
    slot 1, 2, 3 or 4 when the key is that digit and the inventory has
    that slot; every other key - the digits 5 and 6 of the two further
    slots included - leaves the selection alone.  No key changes the
    world, the inventory or the camera. *)
Theorem digit_keys_select_first_four (p : Page) (c : ascii) (clock : Z * Z)
    (rs : RandomSource)
    (Hlisten : listening p = true) (Hclosed : showChat (game p) = false) :
  let p' := fst (fst (pageStep (KeyDown (String c EmptyString) clock) p rs)) in
  let slot := (Z.of_nat (nat_of_ascii c) - 49)%Z in
  selectedBlock (game p') =
    (if ((0 <=? slot) && (slot <=? 3))%Z
     then match nth_error (inventory (game p)) (Z.to_nat slot) with
          | Some item => item_type item
          | None => selectedBlock (game p)
          end
     else selectedBlock (game p)) /\
  world (game p') = world (game p) /\
  inventory (game p') = inventory (game p) /\
  camera (game p') = camera (game p).
Proof.
  cbv zeta. unfold pageStep, bind, ret. cbn [handle]. rewrite Hlisten.
  assert (Hinv : showInventory (game p) = false).
  { unfold listening in Hlisten. apply andb_prop in Hlisten as [_ B].
    now apply negb_true_iff in B. }
  destruct (handleKeyDown clock (String c EmptyString) p rs) as [[q effects] rs'] eqn:S.
  cbn [fst snd].
  destruct (commit_fields p q) as (-> & _).
  assert (Q : q = fst (fst (handleKeyDown clock (String c EmptyString) p rs)))
    by now rewrite S.
  rewrite Q. clear Q S q effects rs' Hlisten.
  destruct p as [g v keys input messages companions heard heardCompanions].
  destruct g as [w inv sel cam hand swinging locked overlay chatting].
  cbn in Hclosed, Hinv. subst overlay chatting.
  destruct inv as [|i0 [|i1 [|i2 [|i3 rest]]]];
    destruct c as [[] [] [] [] [] [] [] []];
    vm_compute; repeat split; reflexivity.
Qed.

Lemma digit_keys_select_first_four_witness :
  selectedBlock (game (fst (fst (pageStep (KeyDown "3" (0, 0)%Z)
                                   (startPage creative []) zeros)))) = stone /\
  selectedBlock (game (fst (fst (pageStep (KeyDown "5" (0, 0)%Z)
                                   (startPage creative []) zeros)))) = grass.
Proof.
  split.
  - exact (proj1 (digit_keys_select_first_four (startPage creative []) "3"%char
                    (0, 0)%Z zeros eq_refl eq_refl)).
  - exact (proj1 (digit_keys_select_first_four (startPage creative []) "5"%char
                    (0, 0)%Z zeros eq_refl eq_refl)).
Defined.

Lemma chat_keeps_last_twenty_witness :
  (List.length (chatMessages
     (fst (pageRun [KeyDown "t" (0, 0)%Z; ChatChange [104]%N; ClickSend (1, 1)%Z]
             (startPage creative []) zeros))) <= 21)%nat.
Proof.
  apply (proj2 (proj2 (proj2 (proj2
           (chat_keeps_last_twenty (0, 0)%Z [] [] [] zeros))))).
  cbn. lia.
Defined.

(** ** The side-view page *)

Lemma Zfloor_iff (r : R) (z : Z) : Zfloor r = z <-> IZR z <= r < IZR z + 1.
Proof.
  split.
  - intros <-. apply Zfloor_bound.
  - apply Zfloor_eq.
Qed.

(** Where a click lands.  The handler measures the pointer from the
    rectangle of the canvas element, which includes its border of eight
    pixels, and the squares are drawn on the bitmap inside the border.  So
    the clicks that address a block are those over its drawn square moved
    eight pixels to the left and eight pixels up, but for one row: the
    square covers the columns [screenX, screenX + 32) and the rows
    [screenY, screenY + 32) of the bitmap, the clicks that address it the
    columns [screenX - 8, screenX + 24) and the rows
    (screenY - 8, screenY + 24].  A click on the last eight columns of the
    bitmap addresses column 20 and one below row 472 addresses row -1,
    whose squares lie outside the bitmap.  Over the bitmap a click
    addresses a column from 0 to 20 and a row from -1 to 14. *)
Theorem click_addresses_drawn_square (b : Block) (u v : R) :
  let cell := Flat.clickCell (fst (Flat.offsets u v)) (snd (Flat.offsets u v)) in
  (Flat.atColumnRow (fst cell) (snd cell) b = true
   <-> IZR (Flat.screenX b) - 8 <= u < IZR (Flat.screenX b) + 24 /\
       IZR (Flat.screenY b) - 8 < v <= IZR (Flat.screenY b) + 24) /\
  (0 <= u < IZR Flat.canvas_width -> 0 <= v < IZR Flat.canvas_height ->
   (0 <= fst cell <= 20)%Z /\ (-1 <= snd cell <= 14)%Z) /\
  (IZR Flat.canvas_width - 8 <= u < IZR Flat.canvas_width -> fst cell = 20%Z) /\
  (IZR Flat.canvas_height - 8 < v < IZR Flat.canvas_height -> snd cell = (-1)%Z) /\
  (block_x b = 20%Z -> Flat.screenX b = Flat.canvas_width) /\
  (block_y b = (-1)%Z -> Flat.screenY b = Flat.canvas_height).
Proof.
  unfold Flat.clickCell, Flat.offsets, Flat.atColumnRow, Flat.screenX, Flat.screenY,
    Flat.canvas_width, Flat.canvas_height, Flat.WORLD_WIDTH, Flat.WORLD_HEIGHT,
    Flat.BLOCK_SIZE, Flat.BORDER, JS.Math_floor.
  cbn [fst snd].
  change (15 * 32)%Z with 480%Z. change (20 * 32)%Z with 640%Z.
  split; [|split; [|split; [|split; [|split]]]].
  - rewrite andb_true_iff, !Z.eqb_eq.
    rewrite minus_IZR, !mult_IZR, plus_IZR.
    split.
    + intros [Hx Hy]. symmetry in Hx, Hy.
      apply Zfloor_iff in Hx, Hy. lra.
    + intros [Hx Hy]. split; symmetry; apply Zfloor_iff; lra.
  - intros Hx Hy.
    pose proof (Zfloor_bound ((u + 8) / 32)) as Bx.
    pose proof (Zfloor_bound ((480 - (v + 8)) / 32)) as By.
    assert (Ax : -1 < IZR (Zfloor ((u + 8) / 32)) < 21) by lra.
    assert (Ay : -2 < IZR (Zfloor ((480 - (v + 8)) / 32)) < 15) by lra.
    destruct Ax as [Ax1 Ax2], Ay as [Ay1 Ay2].
    apply lt_IZR in Ax1, Ax2, Ay1, Ay2. lia.
  - intro H. apply Zfloor_iff. lra.
  - intro H. apply Zfloor_iff. lra.
  - intros ->. reflexivity.
  - intros ->. reflexivity.
Qed.

Lemma click_addresses_drawn_square_witness :
  fst (Flat.clickCell (fst (Flat.offsets 635 100)) (snd (Flat.offsets 635 100))) = 20%Z.
Proof.
  apply (proj1 (proj2 (proj2 (click_addresses_drawn_square (mkBlock grass 3 2 0) 635 100)))).
  unfold Flat.canvas_width, Flat.WORLD_WIDTH, Flat.BLOCK_SIZE.
  change (IZR (20 * 32)) with 640. lra.
Defined.

Lemma flat_column_facts (x : Z) (rs : RandomSource) :
  fair rs ->
  fair (snd (Flat.column x rs)) /\
  position (snd (Flat.column x rs)) = (2 + position rs)%nat /\
  Forall (flatBlock x) (fst (Flat.column x rs)) /\
  NoDup (map block_y (fst (Flat.column x rs))) /\
  (8 <= List.length (fst (Flat.column x rs)) <= 13)%nat.
Proof.
  intro F. destruct (F (position rs)) as [Hlo Hhi].
  pose proof (Qfloor_unit_times_3 _ Hlo Hhi) as Hh.
  unfold Flat.column, bind, Math_random, ret. cbn [draws position].
  set (h := Qfloor (draws rs (position rs) * 3)) in *.
  assert (C : h = 0%Z \/ h = 1%Z \/ h = 2%Z) by lia.
  split; [|split; [|split; [|split]]].
  - destruct (negb (Qle_bool (draws rs (S (position rs))) (8 # 10))); exact F.
  - destruct (negb (Qle_bool (draws rs (S (position rs))) (8 # 10))); reflexivity.
  - destruct C as [C|[C|C]]; rewrite C;
      destruct (negb (Qle_bool (draws rs (S (position rs))) (8 # 10)));
      cbv; repeat (apply Forall_cons; [intuition congruence|]);
      apply Forall_nil.
  - destruct C as [C|[C|C]]; rewrite C;
      destruct (negb (Qle_bool (draws rs (S (position rs))) (8 # 10)));
      cbv; repeat (apply NoDup_cons; [cbv; intuition discriminate|]);
      apply NoDup_nil.
  - destruct C as [C|[C|C]]; rewrite C;
      destruct (negb (Qle_bool (draws rs (S (position rs))) (8 # 10)));
      vm_compute; lia.
Qed.

Lemma flat_columns (l : list Z) (rs : RandomSource) :
  NoDup l -> fair rs ->
  fair (snd (forRand l Flat.column rs)) /\
  position (snd (forRand l Flat.column rs)) = (2 * List.length l + position rs)%nat /\
  Forall (fun b => In (block_x b) l /\ flatBlock (block_x b) b)
         (fst (forRand l Flat.column rs)) /\
  uniqueCells (fst (forRand l Flat.column rs)) /\
  (8 * List.length l <= List.length (fst (forRand l Flat.column rs))
   <= 13 * List.length l)%nat.
Proof.
  revert rs. induction l as [|x l IH]; intros rs ND F.
  - cbn. split; [assumption|]. split; [reflexivity|].
    split; [constructor|]. split; [constructor|lia].
  - inversion ND as [|? ? Hx ND']; subst.
    cbn [forRand]. unfold bind, ret.
    destruct (flat_column_facts x rs F) as (F1 & P1 & B1 & U1 & L1).
    destruct (Flat.column x rs) as [bs rs1]. cbn [fst snd] in *.
    destruct (IH rs1 ND' F1) as (F2 & P2 & B2 & U2 & L2).
    destruct (forRand l Flat.column rs1) as [rest rs2]. cbn [fst snd] in *.
    split; [assumption|]. split; [cbn [List.length]; lia|]. split; [|split].
    + apply Forall_app. split.
      * eapply Forall_impl; [|exact B1]. intros b Hb.
        assert (E : block_x b = x) by apply Hb. rewrite E. split; [now left|exact Hb].
      * eapply Forall_impl; [|exact B2]. intros b [Hin Hb]. split; [now right|exact Hb].
    + unfold uniqueCells in *. rewrite map_app. apply NoDup_app.
      * apply (NoDup_map_inv (fun c : Z * Z * Z => snd (fst c))).
        rewrite map_map. exact U1.
      * exact U2.
      * intros c H1 H2.
        apply in_map_iff in H1 as (b1 & E1 & I1).
        apply in_map_iff in H2 as (b2 & E2 & I2).
        rewrite Forall_forall in B1, B2.
        destruct (B1 b1 I1) as [X1 _]. destruct (B2 b2 I2) as [X2 _].
        apply Hx. replace x with (block_x b2); [exact X2|].
        rewrite <- X1. subst c. unfold cellOf in E2. congruence.
    + rewrite length_app. cbn [List.length]. lia.
Qed.

Lemma NoDup_range lo n : NoDup (range lo n).
Proof.
  unfold range. generalize (seq_NoDup (Z.to_nat n) 0).
  induction (seq 0 (Z.to_nat n)) as [|i l IH]; intro ND; [constructor|].
  inversion ND as [|? ? Hi ND']; subst. cbn [map]. constructor; [|now apply IH].
  intro H. apply in_map_iff in H as (j & E & Hj).
  assert (j = i) by lia. now subst.
Qed.

Lemma some_atColumnRow cx cy w :
  Forall (fun b => block_z b = 0%Z) w ->
  JS.some (atCell cx cy 0) w = JS.some (Flat.atColumnRow cx cy) w.
Proof.
  unfold JS.some. induction 1 as [|b w Hb _ IH]; [reflexivity|].
  cbn [existsb]. rewrite IH. f_equal.
  unfold atCell, Flat.atColumnRow. rewrite Hb. cbn. now rewrite andb_true_r.
Qed.

(** What a click on the canvas of the side-view page can do. *)
Lemma flat_click_outcomes button px py s :
  let r := Flat.handleCanvasClick button px py s in
  r = (s, []) \/ r = (s, [Notify NotEnoughBlocks]) \/
  (exists cx cy n,
     Flat.clickCell px py = (cx, cy) /\ button = 0%Z /\
     JS.some (Flat.atColumnRow cx cy) (Flat.world s) = false /\
     countOf (Flat.inventory s) (Flat.selectedBlock s) = Some n /\ (0 < n)%Z /\
     r = (Flat.mkState (Flat.world s ++ [mkBlock (Flat.selectedBlock s) cx cy 0])
                       (adjustCount (Flat.selectedBlock s) (-1) (Flat.inventory s))
                       (Flat.selectedBlock s),
          [Notify (BlockPlaced (Flat.selectedBlock s))])) \/
  (exists i b,
     button = 2%Z /\ nth_error (Flat.world s) i = Some b /\
     r = (Flat.mkState (JS.filterIndexNot i (Flat.world s))
                       (adjustCount (block_type b) 1 (Flat.inventory s))
                       (Flat.selectedBlock s),
          [Notify (BlockRemoved (block_type b))])).
Proof.
  cbv zeta. unfold Flat.handleCanvasClick.
  destruct (Flat.clickCell px py) as [cx cy] eqn:C.
  destruct (button =? 0)%Z eqn:B0.
  - apply Z.eqb_eq in B0.
    destruct (JS.findIndex (Flat.atColumnRow cx cy) (Flat.world s)) eqn:Fi; [now left|].
    apply findIndex_None in Fi.
    destruct (findItem (Flat.selectedBlock s) (Flat.inventory s)) as [item|] eqn:It;
      [|now right; left].
    destruct (count item >? 0)%Z eqn:G; [|now right; left].
    right; right; left. exists cx, cy, (count item).
    unfold countOf. rewrite It. cbn. repeat split; auto. lia.
  - destruct (button =? 2)%Z eqn:B2; [|now left].
    apply Z.eqb_eq in B2.
    destruct (JS.findIndex (Flat.atColumnRow cx cy) (Flat.world s)) as [i|] eqn:Fi;
      [|now left].
    destruct (nth_error (Flat.world s) i) as [b|] eqn:N; [|now left].
    right; right; right. now exists i, b.
Qed.

Lemma initialInventory4_types :
  map item_type initialInventory4 = [grass; dirt; stone; wood].
Proof. reflexivity. Qed.

Lemma flat_click_inPlay button px py s :
  flatInPlay s ->
  flatInPlay (fst (Flat.handleCanvasClick button px py s)) /\
  flatConserved (fst (Flat.handleCanvasClick button px py s)) = flatConserved s.
Proof.
  intros (U & W & T & N & Sel).
  assert (D : distinctSlots (Flat.inventory s)).
  { unfold distinctSlots. rewrite T, initialInventory4_types.
    repeat (constructor; [cbn; intuition discriminate|]). constructor. }
  destruct (flat_click_outcomes button px py s)
    as [H|[H|[(cx & cy & n & C & B & O & Cn & Hn & H)|(i & b & B & Nth & H)]]];
    rewrite H; cbn [fst]; try (split; [repeat split; assumption|reflexivity]).
  - (* placed *)
    split; [repeat split|].
    + cbn [Flat.world]. apply uniqueCells_placed; [assumption|].
      rewrite some_atColumnRow; [assumption|].
      eapply Forall_impl; [|exact W]. now intros ? [? _].
    + cbn [Flat.world]. apply Forall_app. split; [assumption|].
      constructor; [|constructor]. split; [reflexivity|exact Sel].
    + cbn [Flat.inventory]. now rewrite adjustCount_types.
    + cbn [Flat.inventory]. now apply adjustCount_take_nonNegative with (n := n).
    + exact Sel.
    + unfold flatConserved. cbn [Flat.world Flat.inventory].
      rewrite totalCount_adjustCount; [|exact D|apply trackable_In; now rewrite T].
      rewrite length_app. cbn [List.length]. lia.
  - (* removed *)
    destruct (filterIndexNot_split _ _ _ Nth) as (l1 & l2 & E & L & R).
    assert (Wb : block_z b = 0%Z /\ In (block_type b) (map item_type initialInventory4)).
    { rewrite Forall_forall in W. apply W. eapply nth_error_In; eassumption. }
    split; [repeat split|].
    + cbn [Flat.world]. now apply uniqueCells_removed with (b := b).
    + cbn [Flat.world]. rewrite R. rewrite E in W.
      apply Forall_app in W as [W1 W2]. inversion W2; subst.
      apply Forall_app. now split.
    + cbn [Flat.inventory]. now rewrite adjustCount_types.
    + cbn [Flat.inventory]. now apply adjustCount_give_nonNegative.
    + exact Sel.
    + unfold flatConserved. cbn [Flat.world Flat.inventory].
      rewrite totalCount_adjustCount; [|exact D|apply trackable_In; rewrite T; apply Wb].
      pose proof (filterIndexNot_length _ _ _ Nth). lia.
Qed.

Lemma flat_step_inPlay e s :
  flatInPlay s ->
  flatInPlay (fst (Flat.step e s)) /\
  flatConserved (fst (Flat.step e s)) = flatConserved s.
Proof.
  intro I. destruct e as [button px py|button px py|index]; cbn [Flat.step].
  - now apply flat_click_inPlay.
  - pose proof (flat_click_inPlay button px py s I) as H.
    now destruct (Flat.handleCanvasClick button px py s).
  - destruct (nth_error (Flat.inventory s) index) as [item|] eqn:N;
      cbn [fst]; [|now split].
    destruct I as (U & W & T & Nn & Sel).
    split; [|reflexivity]. repeat split; try assumption.
    cbn [Flat.selectedBlock]. rewrite <- T. apply in_map.
    eapply nth_error_In; eassumption.
Qed.

(** On the side-view page nothing is lost and no cell is used twice.
    Whatever the draws in [0, 1), the generated terrain has 160 to 260
    blocks in unique cells, all in columns 0 to 19 and rows 0 to 12, so
    inside the canvas; and after any series of clicks, context menus and
    slot selections the cells are still unique, the inventory still has
    its four slots with no negative count, and the sum of the counts plus
    the number of blocks in the world is what it was after generation: the
    256 of the initial inventory plus the size of the terrain. *)
Theorem flat_page_conserves (rs : RandomSource) (es : list Flat.Event)
    (Hfair : fair rs) :
  let generated := fst (Flat.generateWorld Flat.initial rs) in
  let s := Flat.run es generated in
  (160 <= List.length (Flat.world generated) <= 260)%nat /\
  Forall (fun b => (0 <= block_x b < Flat.WORLD_WIDTH)%Z /\
                   (0 <= block_y b <= 12)%Z)
         (Flat.world generated) /\
  position (snd (Flat.generateWorld Flat.initial rs)) = (40 + position rs)%nat /\
  uniqueCells (Flat.world s) /\
  map item_type (Flat.inventory s) = [grass; dirt; stone; wood] /\
  nonNegative (Flat.inventory s) /\
  (totalCount (Flat.inventory s) + Z.of_nat (List.length (Flat.world s))
   = 256 + Z.of_nat (List.length (Flat.world generated)))%Z.
Proof.
  cbv zeta. unfold Flat.generateWorld, Flat.initial, bind, ret.
  destruct (flat_columns (range 0 Flat.WORLD_WIDTH) rs (NoDup_range _ _) Hfair)
    as (_ & P & B & U & L).
  destruct (forRand (range 0 Flat.WORLD_WIDTH) Flat.column rs) as [blocks rs'].
  cbn [fst snd Flat.world Flat.inventory Flat.selectedBlock] in *.
  assert (Len : List.length (range 0 Flat.WORLD_WIDTH) = 20%nat) by reflexivity.
  rewrite Len in *.
  set (g := Flat.mkState blocks initialInventory4 grass).
  assert (I : flatInPlay g).
  { unfold flatInPlay, g. cbn [Flat.world Flat.inventory Flat.selectedBlock].
    split; [exact U|]. split; [|split; [reflexivity|split]].
    - eapply Forall_impl; [|exact B]. intros b (_ & _ & Hz & _ & Ty).
      split; [exact Hz|]. rewrite initialInventory4_types. cbn.
      destruct Ty as [-> | [-> | [-> | ->]]]; auto.
    - repeat constructor; cbn; lia.
    - now left. }
  assert (R : forall es s, flatInPlay s ->
                flatInPlay (Flat.run es s) /\
                flatConserved (Flat.run es s) = flatConserved s).
  { clear. induction es as [|e es IH]; intros s I; [now split|].
    cbn [Flat.run]. destruct (flat_step_inPlay e s I) as [I' C'].
    destruct (IH _ I') as [I'' C'']. split; [assumption|congruence]. }
  destruct (R es g I) as [(U' & _ & T' & N' & _) C'].
  split; [lia|]. split; [|split; [lia|]].
  - eapply Forall_impl; [|exact B]. intros b (Hin & _ & _ & Hy & _).
    apply range_In in Hin. split; [exact Hin|exact Hy].
  - split; [exact U'|]. split; [now rewrite T'|]. split; [exact N'|].
    unfold flatConserved in C'. rewrite C'. unfold g. cbn. lia.
Qed.

Lemma flat_page_conserves_witness :
  let s := Flat.run [Flat.Click 0 100 100; Flat.ContextMenu 2 100 100]
                    (fst (Flat.generateWorld Flat.initial zeros)) in
  uniqueCells (Flat.world s).
Proof.
  intro s.
  assert (F : fair zeros) by (intro n; split; [discriminate|reflexivity]).
  exact (proj1 (proj2 (proj2 (proj2
           (flat_page_conserves zeros
              [Flat.Click 0 100 100; Flat.ContextMenu 2 100 100] F))))).
Defined.

(** ** Walking and looking *)

Lemma clamp_idle (lo hi v : R) :
  lo <= v <= hi -> JS.Math_max lo (JS.Math_min hi v) = v.
Proof.
  intros [H1 H2]. unfold JS.Math_max, JS.Math_min.
  rewrite (Rmin_right hi v) by assumption. now apply Rmax_right.
Qed.

(** Which way W walks.  With the camera a step clear of the walls - as it
    is where each page starts - and only W held, one motion tick changes
    the depth at which every point of the world is seen, its distance
    along the view axis of the projection.  In the earliest page W walks
    into the view: every depth shrinks by 0.2 times the cosine of the
    pitch.  In the four-slot page W walks straight out of the view: every
    depth grows by 0.15 times that cosine.  In the page with crafting W
    walks along the view axis mirrored in z: every depth grows by
    0.2 cos(2 yaw) cos(pitch), so at the initial yaw of 0 W backs away from
    what is at the centre of the screen. *)
Theorem w_key_direction (c : Camera) (x y z : R) :
  (2 / 10 <= cam_x c <= 148 / 10 -> 2 / 10 <= cam_z c <= 148 / 10 ->
   1 <= cam_y c <= 15 ->
   LegacyCamera.forwardDepth (LegacyCamera.moveCamera ["w"%string] c) x y z
     = LegacyCamera.forwardDepth c x y z - 2 / 10 * cos (pitch c)) /\
  (15 / 100 <= cam_x c <= 2885 / 100 -> 15 / 100 <= cam_z c <= 2885 / 100 ->
   2 <= cam_y c <= 20 ->
   forwardDepth (Predecessor.moveCamera ["w"%string] c) x y z
     = forwardDepth c x y z + 15 / 100 * cos (pitch c)) /\
  (2 / 10 <= cam_x c <= 288 / 10 -> 2 / 10 <= cam_z c <= 288 / 10 ->
   2 <= cam_y c <= 20 ->
   forwardDepth (moveCamera ["w"%string] c) x y z
     = forwardDepth c x y z + 2 / 10 * cos (2 * yaw c) * cos (pitch c)).
Proof.
  pose proof (SIN_bound (yaw c)) as [S1 S2].
  pose proof (COS_bound (yaw c)) as [C1 C2].
  pose proof (sin2_cos2 (yaw c)) as SC. unfold Rsqr in SC.
  unfold LegacyCamera.moveCamera, Predecessor.moveCamera, moveCamera.
  change (has ["w"%string] "w") with true.
  change (has ["w"%string] "s") with false.
  change (has ["w"%string] "a") with false.
  change (has ["w"%string] "d") with false.
  change (has ["w"%string] " ") with false.
  change (has ["w"%string] "shift") with false.
  cbv iota beta zeta. cbn [fst snd].
  change (IZR (LegacyTerrain.WORLD_SIZE - 1)) with 15.
  change (IZR (WORLD_SIZE - 1)) with 29.
  split; [|split]; intros Hx Hz Hy;
    rewrite !clamp_idle by lra;
    unfold LegacyCamera.forwardDepth, forwardDepth;
    cbn [cam_x cam_y cam_z pitch yaw]; rewrite ?cos_2a;
    set (s := sin (yaw c)) in *; set (k := cos (yaw c)) in *;
    set (p := cos (pitch c)); set (q := sin (pitch c));
    assert (SC' : s * s = 1 - k * k) by lra;
    apply Rminus_diag_uniq; ring_simplify;
    try reflexivity; replace (s ^ 2) with (1 - k ^ 2) by (cbn [pow]; lra); ring.
Qed.

(** At the place and with the view the page with crafting starts from. *)
Lemma w_key_direction_witness :
  forwardDepth (moveCamera ["w"%string] initialCamera) 15 5 18
  = forwardDepth initialCamera 15 5 18
    + 2 / 10 * cos (2 * yaw initialCamera) * cos (pitch initialCamera).
Proof.
  apply (proj2 (proj2 (w_key_direction initialCamera 15 5 18)));
    unfold initialCamera; cbn [cam_x cam_y cam_z]; lra.
Defined.

Lemma drag_facts (path : list (R * R)) (l : LegacyCamera.Look) :
  LegacyCamera.mouseDown l = true ->
  - PI / 2 <= pitch (LegacyCamera.view l) <= PI / 2 ->
  let l' := LegacyCamera.drag path l in
  LegacyCamera.mouseDown l' = true /\
  LegacyCamera.lastMousePos l' = last path (LegacyCamera.lastMousePos l) /\
  yaw (LegacyCamera.view l')
    = yaw (LegacyCamera.view l)
      + (fst (last path (LegacyCamera.lastMousePos l))
         - fst (LegacyCamera.lastMousePos l)) * (3 / 1000) /\
  - PI / 2 <= pitch (LegacyCamera.view l') <= PI / 2 /\
  cam_x (LegacyCamera.view l') = cam_x (LegacyCamera.view l) /\
  cam_y (LegacyCamera.view l') = cam_y (LegacyCamera.view l) /\
  cam_z (LegacyCamera.view l') = cam_z (LegacyCamera.view l).
Proof.
  revert l. induction path as [|[px py] path IH]; intros l D P; cbv zeta.
  - cbn. repeat split; try assumption; try lra.
  - cbn [LegacyCamera.drag].
    set (l1 := LegacyCamera.handleMouseMove px py l).
    assert (E : l1 = LegacyCamera.mkLook true (px, py)
                  (mkCamera (cam_x (LegacyCamera.view l)) (cam_y (LegacyCamera.view l))
                     (cam_z (LegacyCamera.view l))
                     (JS.Math_max (- PI / 2)
                        (JS.Math_min (PI / 2)
                           (pitch (LegacyCamera.view l)
                            - (py - snd (LegacyCamera.lastMousePos l)) * (3 / 1000))))
                     (yaw (LegacyCamera.view l)
                      + (px - fst (LegacyCamera.lastMousePos l)) * (3 / 1000)))).
    { unfold l1, LegacyCamera.handleMouseMove. now rewrite D. }
    assert (D1 : LegacyCamera.mouseDown l1 = true) by now rewrite E.
    assert (P1 : - PI / 2 <= pitch (LegacyCamera.view l1) <= PI / 2).
    { rewrite E. cbn [LegacyCamera.view pitch].
      pose proof PI_RGT_0.
      apply clamp_bounds. lra. }
    destruct (IH l1 D1 P1) as (A1 & A2 & A3 & A4 & A5 & A6 & A7).
    assert (L1 : LegacyCamera.lastMousePos l1 = (px, py)) by now rewrite E.
    assert (La : last ((px, py) :: path) (LegacyCamera.lastMousePos l)
                 = last path (px, py)).
    { clear. revert px py. induction path as [|q path IH]; intros; [reflexivity|].
      cbn [last]. destruct path; [reflexivity|]. cbn [last] in *. apply IH. }
    rewrite La. rewrite L1 in A2, A3.
    split; [exact A1|]. split; [exact A2|]. split.
    + rewrite A3, E. cbn [LegacyCamera.view yaw fst]. lra.
    + split; [exact A4|]. rewrite A5, A6, A7, E. now cbn.
Qed.

Lemma drag_idle (path : list (R * R)) (l : LegacyCamera.Look) :
  LegacyCamera.mouseDown l = false -> LegacyCamera.drag path l = l.
Proof.
  intro D. induction path as [|[px py] path IH]; [reflexivity|].
  cbn [LegacyCamera.drag]. unfold LegacyCamera.handleMouseMove. now rewrite D.
Qed.

(** Looking around by dragging, in the page without pointer lock.  With
    the left button pressed at a point, a drag along any path turns the
    yaw by 0.003 times the horizontal distance between the first and the
    last point, whatever lies in between; the pitch stays between -PI/2
    and PI/2; the position does not change.  After the button is released
    pointer moves turn nothing, and neither do moves after a press of
    another button. *)
Theorem drag_turns_by_pointer_travel (button : Z) (x0 y0 : R)
    (path later : list (R * R)) (l : LegacyCamera.Look)
    (Hpitch : - PI / 2 <= pitch (LegacyCamera.view l) <= PI / 2) :
  let pressed := LegacyCamera.handleMouseDown button x0 y0 l in
  let dragged := LegacyCamera.drag path pressed in
  let released := LegacyCamera.drag later (LegacyCamera.handleMouseUp dragged) in
  (button = 0%Z ->
   yaw (LegacyCamera.view dragged)
     = yaw (LegacyCamera.view l) + (fst (last path (x0, y0)) - x0) * (3 / 1000) /\
   - PI / 2 <= pitch (LegacyCamera.view dragged) <= PI / 2 /\
   cam_x (LegacyCamera.view dragged) = cam_x (LegacyCamera.view l) /\
   cam_y (LegacyCamera.view dragged) = cam_y (LegacyCamera.view l) /\
   cam_z (LegacyCamera.view dragged) = cam_z (LegacyCamera.view l)) /\
  LegacyCamera.view released = LegacyCamera.view dragged /\
  (button <> 0%Z -> LegacyCamera.mouseDown l = false ->
   LegacyCamera.view dragged = LegacyCamera.view l).
Proof.
  cbv zeta. split; [|split].
  - intros ->. unfold LegacyCamera.handleMouseDown. cbn [Z.eqb].
    destruct (drag_facts path (LegacyCamera.mkLook true (x0, y0) (LegacyCamera.view l))
                eq_refl Hpitch) as (_ & _ & Y & P & X1 & X2 & X3).
    cbn [LegacyCamera.view LegacyCamera.lastMousePos fst] in *.
    now repeat split.
  - now rewrite drag_idle.
  - intros B D. unfold LegacyCamera.handleMouseDown.
    destruct (Z.eqb_spec button 0); [contradiction|]. now rewrite drag_idle.
Qed.

Lemma drag_turns_by_pointer_travel_witness :
  yaw (LegacyCamera.view
         (LegacyCamera.drag [(5, 0); (-20, 7); (10, 3)]
            (LegacyCamera.handleMouseDown 0 0 0
               (LegacyCamera.mkLook false (0, 0) (mkCamera 8 5 8 0 0)))))
  = 0 + (10 - 0) * (3 / 1000).
Proof.
  assert (P : - PI / 2 <= pitch (LegacyCamera.view
                (LegacyCamera.mkLook false (0, 0) (mkCamera 8 5 8 0 0))) <= PI / 2).
  { cbn. pose proof PI_RGT_0. lra. }
  exact (proj1 (proj1 (drag_turns_by_pointer_travel 0 0 0 [(5, 0); (-20, 7); (10, 3)] []
                         (LegacyCamera.mkLook false (0, 0) (mkCamera 8 5 8 0 0)) P)
                  eq_refl)).
Defined.

(** ** Entering and leaving a game *)

(** The choice of the server is permanent.  Nothing resets the selected
    server: once it is FunTime it stays FunTime through any series of
    menu, server list and game buttons, so every game started afterwards,
    in whatever mode, gets the village and never the flat world. *)
Theorem server_choice_is_permanent (es : list ModeEvent) (v : Vitals)
    (Hjoined : selectedServer v = Some funtime) :
  selectedServer (modeRun es v) = Some funtime /\
  generator (modeRun es v) <> Some FlatWorld /\
  (forall mode, playable mode = true ->
     generator (modeStep (StartGame mode) (modeRun (es ++ [Back]) v)) = Some Village).
Proof.
  assert (S : forall e w, selectedServer w = Some funtime ->
                          selectedServer (modeStep e w) = Some funtime).
  { intros e w H. destruct e; unfold modeStep; destruct (gameMode w); cbn; auto. }
  assert (R : forall es w, selectedServer w = Some funtime ->
                           selectedServer (modeRun es w) = Some funtime).
  { clear es v Hjoined. induction es as [|e es IH]; intros w H; [exact H|].
    cbn [modeRun]. apply IH, S, H. }
  split; [now apply R|]. split.
  - unfold generator. rewrite (R es v Hjoined).
    destruct (gameMode (modeRun es v)); discriminate.
  - intros mode Hmode.
    assert (M : forall w, gameMode (modeStep Back w) = menu).
    { intro w. unfold modeStep. destruct (gameMode w) eqn:G; cbn; auto. }
    assert (Q : modeRun (es ++ [Back]) v = modeStep Back (modeRun es v)).
    { clear. revert v. induction es as [|e es IH]; intro v; [reflexivity|].
      cbn [app modeRun]. apply IH. }
    rewrite Q. set (w := modeStep Back (modeRun es v)).
    assert (Mw : gameMode w = menu) by apply M.
    assert (Sw : selectedServer w = Some funtime) by apply S, R, Hjoined.
    unfold modeStep. rewrite Mw. unfold generator.
    cbn [startGame fst gameMode selectedServer]. rewrite Sw.
    destruct mode; try discriminate Hmode; reflexivity.
Qed.

Lemma server_choice_is_permanent_witness :
  generator (modeRun [Back; StartGame survival]
               (modeRun [Multiplayer; JoinFunTime] (mkVitals menu None 100 100)))
  <> Some FlatWorld.
Proof.
  exact (proj1 (proj2 (server_choice_is_permanent [Back; StartGame survival]
                         (modeRun [Multiplayer; JoinFunTime] (mkVitals menu None 100 100))
                         eq_refl))).
Defined.

(** Going through the menu resets the world and keeps the inventory.
    From a single-player game, the home button followed by a mode button
    replaces the world by the freshly generated flat world, whatever had
    been built or dug, while the inventory keeps its counts, the selected
    type and the camera stay, and health and hunger are back at 100: the
    blocks placed before are gone and their counts are not restored. *)
Theorem restart_resets_world_not_inventory (clock : Z * Z) (mode : GameMode)
    (p : Page) (rs : RandomSource)
    (Hplaying : playable (gameMode (vitals p)) = true)
    (Hsingle : selectedServer (vitals p) = None)
    (Hmode : playable mode = true) :
  let p' := fst (modePageRun clock [Back; StartGame mode] p rs) in
  world (game p') = flatBase /\
  inventory (game p') = inventory (game p) /\
  selectedBlock (game p') = selectedBlock (game p) /\
  camera (game p') = camera (game p) /\
  vitals p' = mkVitals mode None 100 100 /\
  chatMessages p' = chatMessages p /\ bots p' = bots p /\
  keysPressed p' = keysPressed p.
Proof.
  cbv zeta. cbn [modePageRun]. unfold bind, ret.
  (* home *)
  assert (B : modePageStep clock Back p rs
              = (commit p (setVitals (setGameMode menu (vitals p)) p), rs)).
  { unfold modePageStep, bind, ret, worldEffect, modeStep, generator.
    destruct (gameMode (vitals p)) eqn:G; try discriminate Hplaying;
      cbn [setVitals vitals setGameMode gameMode selectedServer GameMode_eqb andb];
      reflexivity. }
  rewrite B. set (q := commit p (setVitals (setGameMode menu (vitals p)) p)).
  destruct (commit_fields p (setVitals (setGameMode menu (vitals p)) p))
    as (G & V & K & I & M & Bo). fold q in G, V, K, I, M, Bo.
  cbn [game vitals keysPressed chatInput chatMessages bots setVitals] in G, V, K, I, M, Bo.
  (* the mode button *)
  assert (S : modePageStep clock (StartGame mode) q rs
              = (commit q (setGame (setWorld flatBase (game q))
                             (setVitals (mkVitals mode None 100 100) q)), rs)).
  { unfold modePageStep, bind, ret, worldEffect, modeStep, generator. rewrite V.
    cbn [setGameMode gameMode selectedServer startGame fst setVitals vitals].
    rewrite Hsingle.
    destruct mode; try discriminate Hmode;
      cbn [GameMode_eqb andb generateFlatWorld]; unfold bind, ret; reflexivity. }
  rewrite S. cbn [fst].
  match goal with |- context [commit q ?q'] =>
    destruct (commit_fields q q') as (-> & -> & -> & _ & -> & ->) end.
  cbn [game vitals keysPressed chatMessages bots setGame setVitals].
  rewrite G, K, M, Bo. now repeat split.
Qed.

Lemma restart_resets_world_not_inventory_witness :
  let built := mkPage (playing (flatBase ++ [mkBlock stone 15 3 15])
                         (adjustCount stone (-1) initialInventory))
                      (mkVitals creative None 100 100) [] [] [] [] [] [] in
  let p' := fst (modePageRun (0, 0)%Z [Back; StartGame creative] built zeros) in
  world (game p') = flatBase /\
  countOf (inventory (game p')) stone = Some 63%Z.
Proof.
  intros built p'.
  destruct (restart_resets_world_not_inventory (0, 0)%Z creative built zeros
              eq_refl eq_refl eq_refl) as (W & I & _).
  split; [exact W|]. fold p' in I. rewrite I. reflexivity.
Defined.

(** ** Companions on screen *)

Lemma corners_behind cv camera (l : list (R * R * R)) :
  JS.some (fun p => Rltb (distance p) 0)
          (map (fun '(cx, cy, cz) => project3DTo2D (Some cv) camera cx cy cz) l)
  = existsb (fun '(cx, cy, cz) => Rleb (forwardDepth camera cx cy cz) (1 / 10)) l.
Proof.
  unfold JS.some. induction l as [|[[cx cy] cz] l IH]; [reflexivity|].
  cbn [map existsb]. rewrite IH. f_equal.
  rewrite project3DTo2D_depth.
  destruct (Rleb (forwardDepth camera cx cy cz) (1 / 10)) eqn:G.
  - apply Rltb_true. lra.
  - apply Rleb_false in G. apply Rltb_false. lra.
Qed.

(** A companion is drawn whole or not at all, at any distance.  With the
    canvas mounted, a companion with one of the sixteen corners of its
    head and body at forward depth at most 0.1 is not drawn, and its name
    is not written.  A companion with all sixteen beyond that depth gets
    the six faces of the head in the skin colour, then the six of the body
    in its own colour, and its name if the point above the head is beyond
    that depth too - however far away it stands: the companion pass has no
    render distance, while a block is drawn only within 15 of the camera. *)
Theorem companion_drawn_whole_or_not (cv : Canvas) (camera : Camera) (bot : Bot) :
  ((exists cx cy cz, In (cx, cy, cz) (headCorners bot ++ bodyCorners bot) /\
                     forwardDepth camera cx cy cz <= 1 / 10) ->
   drawBot (Some cv) camera bot = []) /\
  ((forall cx cy cz, In (cx, cy, cz) (headCorners bot ++ bodyCorners bot) ->
                     1 / 10 < forwardDepth camera cx cy cz) ->
   exists head body label,
     drawBot (Some cv) camera bot =
       map (BotFace "#D2B48C") head ++ map (BotFace (bot_color bot)) body ++ label /\
     List.length head = 6%nat /\ List.length body = 6%nat /\
     Forall (fun path => List.length path = 4%nat) (head ++ body) /\
     label =
       (let '(nx, ny, nz) := namePoint bot in
        if Rleb (forwardDepth camera nx ny nz) (1 / 10) then []
        else [BotName (bot_name bot)
                (pt_x (project3DTo2D (Some cv) camera nx ny nz))
                (pt_y (project3DTo2D (Some cv) camera nx ny nz))])) /\
  (forall world block,
     In block (cubeCalls camera world) ->
     filterDistance camera block < IZR RENDER_DISTANCE).
Proof.
  split; [|split].
  - intros (cx & cy & cz & Hin & Hd). unfold drawBot. cbv zeta.
    rewrite !corners_behind, <- existsb_app.
    replace (existsb _ (headCorners bot ++ bodyCorners bot)) with true; [reflexivity|].
    symmetry. apply existsb_exists. exists (cx, cy, cz).
    split; [assumption|now apply Rleb_true].
  - intro H. unfold drawBot. cbv zeta.
    rewrite !corners_behind, <- existsb_app.
    replace (existsb _ (headCorners bot ++ bodyCorners bot)) with false.
    + set (project := fun '(cx, cy, cz) => project3DTo2D (Some cv) camera cx cy cz).
      set (pathOf := fun (projected : list ProjectedPoint) (face : list nat) =>
             map (fun i => let p := nth i projected (mkPoint 0 0 0) in (pt_x p, pt_y p))
                 face).
      exists (map (pathOf (map project (headCorners bot))) faces),
             (map (pathOf (map project (bodyCorners bot))) faces),
             (if Rltb 0 (distance (project (namePoint bot)))
              then [BotName (bot_name bot) (pt_x (project (namePoint bot)))
                      (pt_y (project (namePoint bot)))]
              else []).
      split; [now rewrite !map_map|].
      split; [reflexivity|]. split; [reflexivity|]. split.
      * unfold faces, pathOf. cbn [map app].
        repeat (apply Forall_cons; [reflexivity|]). apply Forall_nil.
      * unfold namePoint, project. rewrite project3DTo2D_depth.
        destruct (Rleb (forwardDepth camera (bot_x bot)
                          (bot_y bot + 12 / 10 + 5 / 10 + 3 / 10) (bot_z bot)) (1 / 10)) eqn:G.
        -- replace (Rltb 0 (-1)) with false; [reflexivity|].
           symmetry. apply Rltb_false. lra.
        -- apply Rleb_false in G.
           replace (Rltb 0 _) with true; [reflexivity|].
           symmetry. apply Rltb_true. lra.
    + symmetry. apply not_true_is_false. intro E.
      apply existsb_exists in E as ([[cx cy] cz] & Hin & Hd).
      apply Rleb_true in Hd. specialize (H cx cy cz Hin). lra.
  - intros world block Hin. unfold cubeCalls, sortedBlocks in Hin.
    apply filter_In in Hin as [Hin _].
    apply (Permutation_in _ (sort_perm _ _)) in Hin.
    apply filter_In in Hin as [_ Hd]. now apply Rltb_true in Hd.
Qed.

Lemma companion_drawn_whole_or_not_witness :
  drawBot (Some (mkCanvas 800 600)) (mkCamera 15 5 20 0 0)
          (mkBot "1" "Steve123" 10 2 10 12 8 "#3B82F6") = [].
Proof.
  apply (proj1 (companion_drawn_whole_or_not (mkCanvas 800 600) (mkCamera 15 5 20 0 0)
                  (mkBot "1" "Steve123" 10 2 10 12 8 "#3B82F6"))).
  exists (10 - 5 / 10 / 2), (2 + 12 / 10), (10 - 5 / 10 / 2).
  split; [now left|].
  unfold forwardDepth. cbn [cam_x cam_y cam_z pitch yaw].
  rewrite sin_0, cos_0. lra.
Defined.

(** ** The village on arrival *)

(** The village starts behind the camera.  [generateVillage] puts the
    camera at (15, 5, 20) looking level along +z, and every block of the
    four houses and of the plaza lies at z <= 19: each has a corner behind
    the near plane, so on arrival not one of them is drawn - the screen
    shows the ground beyond z = 20 only - although all of them are in the
    world.  One tick of W moves the camera to z = 19.8, towards them. *)
Theorem village_starts_behind_the_camera (cv : Canvas) (s : GameState)
    (rs : RandomSource) :
  let s' := fst (generateVillage s rs) in
  world s' = flatBase ++ houses ++ plaza /\
  (forall b, In b (houses ++ plaza) ->
     drawCube (Some cv) (camera s') (IZR (block_x b)) (IZR (block_y b))
              (IZR (block_z b)) (blockColors (block_type b)) = []) /\
  (exists b, In b houses /\ block_type b = planks) /\
  cam_z (moveCamera ["w"%string] (camera s')) = 198 / 10.
Proof.
  cbv zeta. unfold generateVillage, ret. cbn [fst world camera setCamera setWorld].
  split; [reflexivity|]. split; [|split].
  - intros b Hin.
    assert (Hz : (block_z b <= 19)%Z).
    { assert (F : forallb (fun b => (block_z b <=? 19)%Z) (houses ++ plaza) = true)
        by (vm_compute; reflexivity).
      rewrite forallb_forall in F. apply Z.leb_le, F, Hin. }
    apply drawCube_culled.
    exists (project3DTo2D (Some cv) (mkCamera 15 5 20 0 0)
              (IZR (block_x b)) (IZR (block_y b)) (IZR (block_z b))).
    split; [now left|].
    rewrite project3DTo2D_depth.
    assert (D : forwardDepth (mkCamera 15 5 20 0 0)
                  (IZR (block_x b)) (IZR (block_y b)) (IZR (block_z b))
                = IZR (block_z b) - 20).
    { unfold forwardDepth. cbn [cam_x cam_y cam_z pitch yaw].
      rewrite sin_0, cos_0. ring. }
    rewrite D. apply IZR_le in Hz.
    replace (Rleb (IZR (block_z b) - 20) (1 / 10)) with true; [lra|].
    symmetry. apply Rleb_true. lra.
  - exists (mkBlock planks 5 1 5). split; [|reflexivity].
    unfold houses. apply in_or_app. left.
    unfold buildHouse. vm_compute. now left.
  - unfold moveCamera.
    change (has ["w"%string] "w") with true.
    change (has ["w"%string] "s") with false.
    change (has ["w"%string] "a") with false.
    change (has ["w"%string] "d") with false.
    change (has ["w"%string] " ") with false.
    change (has ["w"%string] "shift") with false.
    cbv iota beta zeta. cbn [cam_x cam_y cam_z pitch yaw].
    rewrite ?sin_0, ?cos_0. change (IZR (WORLD_SIZE - 1)) with 29.
    rewrite clamp_idle by lra. lra.
Qed.
